(** * Conservative resource analysis of syzkaller programs (prog/analysis.go)

    A shallow embedding of [prog/analysis.go]: the analysis state and the
    per-call observation, the argument-tree traversal, the resolution of
    length fields and the call sanitizer, followed by the properties the
    specification states about them. *)

From stdpp Require Import gmap strings list fin_maps.
From Stdlib Require Import ZArith Lia.

Open Scope Z_scope.
Set Warnings "-register-all,-clear-no-such-hyp".

(** ** Machine integers *)

(** [uintptr] values are kept as [Z]; arithmetic that can leave the range
    is wrapped explicitly (64-bit target). *)
Definition uintptr_bits : Z := 64.
Definition wrap (z : Z) : Z := z mod 2 ^ uintptr_bits.
Definition wrap32 (z : Z) : Z := z mod 2 ^ 32.

(** [^uintptr(0)] *)
Definition uintptr_max : Z := 2 ^ uintptr_bits - 1.

(** ** Outcomes *)

(** A Go panic aborts the operation; the payload says which one.  The
    bounded traversal below can also stop for lack of fuel, which is kept
    apart from every outcome of the program. *)
Inductive fault : Type :=
  | NotPages                       (* "mmap/munmap/mremap args are not pages" *)
  | OutOfBounds (page n : Z)       (* "address is out of bounds: ..." *)
  | IndexOutOfRange                (* runtime: slice or array index *)
  | NilDeref                       (* runtime: nil pointer dereference *)
  | LenRefMissing (len buf : string) (* "len field ... references non existent field ..." *)
  | BadArgKind (msg : string).     (* sanitizeCall's kind checks *)

Inductive res (A : Type) : Type :=
  | Ok (a : A)
  | Panic (f : fault)
  | OutOfFuel.
Arguments Ok {A} a.
Arguments Panic {A} f.
Arguments OutOfFuel {A}.

#[global] Instance res_bind : MBind res := λ A B k m,
  match m with
  | Ok a => k a
  | Panic f => Panic f
  | OutOfFuel => OutOfFuel
  end.
#[global] Instance res_ret : MRet res := λ A a, Ok a.

Fixpoint foldM {A B} (f : B → A → res B) (l : list A) (b : B) : res B :=
  match l with
  | [] => Ok b
  | x :: l' => b' ← f b x; foldM f l' b'
  end.

Definition is_panic {A} (r : res A) : Prop := ∃ f, r = Panic f.

(** ** Type descriptors (package sys) *)

Module sys.

Inductive Dir : Type := DirIn | DirOut | DirInOut.

Inductive BufferKind : Type :=
  | BufferBlob | BufferString | BufferFilename | BufferSockaddr.

(** Modelled from the spec: the descriptor types of package [sys] are not
    part of this file's source.  The cases are the ones the type switches
    of the analysis distinguish (spec, data model: resource type with a
    named kind, buffer type with a semantic kind, length type naming a
    field or "parent" with an optional byte stride, virtual-memory-region,
    array, pointer, struct and union types); every other descriptor is
    [OtherType]. *)
Inductive TypeCase : Type :=
  | ResourceType (Desc_Name : string)
  | BufferType (Kind : BufferKind)
  | LenType (Buf : string) (ByteSize : Z)
  | VmaType
  | ArrayType
  | PtrType
  | StructType
  | UnionType
  | OtherType.

(** What the interface [sys.Type] answers: [Name()], [Dir()],
    [Optional()], whether [sys.IsPad] holds, and the dynamic type. *)
Record Type_ : Type := mkType {
  Name : string;
  Dir_ : Dir;
  Optional : bool;
  IsPad : bool;
  Case : TypeCase
}.

(** Modelled from the spec: the named integer constants of package [sys]
    used by the analysis and the sanitizer (spec, external interfaces). *)
Record Consts : Type := mkConsts {
  MAP_ANONYMOUS : Z;
  MAP_FIXED : Z;
  InvalidFD : Z;
  MREMAP_MAYMOVE : Z;
  MREMAP_FIXED : Z;
  S_IFREG : Z;
  S_IFIFO : Z;
  S_IFSOCK : Z;
  SYSLOG_ACTION_CONSOLE_OFF : Z;
  SYSLOG_ACTION_CONSOLE_ON : Z;
  SYSLOG_ACTION_SIZE_UNREAD : Z;
  FIFREEZE : Z;
  FITHAW : Z;
  PTRACE_TRACEME : Z
}.

End sys.

#[global] Instance Dir_eq_dec : EqDecision sys.Dir.
Proof. solve_decision. Defined.
#[global] Instance BufferKind_eq_dec : EqDecision sys.BufferKind.
Proof. solve_decision. Defined.
#[global] Instance TypeCase_eq_dec : EqDecision sys.TypeCase.
Proof. solve_decision. Defined.
#[global] Instance Type_eq_dec : EqDecision sys.Type_.
Proof. solve_decision. Defined.

Definition isStruct (t : sys.Type_) : bool :=
  match sys.Case t with sys.StructType => true | _ => false end.
Definition isPtr (t : sys.Type_) : bool :=
  match sys.Case t with sys.PtrType => true | _ => false end.
Definition isLen (t : sys.Type_) : bool :=
  match sys.Case t with sys.LenType _ _ => true | _ => false end.

(** ** Programs, calls and argument nodes *)

Inductive ArgKind : Type :=
  | ArgConst | ArgResult | ArgPointer | ArgPageSize
  | ArgData | ArgGroup | ArgUnion | ArgReturn.

#[global] Instance ArgKind_eq_dec : EqDecision ArgKind.
Proof. solve_decision. Defined.

(** An argument node with the fields the analysis reads and writes.  A
    [*Arg] held by a parent ([Inner], [Res], [Option]) is the child itself:
    by the forest invariant of the data model every node is owned by one
    slot, so writing through the pointer is rewriting that slot. *)
Inductive Arg : Type := mkArg {
  Typ : sys.Type_;            (* Type *)
  Kind : ArgKind;
  Val : Z;
  AddrPage : Z;
  AddrOffset : Z;
  AddrPagesNum : Z;
  Data : string;              (* []byte *)
  Inner : list Arg;
  Res : option Arg;
  Option : option Arg
}.

Definition setVal (v : Z) (a : Arg) : Arg :=
  mkArg (Typ a) (Kind a) v (AddrPage a) (AddrOffset a) (AddrPagesNum a)
        (Data a) (Inner a) (Res a) (Option a).
Definition setInner (l : list Arg) (a : Arg) : Arg :=
  mkArg (Typ a) (Kind a) (Val a) (AddrPage a) (AddrOffset a) (AddrPagesNum a)
        (Data a) l (Res a) (Option a).
Definition setRes (r : option Arg) (a : Arg) : Arg :=
  mkArg (Typ a) (Kind a) (Val a) (AddrPage a) (AddrOffset a) (AddrPagesNum a)
        (Data a) (Inner a) r (Option a).
Definition setOption (o : option Arg) (a : Arg) : Arg :=
  mkArg (Typ a) (Kind a) (Val a) (AddrPage a) (AddrOffset a) (AddrPagesNum a)
        (Data a) (Inner a) (Res a) o.

Record CallMeta : Type := mkMeta {
  Name : string;
  CallName : string
}.

Record Call : Type := mkCall {
  Meta : CallMeta;
  Args : list Arg;
  Ret : option Arg
}.

(** [p.Calls] holds pointers; a call is identified by its address and read
    through the memory [loc → Call]. *)
Definition loc : Type := nat.
Record Prog : Type := mkProg { Calls : list loc }.

(** Structural induction over the whole tree of an argument node. *)
Definition Arg_tree_ind (P : Arg → Prop)
    (IH : ∀ a, Forall P (Inner a) →
               (∀ r, Res a = Some r → P r) →
               (∀ o, Option a = Some o → P o) → P a) : ∀ a, P a :=
  fix go (a : Arg) : P a :=
    match a as a0 return P a0 with
    | mkArg t k v ap ao apn d inner r o =>
      IH (mkArg t k v ap ao apn d inner r o)
         ((fix all (l : list Arg) : Forall P l :=
             match l with
             | [] => @List.Forall_nil Arg P
             | x :: l0 => @List.Forall_cons Arg P x l0 (go x) (all l0)
             end) inner)
         (match r as r0 return ∀ x, r0 = Some x → P x with
          | Some x => λ y (E : Some x = Some y),
                        eq_ind x P (go x) y (Some_inj x y E)
          | None => λ y (E : None = Some y), False_ind _ (eq_ind None (λ e, match e with None => True | Some _ => False end) I _ E)
          end)
         (match o as o0 return ∀ x, o0 = Some x → P x with
          | Some x => λ y (E : Some x = Some y),
                        eq_ind x P (go x) y (Some_inj x y E)
          | None => λ y (E : None = Some y), False_ind _ (eq_ind None (λ e, match e with None => True | Some _ => False end) I _ E)
          end)
    end.

(** Number of nodes on the longest downward path. *)
Fixpoint height (a : Arg) : nat :=
  match a with
  | mkArg _ _ _ _ _ _ _ inner r o =>
    S (max (foldr (λ x m, max (height x) m) 0%nat inner)
           (max (match r with Some x => height x | None => 0%nat end)
                (match o with Some x => height x | None => 0%nat end)))
  end.

(** ** Argument tree traversal *)

Section traversal.
Context {St : Type}.

(** A callback receives the node, the base and the slice the node sits
    in.  It may write to the state it closes over and, through the
    pointer, to the node it is given; it returns both. *)
Definition callback : Type :=
  Arg → option Arg → option (list Arg) → St → res (Arg * St).

(** [for _, arg1 := range todo]: [g] gets the current content of the
    slice and the element. *)
Fixpoint each (g : list Arg → Arg → St → res (Arg * St))
    (done todo : list Arg) (s : St) : res (list Arg * St) :=
  match todo with
  | [] => Ok (done, s)
  | arg1 :: rest =>
    '(arg1', s') ← g (done ++ arg1 :: rest) arg1 s;
    each g (done ++ [arg1']) rest s'
  end.

(** The closure [rec] of [foreachSubargImpl].  The callback can rewrite
    the children that are walked next, so the walk is bounded by [fuel]
    (one unit per level). *)
Fixpoint rec (fuel : nat) (f : callback) (arg : Arg) (base : option Arg)
    (parent : option (list Arg)) (s : St) : res (Arg * St) :=
  match fuel with
  | O => OutOfFuel
  | S fuel' =>
    '(arg, s) ← f arg base parent s;
    '(inner, s) ←
      each (λ cur arg1 s,
              let parent1 := if isStruct (Typ arg) then Some cur else parent in
              rec fuel' f arg1 base parent1 s)
           [] (Inner arg) s;
    let arg := setInner inner arg in
    '(arg, s) ←
      (if decide (Kind arg = ArgPointer) then
         match Res arg with
         | Some r =>
           '(r', s') ← rec fuel' f r (Some arg) parent s;
           Ok (setRes (Some r') arg, s')
         | None => Ok (arg, s)
         end
       else Ok (arg, s));
    if decide (Kind arg = ArgUnion) then
      match Option arg with
      | Some o =>
        '(o', s') ← rec fuel' f o base parent s;
        Ok (setOption (Some o') arg, s')
      | None => Panic NilDeref   (* rec(nil, ...) reads arg.Inner *)
      end
    else Ok (arg, s)
  end.

Definition foreachSubargImpl (fuel : nat) (arg : Arg)
    (parent : option (list Arg)) (f : callback) (s : St) : res (Arg * St) :=
  rec fuel f arg None parent s.

Definition foreachSubarg (fuel : nat) (arg : Arg) (f : callback) (s : St)
    : res (Arg * St) :=
  foreachSubargImpl fuel arg None f s.

Definition foreachArgArray (fuel : nat) (args : list Arg) (ret : option Arg)
    (f : callback) (s : St) : res (list Arg * option Arg * St) :=
  '(args', s) ←
    each (λ cur arg s, foreachSubargImpl fuel arg (Some cur) f s) [] args s;
  match ret with
  | Some r =>
    '(r', s) ← foreachSubargImpl fuel r None f s;
    Ok (args', Some r', s)
  | None => Ok (args', None, s)
  end.

Definition foreachArg (fuel : nat) (c : Call) (f : callback) (s : St)
    : res (Call * St) :=
  '(args', _, s) ← foreachArgArray fuel (Args c) None f s;
  Ok (mkCall (Meta c) args' (Ret c), s).

(** A callback that only reads the node. *)
Definition reader : Type :=
  Arg → option Arg → option (list Arg) → St → res St.
Definition read_only (g : reader) : callback :=
  λ arg base parent s, s' ← g arg base parent s; Ok (arg, s').

End traversal.

(** One call of the callback: node, base, enclosing slice. *)
Definition visit : Type := Arg * option Arg * option (list Arg).
Definition node (v : visit) : Arg := v.1.1.

(** The calls [foreachSubargImpl] makes on a tree nobody rewrites, in
    order. *)
Fixpoint subargs (arg : Arg) (base : option Arg) (parent : option (list Arg))
    : list visit :=
  match arg with
  | mkArg t k _ _ _ _ _ inner r o =>
    (arg, base, parent)
    :: flat_map (λ arg1, subargs arg1 base
                           (if isStruct t then Some inner else parent)) inner
    ++ (if decide (k = ArgPointer) then
          match r with Some x => subargs x (Some arg) parent | None => [] end
        else [])
    ++ (if decide (k = ArgUnion) then
          match o with Some x => subargs x base parent | None => [] end
        else [])
  end.

(** No union node on the walk lacks its selected option. *)
Fixpoint options_set (arg : Arg) : bool :=
  match arg with
  | mkArg _ k _ _ _ _ _ inner r o =>
    forallb options_set inner
    && (if decide (k = ArgPointer) then
          match r with Some x => options_set x | None => true end
        else true)
    && (if decide (k = ArgUnion) then
          match o with Some x => options_set x | None => false end
        else true)
  end.

Definition subargs_array (args : list Arg) (ret : option Arg) : list visit :=
  flat_map (λ arg, subargs arg None (Some args)) args
  ++ match ret with Some r => subargs r None None | None => [] end.

(** Downward edges of the tree: [Inner] children, the pointee of a pointer
    node, the selected option of a union node. *)
Inductive child : Arg → Arg → Prop :=
  | child_inner a x : x ∈ Inner a → child a x
  | child_res a x : Kind a = ArgPointer → Res a = Some x → child a x
  | child_option a x : Kind a = ArgUnion → Option a = Some x → child a x.

Inductive reachable : Arg → Arg → Prop :=
  | reach_self a : reachable a a
  | reach_step a x y : child a x → reachable x y → reachable a y.

(** ** Analysis state *)

Definition maxPages : Z := Z.shiftl 4 10.

(** [c.Args[i]] *)
Definition index (args : list Arg) (i : nat) : res Arg :=
  match args !! i with
  | Some a => Ok a
  | None => Panic IndexOutOfRange
  end.

Section analysis.
Context {ChoiceTable : Type}.
Variable K : sys.Consts.

Record state : Type := mkState {
  ct : ChoiceTable;
  files : gset string;
  resources : gmap string (list Arg);
  strings : gset string;
  pages : list bool          (* [maxPages]bool *)
}.

Definition newState (ct : ChoiceTable) : state :=
  mkState ct ∅ ∅ ∅ (replicate (Z.to_nat maxPages) false).

(** [s.resources[name]]: a missing key reads as the empty slice. *)
Definition resources_at (s : state) (name : string) : list Arg :=
  default [] (resources s !! name).

(** [s.resources[name] = append(s.resources[name], arg)] *)
Definition add_resource (name : string) (arg : Arg) (s : state) : state :=
  mkState (ct s) (files s)
          (<[name := resources_at s name ++ [arg]]> (resources s))
          (strings s) (pages s).
Definition add_string (d : string) (s : state) : state :=
  mkState (ct s) (files s) (resources s) ({[d]} ∪ strings s) (pages s).
Definition add_file (d : string) (s : state) : state :=
  mkState (ct s) ({[d]} ∪ files s) (resources s) (strings s) (pages s).
Definition set_pages_of (pg : list bool) (s : state) : state :=
  mkState (ct s) (files s) (resources s) (strings s) pg.

(** The callback of [state.analyze]. *)
Definition observe_arg : reader (St := state) := λ arg base _ s,
  match sys.Case (Typ arg) with
  | sys.ResourceType name =>
    if decide (sys.Dir_ (Typ arg) ≠ sys.DirIn)
    then Ok (add_resource name arg s)
    else Ok s
  | sys.BufferType kind =>
    if decide (sys.Dir_ (Typ arg) ≠ sys.DirOut ∧ Kind arg = ArgData
               ∧ String.length (Data arg) ≠ 0%nat)
    then match kind with
         | sys.BufferString => Ok (add_string (Data arg) s)
         | sys.BufferFilename => Ok (add_file (Data arg) s)
         | _ => Ok s
         end
    else Ok s
  | _ => Ok s
  end.

(** [for i := uintptr(0); i < n; i++ { s.pages[addr.AddrPage+i] = ok }]
    with [cnt] iterations left; the index is checked against the array
    bound by the runtime. *)
Fixpoint set_pages (pg : list bool) (page i : Z) (cnt : nat) (ok : bool)
    : res (list bool) :=
  match cnt with
  | O => Ok pg
  | S cnt' =>
    let idx := wrap (page + i) in
    if decide (idx < maxPages)
    then set_pages (<[Z.to_nat idx := ok]> pg) page (i + 1) cnt' ok
    else Panic IndexOutOfRange
  end.

(** [n := size.AddrPage; if size.AddrOffset != 0 { n++ }] *)
Definition page_count (size : Arg) : Z :=
  if decide (AddrOffset size ≠ 0) then wrap (AddrPage size + 1)
  else AddrPage size.

Definition addressable (s : state) (addr size : Arg) (ok : bool) : res state :=
  if decide (Kind addr ≠ ArgPointer ∨ Kind size ≠ ArgPageSize)
  then Panic NotPages
  else
    let n := page_count size in
    if decide (wrap (AddrPage addr + n) > maxPages)
    then Panic (OutOfBounds (AddrPage addr) n)
    else
      pg ← set_pages (pages s) (AddrPage addr) 0 (Z.to_nat n) ok;
      Ok (set_pages_of pg s).

(** The [io_submit] case: pointers of the control-block array whose
    pointee is an "iocb". *)
Definition is_iocbptr (ptr : Arg) : bool :=
  bool_decide (Kind ptr = ArgPointer)
  && match Res ptr with
     | Some r => bool_decide (sys.Name (Typ r) = "iocb")
     | None => false
     end.

Definition observe_iocbs (arr : Arg) (s : state) : state :=
  foldl (λ s ptr, if is_iocbptr ptr then add_resource "iocbptr" ptr s else s)
        s (Inner arr).

(** The [switch c.Meta.Name] of [state.analyze]. *)
Definition observe_special (c : Call) (s : state) : res state :=
  let name := Name (Meta c) in
  if decide (name = "mmap") then
    length ← index (Args c) 1;
    if decide (AddrPage length = 0 ∧ AddrOffset length = 0) then Ok s
    else
      flags ← index (Args c) 4;
      fd ← index (Args c) 3;
      if decide (Z.land (Val flags) (sys.MAP_ANONYMOUS K) = 0
                 ∧ Kind fd = ArgConst ∧ Val fd = sys.InvalidFD K)
      then Ok s
      else
        addr ← index (Args c) 0;
        addressable s addr length true
  else if decide (name = "munmap") then
    addr ← index (Args c) 0;
    size ← index (Args c) 1;
    addressable s addr size false
  else if decide (name = "mremap") then
    addr ← index (Args c) 4;
    size ← index (Args c) 2;
    addressable s addr size true
  else if decide (name = "io_submit") then
    a2 ← index (Args c) 2;
    match Res a2 with
    | Some arr => Ok (observe_iocbs arr s)
    | None => Ok s
    end
  else Ok s.

(** [func (s *state) analyze(c *Call)] *)
Definition state_analyze (fuel : nat) (s : state) (c : Call) : res state :=
  '(args, ret, s) ←
    foreachArgArray fuel (Args c) (Ret c) (read_only observe_arg) s;
  observe_special (mkCall (Meta c) args ret) s.

(** [for _, c1 := range p.Calls { if c1 == c { break }; s.analyze(c1) }] *)
Fixpoint analyze_loop (fuel : nat) (mem : loc → Call) (calls : list loc)
    (c : loc) (s : state) : res state :=
  match calls with
  | [] => Ok s
  | c1 :: rest =>
    if decide (c1 = c) then Ok s
    else s' ← state_analyze fuel s (mem c1); analyze_loop fuel mem rest c s'
  end.

(** [func analyze(ct *ChoiceTable, p *Prog, c *Call) *state] *)
Definition analyze (fuel : nat) (mem : loc → Call) (ct : ChoiceTable)
    (p : Prog) (c : loc) : res state :=
  analyze_loop fuel mem (Calls p) c (newState ct).

End analysis.

(** ** Size-field resolution *)

(** Modelled from the spec: [Arg.InnerArg] is declared in prog/prog.go,
    which is not under src/.  It follows a pointer-typed field to its
    pointee; an optional pointer that is absent yields no node (spec 4.3 and
    the comments at its two call sites), an absent pointer that is not
    optional is a fatal contract violation (spec 7). *)
Fixpoint InnerArg (a : Arg) : res (option Arg) :=
  match a with
  | mkArg t _ _ _ _ _ _ _ r _ =>
    match sys.Case t with
    | sys.PtrType =>
      match r with
      | Some x => InnerArg x
      | None => if sys.Optional t then Ok None else Panic NilDeref
      end
    | _ => Ok (Some a)
    end
  end.

(** Writing through the pointer [InnerArg] returns: [g] rewrites the node
    at the end of the pointer chain, inside the field that owns it. *)
Fixpoint updInner (g : Arg → Arg) (a : Arg) : Arg :=
  match a with
  | mkArg t k v ap ao apn d inner r o =>
    match sys.Case t with
    | sys.PtrType =>
      match r with
      | Some x => mkArg t k v ap ao apn d inner (Some (updInner g x)) o
      | None => a
      end
    | _ => g a
    end
  end.

(** Modelled from the spec: the constructors [constArg] and [pageSizeArg]
    of prog/prog.go (not under src/): a constant-scalar node holding a
    numeric value, and a page-size node holding a page count and a byte
    offset (spec, data model); every other field is zero. *)
Definition constArg (t : sys.Type_) (v : Z) : Arg :=
  mkArg t ArgConst v 0 0 0 "" [] None None.
Definition pageSizeArg (t : sys.Type_) (npages offset : Z) : Arg :=
  mkArg t ArgPageSize 0 npages offset 0 "" [] None None.

(** [lenType.ByteSize] and [typ.Buf] of a [*sys.LenType]. *)
Definition ByteSize (t : sys.Type_) : Z :=
  match sys.Case t with sys.LenType _ bs => bs | _ => 0 end.

Section sizes.
(** [Arg.Size()] is declared in prog/prog.go, which is not under src/: the
    resolution is stated for any size function. *)
Variable Size : Arg → Z.

Definition generateSize (arg : option Arg) (lenType : sys.Type_) : Arg :=
  match arg with
  | None => constArg lenType 0
  | Some a =>
    match sys.Case (Typ a) with
    | sys.VmaType => pageSizeArg lenType (AddrPagesNum a) 0
    | sys.ArrayType =>
      if decide (ByteSize lenType ≠ 0)
      then constArg lenType (Size a / ByteSize lenType)
      else constArg lenType (Z.of_nat (length (Inner a)))
    | _ => constArg lenType (Size a)
    end
  end.

(** First loop of [assignSizes]: the running [parentSize] and [argsMap];
    a map entry points at the field, here by its position. *)
Fixpoint scan (args : list Arg) (i : nat) (acc : Z * gmap string nat)
    : Z * gmap string nat :=
  match args with
  | [] => acc
  | arg :: rest =>
    let parentSize := wrap (acc.1 + Size arg) in
    scan rest (S i)
         (parentSize,
          if sys.IsPad (Typ arg) then acc.2
          else <[sys.Name (Typ arg) := i]> acc.2)
  end.

(** Body of the second loop for the field at position [i]. *)
Definition fill (parentSize : Z) (argsMap : gmap string nat)
    (cur : list Arg) (i : nat) : res (list Arg) :=
  match cur !! i with
  | None => Ok cur
  | Some field =>
    inner ← InnerArg field;
    match inner with
    | None => Ok cur  (* Pointer to optional len field *)
    | Some arg =>
      match sys.Case (Typ arg) with
      | sys.LenType Buf _ =>
        if decide (Buf = "parent")
        then Ok (<[i := updInner (setVal parentSize) field]> cur)
        else
          match argsMap !! Buf with
          | None => Panic (LenRefMissing (sys.Name (Typ arg)) Buf)
          | Some j =>
            match cur !! j with
            | None => Ok cur
            | Some buf =>
              target ← InnerArg buf;
              let new := generateSize target (Typ arg) in
              Ok (<[i := updInner (λ _, new) field]> cur)
            end
          end
      | _ => Ok cur
      end
    end
  end.

Definition assignSizes (args : list Arg) : res (list Arg) :=
  let '(parentSize, argsMap) := scan args 0 (0, ∅) in
  foldM (fill parentSize argsMap) (seq 0 (length args)) args.

(** The callback of [assignSizesCall]. *)
Definition resize_struct : callback (St := unit) := λ arg base parent s,
  if isStruct (Typ arg)
  then inner ← assignSizes (Inner arg); Ok (setInner inner arg, s)
  else Ok (arg, s).

Definition assignSizesCall (fuel : nat) (c : Call) : res Call :=
  args ← assignSizes (Args c);
  '(c', _) ← foreachArg fuel (mkCall (Meta c) args (Ret c)) resize_struct ();
  Ok c'.

End sizes.

(** ** Call sanitizer *)

Section sanitize.
Variable K : sys.Consts.

(** [c.Args[i].Val = v], for an [i] already read. *)
Definition store_val (c : Call) (i : nat) (arg : Arg) (v : Z) : Call :=
  mkCall (Meta c) (<[i := setVal v arg]> (Args c)) (Ret c).

Definition sanitizeCall (c : Call) : res Call :=
  let name := CallName (Meta c) in
  if decide (name = "mmap") then
    addr ← index (Args c) 0;
    if decide (Kind addr ≠ ArgPointer)
    then Panic (BadArgKind "mmap address is not ArgPointer")
    else
      length ← index (Args c) 1;
      if decide (Kind length ≠ ArgPageSize)
      then Panic (BadArgKind "mmap length is not ArgPageSize")
      else
        flags ← index (Args c) 3;
        if decide (Kind flags ≠ ArgConst)
        then Panic (BadArgKind "mmap flag arg is not const")
        else Ok (store_val c 3 flags (Z.lor (Val flags) (sys.MAP_FIXED K)))
  else if decide (name = "mremap") then
    flags ← index (Args c) 3;
    if decide (Kind flags ≠ ArgConst)
    then Panic (BadArgKind "mremap flag arg is not const")
    else if decide (Z.land (Val flags) (sys.MREMAP_MAYMOVE K) ≠ 0)
    then Ok (store_val c 3 flags (Z.lor (Val flags) (sys.MREMAP_FIXED K)))
    else Ok c
  else if decide (name = "mknod" ∨ name = "mknodat") then
    mode1 ← index (Args c) 1;
    '(pos, mode) ←
      (if decide (name = "mknodat")
       then mode2 ← index (Args c) 2; Ok (2%nat, mode2)
       else Ok (1%nat, mode1));
    if decide (Kind mode ≠ ArgConst)
    then Panic (BadArgKind "mknod mode is not const")
    else if decide (Val mode ≠ sys.S_IFREG K ∧ Val mode ≠ sys.S_IFIFO K
                    ∧ Val mode ≠ sys.S_IFSOCK K)
    then Ok (store_val c pos mode (sys.S_IFIFO K))
    else Ok c
  else if decide (name = "syslog") then
    cmd ← index (Args c) 0;
    if decide (Val cmd = sys.SYSLOG_ACTION_CONSOLE_OFF K
               ∨ Val cmd = sys.SYSLOG_ACTION_CONSOLE_ON K)
    then Ok (store_val c 0 cmd (sys.SYSLOG_ACTION_SIZE_UNREAD K))
    else Ok c
  else if decide (name = "ioctl") then
    cmd ← index (Args c) 1;
    if decide (wrap32 (Val cmd) = sys.FIFREEZE K)
    then Ok (store_val c 1 cmd (sys.FITHAW K))
    else Ok c
  else if decide (name = "ptrace") then
    req ← index (Args c) 0;
    if decide (Val req = sys.PTRACE_TRACEME K)
    then Ok (store_val c 0 req uintptr_max)
    else Ok c
  else if decide (name = "exit" ∨ name = "exit_group") then
    code ← index (Args c) 0;
    if decide (Val code `mod` 128 = 67 ∨ Val code `mod` 128 = 68)
    then Ok (store_val c 0 code 1)
    else Ok c
  else Ok c.

End sanitize.

(** Linux values of the constants, for concrete runs. *)
Definition linux : sys.Consts :=
  sys.mkConsts 0x20 0x10 uintptr_max 1 2 0x8000 0x1000 0xC000 6 7 9
               0xC0045877 0xC0045878 0.
Definition S_IFBLK : Z := 0x6000.

(** ** Reading the traversal *)

(** The call a read-only callback receives for one visit. *)
Definition visit_with {St : Type} (g : reader (St := St)) (s : St) (v : visit)
    : res St :=
  g v.1.1 v.1.2 v.2 s.

(** A callback that only writes down what it is called with. *)
Definition record : reader (St := list visit) :=
  λ arg base parent vs, Ok (vs ++ [(arg, base, parent)]).

(** ** Sample calls *)

Definition mkty (name : string) (dir : sys.Dir) (case : sys.TypeCase)
    : sys.Type_ :=
  sys.mkType name dir false false case.

Definition leaf (t : sys.Type_) (k : ArgKind) (v : Z) : Arg :=
  mkArg t k v 0 0 0 "" [] None None.
Definition data (t : sys.Type_) (d : string) : Arg :=
  mkArg t ArgData 0 0 0 0 d [] None None.
Definition pointer (t : sys.Type_) (page : Z) (pointee : option Arg) : Arg :=
  mkArg t ArgPointer 0 page 0 0 "" [] pointee None.
Definition group (t : sys.Type_) (inner : list Arg) : Arg :=
  mkArg t ArgGroup 0 0 0 0 "" inner None None.

Definition int_t (name : string) : sys.Type_ :=
  mkty name sys.DirIn sys.OtherType.
Definition ptr_t (name : string) : sys.Type_ :=
  mkty name sys.DirIn sys.PtrType.

(** [open(file, flags, mode) fd] *)
Definition open_name : Arg :=
  data (mkty "filename" sys.DirIn (sys.BufferType sys.BufferFilename)) "./file0".
Definition open_file : Arg := pointer (ptr_t "file") 1 (Some open_name).
Definition open_flags : Arg := leaf (int_t "flags") ArgConst 2.
Definition open_mode : Arg := leaf (int_t "mode") ArgConst 0.
Definition open_ret : Arg :=
  leaf (mkty "fd" sys.DirOut (sys.ResourceType "fd")) ArgReturn 0.
Definition call_open : Call :=
  mkCall (mkMeta "open" "open") [open_file; open_flags; open_mode]
         (Some open_ret).

(** ** Vocabulary of the statements about the analysis *)

(** The calls of a program that precede the call at [c]. *)
Fixpoint before (c : loc) (calls : list loc) : list loc :=
  match calls with
  | [] => []
  | c1 :: rest => if decide (c1 = c) then [] else c1 :: before c rest
  end.

(** The nodes of a call, arguments first, then the return node, each with
    what hangs below it. *)
Definition call_nodes (c : Call) : list Arg :=
  node <$> subargs_array (Args c) (Ret c).

(** A resource-typed node of kind [k] that is an output or an in-out. *)
Definition is_producer (k : string) (a : Arg) : bool :=
  match sys.Case (Typ a) with
  | sys.ResourceType name =>
    bool_decide (name = k ∧ sys.Dir_ (Typ a) ≠ sys.DirIn)
  | _ => false
  end.

Definition produced (k : string) (c : Call) : list Arg :=
  List.filter (is_producer k) (call_nodes c).

(** The resource list the specification describes for kind [k]: the
    producers of the calls before [c], in program order. *)
Definition spec_resources (mem : loc → Call) (p : Prog) (c : loc) (k : string)
    : list Arg :=
  flat_map (λ c1, produced k (mem c1)) (before c (Calls p)).

(** The control-block pointers an [io_submit] call registers. *)
Definition submitted (c : Call) : list Arg :=
  if decide (Name (Meta c) = "io_submit") then
    match Args c !! 2%nat with
    | Some a2 =>
      match Res a2 with
      | Some arr => List.filter is_iocbptr (Inner arr)
      | None => []
      end
    | None => []
    end
  else [].

(** A buffer node of semantic kind [bk] that carries the non-empty data [x]
    as an input or in-out. *)
Definition input_buffer (bk : sys.BufferKind) (a : Arg) (x : string) : Prop :=
  sys.Case (Typ a) = sys.BufferType bk
  ∧ sys.Dir_ (Typ a) ≠ sys.DirOut
  ∧ Kind a = ArgData
  ∧ Data a ≠ ""
  ∧ Data a = x.

(** What a state has gained: [rs k] appended to the resources of kind [k],
    the strings [P] and the files [Q]. *)
Definition gained {ChoiceTable : Type} (s s' : @state ChoiceTable) (rs : string → list Arg)
    (P Q : string → Prop) : Prop :=
  (∀ k, resources_at s' k = resources_at s k ++ rs k)
  ∧ (∀ x, x ∈ strings s' ↔ x ∈ strings s ∨ P x)
  ∧ (∀ x, x ∈ files s' ↔ x ∈ files s ∨ Q x).


(** The resource list the code builds for kind [k]: per call before [c],
    its producers, then the control blocks it submits when [k] is the
    kind "iocbptr". *)
Definition code_resources (mem : loc → Call) (p : Prog) (c : loc) (k : string)
    : list Arg :=
  flat_map (λ c1, produced k (mem c1)
                  ++ (if decide (k = "iocbptr") then submitted (mem c1)
                      else []))
           (before c (Calls p)).

(** [io_submit(ctx, nr, iocbpp)] with one control block, and [exit(0)]. *)
Definition iocb : Arg :=
  group (mkty "iocb" sys.DirIn sys.StructType)
        [leaf (int_t "data") ArgConst 0].
Definition iocb_ptr : Arg := pointer (ptr_t "ptr") 2 (Some iocb).
Definition iocb_array : Arg :=
  group (mkty "iocbpp" sys.DirIn sys.ArrayType) [iocb_ptr].
Definition call_io_submit : Call :=
  mkCall (mkMeta "io_submit" "io_submit")
         [leaf (mkty "ctx" sys.DirIn (sys.ResourceType "io_ctx")) ArgResult 0;
          leaf (mkty "nr" sys.DirIn (sys.LenType "iocbpp" 0)) ArgConst 1;
          pointer (ptr_t "iocbpp") 2 (Some iocb_array)]
         None.
Definition call_exit : Call :=
  mkCall (mkMeta "exit" "exit") [leaf (int_t "code") ArgConst 0] None.

(** A program [open; io_submit; exit] laid out at addresses 0, 1, 2. *)
Definition sample_mem : loc → Call :=
  λ l, match l with
       | O => call_open
       | S O => call_io_submit
       | _ => call_exit
       end.
Definition sample_prog : Prog := mkProg [0; 1; 2]%nat.

(** The state of the analysis of the sample program up to its [exit]. *)
Definition sample_state : @state unit :=
  match analyze linux 6 sample_mem () sample_prog 2%nat with
  | Ok s => s
  | _ => newState ()
  end.

(** ** Vocabulary of the statements about pages *)

(** Every node of the call can be walked with [fuel] units. *)
Definition walkable (fuel : nat) (c : Call) : Prop :=
  (∀ a, a ∈ Args c → (height a ≤ fuel)%nat ∧ options_set a = true)
  ∧ (∀ r, Ret c = Some r → (height r ≤ fuel)%nat ∧ options_set r = true).

(** The pages a size argument spans: its whole pages, and one more when it
    has a byte offset into the last page. *)
Definition page_span (size : Arg) : Z :=
  AddrPage size + (if decide (AddrOffset size ≠ 0) then 1 else 0).

(** [addr] and [size] are a pointer node and a page-size node holding
    [uintptr] values, the page count below the largest one. *)
Definition page_args (addr size : Arg) : Prop :=
  Kind addr = ArgPointer ∧ Kind size = ArgPageSize
  ∧ 0 ≤ AddrPage addr < 2 ^ uintptr_bits
  ∧ 0 ≤ AddrPage size < 2 ^ uintptr_bits - 1.

(** The test for a mapping that is not anonymous and has the invalid
    descriptor, on a flags node and a descriptor node. *)
Definition invalid_backing (K : sys.Consts) (flags fd : Arg) : Prop :=
  Z.land (Val flags) (sys.MAP_ANONYMOUS K) = 0
  ∧ Kind fd = ArgConst ∧ Val fd = sys.InvalidFD K.

Definition unmapping_call (c : Call) (addr size : Arg) : Prop :=
  Name (Meta c) = "munmap"
  ∧ Args c !! 0%nat = Some addr ∧ Args c !! 1%nat = Some size.

(** [s.pages[i]] reads [b]. *)
Definition page_is {ChoiceTable : Type} (s : @state ChoiceTable) (i : Z)
    (b : bool) : Prop :=
  pages s !! Z.to_nat i = Some b.

(** [mmap(addr, len, prot, flags, fd, offset)] and [munmap(addr, len)] on
    [npages] pages from page [page]. *)
Definition vma (page : Z) : Arg :=
  pointer (mkty "addr" sys.DirIn sys.VmaType) page None.
Definition pages_len (npages offset : Z) : Arg :=
  pageSizeArg (mkty "len" sys.DirIn (sys.LenType "addr" 0)) npages offset.
Definition call_mmap (page npages a3 a4 : Z) : Call :=
  mkCall (mkMeta "mmap" "mmap")
         [vma page; pages_len npages 0; leaf (int_t "prot") ArgConst 3;
          leaf (int_t "flags") ArgConst a3; leaf (int_t "fd") ArgConst a4;
          leaf (int_t "offset") ArgConst 0]
         None.
Definition call_munmap (page npages : Z) : Call :=
  mkCall (mkMeta "munmap" "munmap") [vma page; pages_len npages 0] None.

(** [mknod(file, mode, dev)], [mknodat(dirfd, file, mode, dev)] and
    [exit(code)]. *)
Definition mode_arg (mode : Z) : Arg := leaf (int_t "mode") ArgConst mode.
Definition code_arg (code : Z) : Arg := leaf (int_t "code") ArgConst code.
Definition call_mknod (mode dev : Z) : Call :=
  mkCall (mkMeta "mknod" "mknod")
         [open_file; mode_arg mode; leaf (int_t "dev") ArgConst dev] None.
Definition call_mknodat (mode dev : Z) : Call :=
  mkCall (mkMeta "mknodat" "mknodat")
         [leaf (int_t "dirfd") ArgConst 3; open_file; mode_arg mode;
          leaf (int_t "dev") ArgConst dev] None.
Definition call_exit_with (code : Z) : Call :=
  mkCall (mkMeta "exit" "exit") [code_arg code] None.

(** ** Vocabulary of the statements about size resolution *)

(** Sum of [Size()] over a field sequence. *)
Definition sum_sizes (Size : Arg → Z) (args : list Arg) : Z :=
  foldr (λ a z, Size a + z) 0 args.

(** The field sequence while the second loop runs: the fields before
    position [i] are final, those from [i] on are as they were. *)
Definition mix (i : nat) (final orig : list Arg) : list Arg :=
  take i final ++ drop i orig.

(** [a'] is the field [a] after the node behind it was rewritten by [g];
    [g] keeps the type and touches length-typed nodes only. *)
Definition resized (a a' : Arg) : Prop :=
  ∃ g, a' = updInner g a
       ∧ ∀ x, InnerArg a = Ok (Some x) →
              Typ (g x) = Typ x ∧ (isLen (Typ x) = false → g x = x).

(** The field that holds a length node. *)
Definition len_field (args : list Arg) (i : nat) (field x : Arg)
    (Buf : string) (bs : Z) : Prop :=
  args !! i = Some field
  ∧ InnerArg field = Ok (Some x)
  ∧ sys.Case (Typ x) = sys.LenType Buf bs.

(** Position [j] holds the field the name [n] refers to: the last field of
    that name that is not padding. *)
Definition named_field (args : list Arg) (n : string) (j : nat) (buf : Arg)
    : Prop :=
  args !! j = Some buf
  ∧ sys.IsPad (Typ buf) = false ∧ sys.Name (Typ buf) = n
  ∧ ∀ j' b, (j < j')%nat → args !! j' = Some b →
            sys.IsPad (Typ b) = false → sys.Name (Typ b) ≠ n.

(** A size function for the examples: 8 bytes for pointers and memory
    regions, the data length for buffers, the sum of the members for
    structs and arrays, the selected option for unions, 4 bytes for every
    other node. *)
Fixpoint sample_Size (a : Arg) : Z :=
  match a with
  | mkArg t _ _ _ _ _ d inner _ o =>
    match sys.Case t with
    | sys.PtrType | sys.VmaType => 8
    | sys.BufferType _ => Z.of_nat (String.length d)
    | sys.StructType | sys.ArrayType =>
      foldr (λ x z, sample_Size x + z) 0 inner
    | sys.UnionType => match o with Some x => sample_Size x | None => 0 end
    | _ => 4
    end
  end.

(** Field sequences: a length with a byte stride next to an array of three
    4-byte elements; two data fields of 4 and 8 bytes and a length of the
    parent; a length of a field that is not there. *)
Definition arr3 : Arg :=
  group (mkty "arr" sys.DirIn sys.ArrayType)
        [leaf (int_t "e") ArgConst 7; leaf (int_t "e") ArgConst 8;
         leaf (int_t "e") ArgConst 9].
Definition len_of (buf : string) (stride : Z) : Arg :=
  leaf (mkty "n" sys.DirIn (sys.LenType buf stride)) ArgConst 0.
Definition fields_stride (stride : Z) : list Arg := [len_of "arr" stride; arr3].
Definition fields_parent : list Arg :=
  [leaf (int_t "a") ArgConst 1; pointer (ptr_t "b") 0 (Some open_name);
   len_of "parent" 0].
Definition fields_missing : list Arg :=
  [leaf (int_t "a") ArgConst 1; len_of "b" 0].

(** A sequence with a strided length, the array it names, a length of the
    parent, and a pointer to a length that names the field "n"; and what
    the resolution makes of it. *)
Definition fields_mixed : list Arg :=
  [len_of "arr" 4; arr3; len_of "parent" 0;
   pointer (ptr_t "p") 0 (Some (len_of "n" 0))].
Definition fields_mixed_resolved : list Arg :=
  match assignSizes sample_Size fields_mixed with
  | Ok fields => fields
  | _ => []
  end.

(** A call whose argument points at a struct that holds a length of the
    struct, and what the resolution of the call makes of it. *)
Definition struct_of (fields : list Arg) : Arg :=
  group (mkty "s" sys.DirIn sys.StructType) fields.
Definition call_struct : Call :=
  mkCall (mkMeta "ioctl$sample" "ioctl")
         [leaf (int_t "fd") ArgConst 3; leaf (int_t "cmd") ArgConst 1;
          pointer (ptr_t "arg") 0
                  (Some (struct_of [len_of "parent" 0;
                                    leaf (int_t "a") ArgConst 5]))]
         (Some (struct_of [len_of "parent" 0])).
Definition call_struct_resolved : Call :=
  mkCall (mkMeta "ioctl$sample" "ioctl")
         [leaf (int_t "fd") ArgConst 3; leaf (int_t "cmd") ArgConst 1;
          pointer (ptr_t "arg") 0
                  (Some (struct_of [setVal 8 (len_of "parent" 0);
                                    leaf (int_t "a") ArgConst 5]))]
         (Some (struct_of [len_of "parent" 0])).


(** ** Vocabulary of the further statements *)

(** An [mremap] whose new address is [addr] and whose new size is [size]. *)
Definition remapping_call (c : Call) (addr size : Arg) : Prop :=
  Name (Meta c) = "mremap"
  ∧ Args c !! 4%nat = Some addr ∧ Args c !! 2%nat = Some size.

(** [mremap(addr, len, newlen, flags, newaddr)] from [npages] pages at
    [page] to [newn] pages at [newpage]. *)
Definition call_mremap (page npages newn newpage : Z) : Call :=
  mkCall (mkMeta "mremap" "mremap")
         [vma page; pages_len npages 0; pages_len newn 0;
          leaf (int_t "flags") ArgConst 3; vma newpage]
         None.

(** A read-only callback that never fails. *)
Definition total_reader {St : Type} (g : reader (St := St)) : Prop :=
  ∀ a b p s, ∃ s', g a b p s = Ok s'.

(** [y] lies below [a] without crossing a pointer: only [Inner] children
    and selected options are followed. *)
Inductive inside : Arg → Arg → Prop :=
  | inside_self a : inside a a
  | inside_inner a x y : x ∈ Inner a → inside x y → inside a y
  | inside_option a x y :
      Kind a = ArgUnion → Option a = Some x → inside x y → inside a y.

(** A memory region of three pages, and a length that names it. *)
Definition region : Arg :=
  mkArg (mkty "addr" sys.DirIn sys.VmaType) ArgPointer 0 5 0 3 "" [] None None.
Definition fields_region : list Arg := [len_of "addr" 0; region].

(** [a'] has the node of [a] behind the same pointers, with the same type:
    what the second loop of [assignSizes] keeps of a field. *)
Definition keeps_node (a a' : Arg) : Prop :=
  match InnerArg a with
  | Ok (Some x) => ∃ x', InnerArg a' = Ok (Some x') ∧ Typ x' = Typ x
  | r => InnerArg a' = r
  end.

(** ** Vocabulary of the statements about the sanitizer *)

(** The argument a rule of [sanitizeCall] may write to, and whether the
    rule first checks that it is a constant. *)
Definition rule_arg (name : string) : option (nat * bool) :=
  if decide (name = "mmap") then Some (3%nat, true)
  else if decide (name = "mremap") then Some (3%nat, true)
  else if decide (name = "mknod") then Some (1%nat, true)
  else if decide (name = "mknodat") then Some (2%nat, true)
  else if decide (name = "syslog") then Some (0%nat, false)
  else if decide (name = "ioctl") then Some (1%nat, false)
  else if decide (name = "ptrace") then Some (0%nat, false)
  else if decide (name = "exit" ∨ name = "exit_group")
       then Some (0%nat, false)
  else None.

(** [a'] is [a] up to its [Val]. *)
Definition same_but_Val (a a' : Arg) : Prop :=
  Typ a' = Typ a ∧ Kind a' = Kind a
  ∧ AddrPage a' = AddrPage a ∧ AddrOffset a' = AddrOffset a
  ∧ AddrPagesNum a' = AddrPagesNum a ∧ Data a' = Data a
  ∧ Inner a' = Inner a ∧ Res a' = Res a ∧ Option a' = Option a.

(** [mknod] whose mode, and [exit] whose code, is a node of kind
    [ArgResult] (a reference to the result of an earlier call). *)
Definition call_mknod_result : Call :=
  mkCall (mkMeta "mknod" "mknod")
         [open_file; leaf (int_t "mode") ArgResult S_IFBLK;
          leaf (int_t "dev") ArgConst 7] None.
Definition call_exit_result (code : Z) : Call :=
  mkCall (mkMeta "exit" "exit") [leaf (int_t "code") ArgResult code] None.

(** ** Vocabulary of the statements about the filter of [mmap] *)

(** An [mmap] of [size] at [addr] that the filter of [state.analyze] lets
    through: the filter reads argument 4 as the flags and argument 3 as the
    descriptor, and skips the call when those flags have no
    [MAP_ANONYMOUS] bit and that descriptor is the constant [InvalidFD]. *)
Definition passing_mmap (K : sys.Consts) (c : Call) (addr size : Arg) : Prop :=
  Name (Meta c) = "mmap"
  ∧ Args c !! 0%nat = Some addr ∧ Args c !! 1%nat = Some size
  ∧ ∃ a3 a4,
      Args c !! 3%nat = Some a3 ∧ Args c !! 4%nat = Some a4
      ∧ ¬ invalid_backing K a4 a3.

(** [y] lies below [a] on a path that keeps the sibling scope: it leaves no
    struct-typed node through [Inner]; pointees and selected options are
    followed from any node. *)
Inductive same_scope : Arg → Arg → Prop :=
  | same_scope_self a : same_scope a a
  | same_scope_inner a x y :
      isStruct (Typ a) = false → x ∈ Inner a → same_scope x y →
      same_scope a y
  | same_scope_res a x y :
      Kind a = ArgPointer → Res a = Some x → same_scope x y → same_scope a y
  | same_scope_option a x y :
      Kind a = ArgUnion → Option a = Some x → same_scope x y → same_scope a y.

(** ** Vocabulary of the statements about the resolution of a call *)

(** The callback [f] with a log: it also writes down the node it is called
    on, as the node is at the call. *)
Definition logged {St : Type} (f : callback (St := St))
    : callback (St := St * list Arg) :=
  λ arg base parent sl,
    '(arg', s') ← f arg base parent sl.1;
    Ok (arg', (s', sl.2 ++ [arg])).

(** What the resolution of a call leaves of a node [x] its callback was
    called on: [x'] has the type and the kind of [x], and its members are,
    one for one and with their types and kinds, the fields [assignSizes]
    returned for the members of [x] when [x] is struct-typed, and the
    members of [x] otherwise. *)
Definition resolved_at (Size : Arg → Z) (x x' : Arg) : Prop :=
  Typ x' = Typ x ∧ Kind x' = Kind x
  ∧ ∃ fields,
      (if isStruct (Typ x) then assignSizes Size (Inner x) = Ok fields
       else fields = Inner x)
      ∧ Forall2 (λ y y', Typ y' = Typ y ∧ Kind y' = Kind y)
                fields (Inner x').

(** * Properties *)

(** ** Monadic plumbing *)

Lemma bind_Ok {A B} (m : res A) (k : A → res B) (b : B) :
  (m ≫= k) = Ok b → ∃ a, m = Ok a ∧ k a = Ok b.
Proof. destruct m; simpl; intros; eauto; discriminate. Qed.

Lemma foldM_app {A B} (f : B → A → res B) (l1 l2 : list A) (b : B) :
  foldM f (l1 ++ l2) b = (foldM f l1 b ≫= foldM f l2).
Proof.
  revert b. induction l1 as [|x l1 IH]; intros b; simpl; [done|].
  destruct (f b x); simpl; auto.
Qed.

Lemma index_Some (args : list Arg) (i : nat) (a : Arg) :
  args !! i = Some a → index args i = Ok a.
Proof. unfold index. by intros ->. Qed.

Lemma index_Ok (args : list Arg) (i : nat) (a : Arg) :
  index args i = Ok a → args !! i = Some a.
Proof. unfold index. destruct (args !! i); naive_solver. Qed.

Lemma setVal_same (a : Arg) : setVal (Val a) a = a.
Proof. by destruct a. Qed.

Lemma insert_as_alter (f : Arg → Arg) (l : list Arg) (i : nat) (a : Arg) :
  l !! i = Some a → <[i := f a]> l = alter f i l.
Proof.
  revert i. induction l as [|x l IH]; intros [|i] H; simpl in *; try done.
  - by inversion H.
  - f_equal. by apply IH.
Qed.

Lemma alter_setVal_id (l : list Arg) (i : nat) (a : Arg) :
  l !! i = Some a → alter (setVal (Val a)) i l = l.
Proof.
  intros H. rewrite <- (insert_as_alter _ _ _ _ H), setVal_same.
  by apply list_insert_id.
Qed.

(** ** Call sanitizer *)

Ltac sanitize_case :=
  match goal with
  | H : context [match ?l !! ?i with _ => _ end] |- _ =>
    destruct (l !! i) eqn:?; simpl in H
  | H : context [decide ?P] |- _ => destruct (decide P); simpl in H
  end.

(** ** Argument tree traversal *)

Lemma setInner_same (a : Arg) : setInner (Inner a) a = a.
Proof. by destruct a. Qed.
Lemma setRes_same (a : Arg) : setRes (Res a) a = a.
Proof. by destruct a. Qed.
Lemma setOption_same (a : Arg) : setOption (Option a) a = a.
Proof. by destruct a. Qed.

Section read_only_walk.
Context {St : Type}.
Variable g : reader (St := St).

(** A loop whose body leaves each element alone leaves the slice alone,
    and its effect is the effect of the bodies in order. *)
Lemma each_unchanged (G : list Arg → Arg → St → res (Arg * St))
    (vis : list Arg → Arg → list visit) (todo : list Arg) :
  ∀ done s l s',
    (∀ cur a s a' s', a ∈ todo → G cur a s = Ok (a', s') →
       a' = a ∧ options_set a = true
       ∧ foldM (visit_with g) (vis cur a) s = Ok s') →
    each G done todo s = Ok (l, s') →
    l = done ++ todo ∧ forallb options_set todo = true
    ∧ foldM (visit_with g) (flat_map (vis (done ++ todo)) todo) s = Ok s'.
Proof.
  induction todo as [|a rest IH]; intros done s l s' HG H; simpl in H.
  - inversion H; subst. by rewrite app_nil_r.
  - apply bind_Ok in H as [[a' s1] [Ha H]].
    apply HG in Ha as (-> & Hopt & Hfold); [|by left].
    apply IH in H as (-> & Hall & Hrest).
    + rewrite <- app_assoc in *. simpl in *.
      split; [done|]. split; [by rewrite Hopt, Hall|].
      by rewrite foldM_app, Hfold.
    + intros cur x s2 x' s2' Hx. apply HG. by right.
Qed.

(** A walk with a read-only callback that returns has changed nothing, met
    no union without option, and made the calls [subargs] lists. *)
Lemma rec_read_only (fuel : nat) :
  ∀ arg base parent s arg' s',
    rec fuel (read_only g) arg base parent s = Ok (arg', s') →
    arg' = arg ∧ options_set arg = true
    ∧ foldM (visit_with g) (subargs arg base parent) s = Ok s'.
Proof.
  induction fuel as [|fuel IH]; intros arg base parent s arg' s' H;
    [discriminate|].
  simpl in H.
  apply bind_Ok in H as [[arg1 s1] [Hf H]].
  unfold read_only in Hf. apply bind_Ok in Hf as [s1' [Hg Hf]].
  inversion Hf; subst arg1 s1'; clear Hf.
  apply bind_Ok in H as [[inner s2] [Hin H]].
  apply (each_unchanged _
           (λ cur a1, subargs a1 base
                        (if isStruct (Typ arg) then Some cur else parent)))
    in Hin as (-> & Hall & Hfold); [|intros; by apply IH].
  simpl in Hfold, H. rewrite setInner_same in H.
  apply bind_Ok in H as [[arg2 s3] [Hptr H]].
  assert (arg2 = arg
          ∧ (if decide (Kind arg = ArgPointer)
             then match Res arg with
                  | Some x => options_set x | None => true end
             else true) = true
          ∧ foldM (visit_with g)
              (if decide (Kind arg = ArgPointer)
               then match Res arg with
                    | Some x => subargs x (Some arg) parent | None => [] end
               else []) s2 = Ok s3) as (-> & Hpo & Hpf).
  { destruct (decide (Kind arg = ArgPointer)); [|by inversion Hptr].
    destruct (Res arg) as [r|] eqn:Hr; [|by inversion Hptr].
    apply bind_Ok in Hptr as [[r' s'0] [Hrec Hptr]].
    apply IH in Hrec as (-> & ? & ?). inversion Hptr; subst.
    by rewrite <- Hr, setRes_same. }
  assert (arg' = arg
          ∧ (if decide (Kind arg = ArgUnion)
             then match Option arg with
                  | Some x => options_set x | None => false end
             else true) = true
          ∧ foldM (visit_with g)
              (if decide (Kind arg = ArgUnion)
               then match Option arg with
                    | Some x => subargs x base parent | None => [] end
               else []) s3 = Ok s') as (-> & Huo & Huf).
  { destruct (decide (Kind arg = ArgUnion)); [|by inversion H].
    destruct (Option arg) as [o|] eqn:Ho; [|done].
    apply bind_Ok in H as [[o' s'0] [Hrec H]].
    apply IH in Hrec as (-> & ? & ?). inversion H; subst.
    by rewrite <- Ho, setOption_same. }
  split; [done|]. destruct arg as [t k v ap ao apn d inner r o].
  simpl in *. split.
  - by rewrite Hall, Hpo, Huo.
  - change (visit_with g s (?a, base, parent)) with (g a base parent s).
    rewrite Hg. simpl.
    rewrite foldM_app, Hfold. simpl. by rewrite foldM_app, Hpf.
Qed.

End read_only_walk.

Lemma height_le_foldr (l : list Arg) (x : Arg) :
  x ∈ l → (height x ≤ foldr (λ y m, Nat.max (height y) m) 0 l)%nat.
Proof.
  induction l as [|y l IH]; intros Hx; [by apply elem_of_nil in Hx|].
  apply elem_of_cons in Hx as [->|Hx]; simpl; [lia|].
  specialize (IH Hx). lia.
Qed.

Section read_only_fuel.
Context {St : Type}.
Variable g : reader (St := St).

Lemma each_run (G : list Arg → Arg → St → res (Arg * St))
    (vis : list Arg → Arg → list visit) (todo : list Arg) :
  ∀ done s,
    (∀ cur a s, a ∈ todo →
       G cur a s = (s' ← foldM (visit_with g) (vis cur a) s; Ok (a, s'))) →
    each G done todo s
    = (s' ← foldM (visit_with g) (flat_map (vis (done ++ todo)) todo) s;
       Ok (done ++ todo, s')).
Proof.
  induction todo as [|a rest IH]; intros done s HG; simpl.
  - by rewrite app_nil_r.
  - rewrite HG by (by left). rewrite foldM_app.
    destruct (foldM (visit_with g) (vis (done ++ a :: rest) a) s) as [s1| |];
      simpl; try done.
    rewrite IH by (intros; apply HG; by right).
    by rewrite <- app_assoc.
Qed.

(** With one unit of fuel per level of the tree, a read-only walk of a
    tree whose unions have their option runs the callback over
    [subargs] and returns the tree. *)
Lemma rec_enough_fuel (fuel : nat) :
  ∀ arg base parent s,
    (height arg ≤ fuel)%nat → options_set arg = true →
    rec fuel (read_only g) arg base parent s
    = (s' ← foldM (visit_with g) (subargs arg base parent) s; Ok (arg, s')).
Proof.
  induction fuel as [|fuel IH]; intros arg base parent s Hh Ho.
  { destruct arg; simpl in Hh; lia. }
  destruct arg as [t k v ap ao apn d inner r o]. simpl in Hh, Ho.
  apply andb_true_iff in Ho as [Ho Hou]. apply andb_true_iff in Ho as [Hoi Hop].
  cbn [rec subargs foldM].
  change (visit_with g s (?a, base, parent)) with (g a base parent s).
  change (read_only g ?a base parent s)
    with (g a base parent s ≫= λ s', Ok (a, s')).
  destruct (g _ base parent s) as [s1| |]; simpl; try done.
  rewrite (each_run _
             (λ cur a1, subargs a1 base
                          (if isStruct t then Some cur else parent))).
  2:{ intros cur a s0 Ha. apply IH.
      - apply height_le_foldr in Ha. lia.
      - rewrite forallb_forall in Hoi. apply Hoi. by apply list_elem_of_In. }
  simpl. rewrite foldM_app.
  destruct (foldM _ (flat_map _ inner) s1) as [s2| |]; simpl; try done.
  rewrite foldM_app.
  destruct (decide (k = ArgPointer)) as [Hk|Hk]; simpl.
  - destruct r as [r|]; simpl.
    + rewrite IH by (done || lia).
      destruct (foldM _ (subargs r _ parent) s2) as [s3| |]; simpl; try done.
      destruct (decide (k = ArgUnion)); [congruence|]. by simpl.
    + destruct (decide (k = ArgUnion)); [congruence|]. by simpl.
  - destruct (decide (k = ArgUnion)) as [Hu|Hu]; simpl; [|done].
    destruct o as [o|]; [|done]. simpl.
    rewrite IH by (done || lia).
    by destruct (foldM _ (subargs o base parent) s2) as [s3| |].
Qed.

End read_only_fuel.

Section whole_call_walk.
Context {St : Type}.
Variable g : reader (St := St).

Lemma foreachArgArray_read_only (fuel : nat) (args : list Arg)
    (ret : option Arg) (s : St) args' ret' s' :
  foreachArgArray fuel args ret (read_only g) s = Ok (args', ret', s') →
  args' = args ∧ ret' = ret
  ∧ forallb options_set args = true
  ∧ foldM (visit_with g) (subargs_array args ret) s = Ok s'.
Proof.
  unfold foreachArgArray, foreachSubargImpl, subargs_array. intros H.
  apply bind_Ok in H as [[l s1] [Hargs H]].
  apply (each_unchanged g _ (λ cur a, subargs a None (Some cur)))
    in Hargs as (-> & Hall & Hfold);
    [|intros cur a s0 a' s0' _; apply rec_read_only].
  simpl in *. rewrite foldM_app, Hfold. simpl.
  destruct ret as [r|]; [|by inversion H; subst].
  apply bind_Ok in H as [[r' s2] [Hr H]].
  apply rec_read_only in Hr as (-> & _ & Hr). by inversion H; subst.
Qed.

Lemma foreachArgArray_enough_fuel (fuel : nat) (args : list Arg)
    (ret : option Arg) (s : St) :
  (∀ a, a ∈ args → (height a ≤ fuel)%nat ∧ options_set a = true) →
  (∀ r, ret = Some r → (height r ≤ fuel)%nat ∧ options_set r = true) →
  foreachArgArray fuel args ret (read_only g) s
  = (s' ← foldM (visit_with g) (subargs_array args ret) s;
     Ok (args, ret, s')).
Proof.
  intros Hargs Hret. unfold foreachArgArray, foreachSubargImpl, subargs_array.
  rewrite (each_run g _ (λ cur a, subargs a None (Some cur)))
    by (intros cur a s0 Ha; apply rec_enough_fuel; by apply Hargs).
  simpl. rewrite foldM_app.
  destruct (foldM _ (flat_map _ args) s) as [s1| |]; simpl; try done.
  destruct ret as [r|]; simpl; [|done].
  rewrite rec_enough_fuel by (by apply Hret).
  by destruct (foldM _ (subargs r None None) s1).
Qed.

End whole_call_walk.

Lemma foldM_record (l vs : list visit) :
  foldM (visit_with record) l vs = Ok (vs ++ l).
Proof.
  revert vs. induction l as [|v l IH]; intros vs; simpl.
  - by rewrite app_nil_r.
  - destruct v as [[a b] p]. unfold visit_with at 1, record. simpl.
    rewrite IH. by rewrite <- app_assoc.
Qed.

(** The nodes [subargs] lists are the nodes reachable from the root. *)
Lemma subargs_nodes (a x : Arg) :
  ∀ base parent, x ∈ node <$> subargs a base parent ↔ reachable a x.
Proof.
  intros base parent. split.
  - revert base parent. induction a as [a IHi IHr IHo] using Arg_tree_ind.
    intros base parent Hx. destruct a as [t k v ap ao apn d inner r o].
    simpl in *. apply elem_of_cons in Hx as [->|Hx]; [constructor|].
    rewrite !fmap_app, !elem_of_app in Hx. destruct Hx as [Hx|[Hx|Hx]].
    + apply list_elem_of_fmap in Hx as [vx [-> Hx]].
      apply list_elem_of_In, in_flat_map in Hx as [y [Hy Hx]].
      apply list_elem_of_In in Hy, Hx.
      eapply reach_step; [by apply child_inner|].
      rewrite Forall_forall in IHi. eapply IHi; [done|].
      apply list_elem_of_fmap. eauto.
    + destruct (decide (k = ArgPointer)); [|by apply elem_of_nil in Hx].
      destruct r as [y|]; [|by apply elem_of_nil in Hx].
      eapply reach_step; [by apply child_res|]. by eapply IHr.
    + destruct (decide (k = ArgUnion)); [|by apply elem_of_nil in Hx].
      destruct o as [y|]; [|by apply elem_of_nil in Hx].
      eapply reach_step; [by apply child_option|]. by eapply IHo.
  - intros H. revert base parent.
    induction H as [a|a y z Hc _ IH]; intros base parent.
    + destruct a; simpl. by left.
    + destruct a as [t k v ap ao apn d inner r o]. simpl.
      right. rewrite !fmap_app, !elem_of_app.
      inversion Hc as [? ? Hin|? ? Hk Hr|? ? Hk Ho]; subst; simpl in *.
      * left. specialize (IH base (if isStruct t then Some inner else parent)).
        apply list_elem_of_fmap in IH as [vz [-> Hvz]].
        apply list_elem_of_fmap. exists vz. split; [done|].
        apply list_elem_of_In, in_flat_map. exists y.
        split; by apply list_elem_of_In.
      * right; left. subst r. destruct (decide (k = ArgPointer)); [|done].
        apply IH.
      * right; right. subst o. destruct (decide (k = ArgUnion)); [|done].
        apply IH.
Qed.

Lemma subargs_array_nodes (args : list Arg) (ret : option Arg) (x : Arg) :
  x ∈ node <$> subargs_array args ret
  ↔ (∃ a, a ∈ args ∧ reachable a x) ∨ (∃ r, ret = Some r ∧ reachable r x).
Proof.
  unfold subargs_array. rewrite fmap_app, elem_of_app.
  assert (x ∈ node <$> flat_map (λ arg, subargs arg None (Some args)) args
          ↔ ∃ a, a ∈ args ∧ reachable a x) as ->.
  { split.
    - intros Hx. apply list_elem_of_fmap in Hx as [vx [-> Hx]].
      apply list_elem_of_In, in_flat_map in Hx as [a [Ha Hx]].
      apply list_elem_of_In in Ha, Hx. exists a. split; [done|].
      eapply subargs_nodes. apply list_elem_of_fmap. eauto.
    - intros [a [Ha Hx]].
      apply (subargs_nodes a x None (Some args)) in Hx.
      apply list_elem_of_fmap in Hx as [vx [-> Hx]].
      apply list_elem_of_fmap. exists vx. split; [done|].
      apply list_elem_of_In, in_flat_map. exists a.
      split; by apply list_elem_of_In. }
  destruct ret as [r|].
  - rewrite subargs_nodes. naive_solver.
  - rewrite fmap_nil, elem_of_nil. naive_solver.
Qed.

(** The resolution of a call on an example: the length inside the struct
    behind the pointer is resolved, the struct in the return slot is not
    walked. *)
Example assignSizesCall_struct :
  assignSizesCall sample_Size 4 call_struct = Ok call_struct_resolved.
Proof. vm_compute. reflexivity. Qed.

(** C4 as stated fails: [foreachArg] on [open], whose return node is the
    new descriptor, calls the callback on the three arguments and the file
    name, not on the return node. *)
Lemma foreachArg_skips_ret :
  foreachArg 3 call_open (read_only record) []
  = Ok (call_open,
        [(open_file, None, Some (Args call_open));
         (open_name, Some open_file, Some (Args call_open));
         (open_flags, None, Some (Args call_open));
         (open_mode, None, Some (Args call_open))])
  ∧ Ret call_open = Some open_ret
  ∧ open_ret ∉ [open_file; open_name; open_flags; open_mode].
Proof.
  split; [reflexivity|]. split; [reflexivity|].
  intros H. repeat (apply elem_of_cons in H as [H|H]; [discriminate|]).
  by apply elem_of_nil in H.
Qed.

(** ** Analysis state: resources, strings and files *)

Section analysis_facts.
Context {ChoiceTable : Type}.
Variable K : sys.Consts.

Lemma resources_at_add (name k : string) (a : Arg) (s : @state ChoiceTable) :
  resources_at (add_resource name a s) k
  = resources_at s k ++ (if decide (name = k) then [a] else []).
Proof.
  unfold resources_at at 1, add_resource. simpl.
  destruct (decide (name = k)) as [->|Hne].
  - by rewrite lookup_insert_eq.
  - rewrite lookup_insert_ne by done. by rewrite app_nil_r.
Qed.

Lemma length_nonzero (d : string) : String.length d ≠ 0%nat ↔ d ≠ "".
Proof. destruct d; simpl; split; intros H; congruence || lia. Qed.

(** What one call of the callback does to the state. *)
Lemma observe_arg_effect (a : Arg) (b : option Arg) (p : option (list Arg))
    (s : @state ChoiceTable) :
  ∃ s', observe_arg a b p s = Ok s'
    ∧ (∀ k, resources_at s' k
            = resources_at s k ++ List.filter (is_producer k) [a])
    ∧ (∀ x, x ∈ strings s'
            ↔ x ∈ strings s ∨ input_buffer sys.BufferString a x)
    ∧ (∀ x, x ∈ files s'
            ↔ x ∈ files s ∨ input_buffer sys.BufferFilename a x)
    ∧ pages s' = pages s.
Proof.
  unfold observe_arg, input_buffer, is_producer. simpl.
  destruct (sys.Case (Typ a)) as [name|kind| | | | | | |] eqn:Hc;
    try (exists s; split; [done|]; split; [intros; by rewrite app_nil_r|];
         repeat split; naive_solver).
  - destruct (decide (sys.Dir_ (Typ a) ≠ sys.DirIn)) as [Hd|Hd].
    + eexists. split; [done|]. split; [|repeat split; naive_solver].
      intros k. rewrite resources_at_add.
      destruct (decide (name = k)) as [->|Hne].
      * by rewrite bool_decide_eq_true_2.
      * rewrite bool_decide_eq_false_2; naive_solver.
    + exists s. split; [done|]. split; [|repeat split; naive_solver].
      intros k. rewrite bool_decide_eq_false_2 by naive_solver.
      by rewrite app_nil_r.
  - destruct (decide _) as [(Hd & Hk & Hl)|Hno].
    + apply length_nonzero in Hl.
      destruct kind; eexists; (split; [done|]);
        (split; [intros; by rewrite app_nil_r|]); simpl;
        repeat split; try set_solver.
    + exists s. split; [done|]. split; [intros; by rewrite app_nil_r|].
      assert (¬ (sys.Dir_ (Typ a) ≠ sys.DirOut ∧ Kind a = ArgData
                 ∧ Data a ≠ "")) by (by rewrite <- length_nonzero).
      repeat split; naive_solver.
Qed.

End analysis_facts.

Section analysis_effects.
Context {ChoiceTable : Type}.
Variable K : sys.Consts.

Lemma gained_nothing (s : @state ChoiceTable) :
  gained s s (λ _, []) (λ _, False) (λ _, False).
Proof. repeat split; intros; rewrite ?app_nil_r; naive_solver. Qed.

Lemma gained_trans (s1 s2 s3 : @state ChoiceTable) rs1 rs2 P1 P2 Q1 Q2 :
  gained s1 s2 rs1 P1 Q1 → gained s2 s3 rs2 P2 Q2 →
  gained s1 s3 (λ k, rs1 k ++ rs2 k) (λ x, P1 x ∨ P2 x) (λ x, Q1 x ∨ Q2 x).
Proof.
  intros (R1 & S1 & F1) (R2 & S2 & F2). repeat split.
  - intros k. by rewrite R2, R1, app_assoc.
  - rewrite S2, S1. tauto.
  - rewrite S2, S1. tauto.
  - rewrite F2, F1. tauto.
  - rewrite F2, F1. tauto.
Qed.

Lemma gained_ext (s s' : @state ChoiceTable) rs rs' P P' Q Q' :
  gained s s' rs P Q →
  (∀ k, rs k = rs' k) → (∀ x, P x ↔ P' x) → (∀ x, Q x ↔ Q' x) →
  gained s s' rs' P' Q'.
Proof.
  intros (R & S & F) Hr HP HQ. repeat split.
  - intros k. by rewrite R, Hr.
  - rewrite S, HP. tauto.
  - rewrite S, HP. tauto.
  - rewrite F, HQ. tauto.
  - rewrite F, HQ. tauto.
Qed.

(** The callback never panics; over a list of visits it gains what the
    visited nodes produce and carry. *)
Lemma fold_observe (vs : list visit) :
  ∀ s : @state ChoiceTable,
    ∃ s', foldM (visit_with observe_arg) vs s = Ok s'
      ∧ gained s s'
          (λ k, List.filter (is_producer k) (node <$> vs))
          (λ x, ∃ a, a ∈ node <$> vs ∧ input_buffer sys.BufferString a x)
          (λ x, ∃ a, a ∈ node <$> vs ∧ input_buffer sys.BufferFilename a x)
      ∧ pages s' = pages s.
Proof.
  induction vs as [|[[a b] p] vs IH]; intros s.
  - exists s. split; [done|]. split; [|done].
    eapply gained_ext; [apply gained_nothing|done|..];
      intros x; rewrite fmap_nil; split; try done;
      intros (a & Ha & _); by apply elem_of_nil in Ha.
  - destruct (observe_arg_effect a b p s) as (s1 & H1 & R1 & S1 & F1 & P1).
    destruct (IH s1) as (s2 & H2 & G2 & P2).
    exists s2. split.
    { simpl. change (visit_with observe_arg s (a, b, p))
        with (observe_arg a b p s). by rewrite H1. }
    split; [|congruence].
    assert (G1 : gained s s1 (λ k, List.filter (is_producer k) [a])
                   (input_buffer sys.BufferString a)
                   (input_buffer sys.BufferFilename a))
      by (split; [done|by split]).
    eapply gained_ext; [exact (gained_trans _ _ _ _ _ _ _ _ _ G1 G2)|..].
    + intros k. rewrite fmap_cons. change (node (a, b, p)) with a. simpl.
      by destruct (is_producer k a).
    + intros x. rewrite fmap_cons. change (node (a, b, p)) with a. split.
      * intros [H|(y & Hy & H)]; [exists a; split; [by left|done]|].
        exists y. split; [by right|done].
      * intros (y & Hy & H). apply elem_of_cons in Hy as [->|Hy]; eauto.
    + intros x. rewrite fmap_cons. change (node (a, b, p)) with a. split.
      * intros [H|(y & Hy & H)]; [exists a; split; [by left|done]|].
        exists y. split; [by right|done].
      * intros (y & Hy & H). apply elem_of_cons in Hy as [->|Hy]; eauto.
Qed.

Lemma addressable_frame (s s' : @state ChoiceTable) (addr size : Arg)
    (ok : bool) :
  addressable s addr size ok = Ok s' →
  ∃ pg, s' = set_pages_of pg s.
Proof.
  unfold addressable. intros H.
  repeat (destruct (decide _); [discriminate|]).
  apply bind_Ok in H as [pg [_ H]]. inversion H. eauto.
Qed.

Lemma observe_iocbs_resources (l : list Arg) :
  ∀ (s : @state ChoiceTable),
    let s' := foldl (λ s ptr, if is_iocbptr ptr
                              then add_resource "iocbptr" ptr s else s) s l in
    (∀ k, resources_at s' k
          = resources_at s k
            ++ (if decide (k = "iocbptr") then List.filter is_iocbptr l else []))
    ∧ strings s' = strings s ∧ files s' = files s.
Proof.
  induction l as [|x l IH]; intros s; simpl.
  - split; [|done]. intros k. destruct (decide _); simpl; by rewrite app_nil_r.
  - destruct (IH (if is_iocbptr x then add_resource "iocbptr" x s else s))
      as (R & S & F).
    split; [|by destruct (is_iocbptr x)].
    intros k. rewrite R. destruct (is_iocbptr x); [|done].
    rewrite resources_at_add.
    destruct (decide (k = "iocbptr")) as [->|Hne].
    + by rewrite decide_True, <- app_assoc.
    + by rewrite decide_False, !app_nil_r.
Qed.

(** The special cases add the submitted control blocks and nothing else to
    resources, strings and files. *)
Lemma observe_special_gained (c : Call) (s s' : @state ChoiceTable) :
  observe_special K c s = Ok s' →
  gained s s' (λ k, if decide (k = "iocbptr") then submitted c else [])
         (λ _, False) (λ _, False).
Proof.
  assert (Hnone : ∀ pg, Name (Meta c) ≠ "io_submit" →
    gained s (set_pages_of pg s)
           (λ k, if decide (k = "iocbptr") then submitted c else [])
           (λ _, False) (λ _, False)).
  { intros pg Hn. unfold submitted. rewrite decide_False by done.
    split; [|split; intros x; simpl; tauto].
    intros k. unfold resources_at. simpl.
    destruct (decide _); by rewrite app_nil_r. }
  assert (Hsame : Name (Meta c) ≠ "io_submit" →
    gained s s (λ k, if decide (k = "iocbptr") then submitted c else [])
           (λ _, False) (λ _, False)).
  { intros Hn. specialize (Hnone (pages s) Hn). by destruct s. }
  unfold observe_special. intros H.
  repeat match type of H with
  | context [decide (Name (Meta c) = ?n)] =>
    destruct (decide (Name (Meta c) = n)) as [Hname|]
  end.
  - apply bind_Ok in H as [len [_ H]].
    assert (Name (Meta c) ≠ "io_submit") by (by rewrite Hname).
    destruct (decide _); [inversion H; subst; auto|].
    apply bind_Ok in H as [flags [_ H]]. apply bind_Ok in H as [fd [_ H]].
    destruct (decide _); [inversion H; subst; auto|].
    apply bind_Ok in H as [addr [_ H]].
    apply addressable_frame in H as [pg ->]. auto.
  - apply bind_Ok in H as [addr [_ H]]. apply bind_Ok in H as [size [_ H]].
    apply addressable_frame in H as [pg ->]. apply Hnone. by rewrite Hname.
  - apply bind_Ok in H as [addr [_ H]]. apply bind_Ok in H as [size [_ H]].
    apply addressable_frame in H as [pg ->]. apply Hnone. by rewrite Hname.
  - apply bind_Ok in H as [a2 [Ha2 H]]. apply index_Ok in Ha2.
    unfold submitted. rewrite decide_True, Ha2 by done.
    destruct (Res a2) as [arr|].
    + inversion H; subst s'. unfold observe_iocbs.
      destruct (observe_iocbs_resources (Inner arr) s) as (R & S & F).
      repeat split; try tauto; rewrite ?S, ?F; tauto.
    + inversion H; subst s'.
      eapply gained_ext; [apply gained_nothing|..]; try tauto.
      intros k. by destruct (decide _).
  - inversion H; subst. auto.
Qed.

(** Observing one call. *)
Lemma state_analyze_gained (fuel : nat) (s s' : @state ChoiceTable) (c : Call) :
  state_analyze K fuel s c = Ok s' →
  gained s s'
    (λ k, produced k c ++ (if decide (k = "iocbptr") then submitted c else []))
    (λ x, ∃ a, a ∈ call_nodes c ∧ input_buffer sys.BufferString a x)
    (λ x, ∃ a, a ∈ call_nodes c ∧ input_buffer sys.BufferFilename a x).
Proof.
  unfold state_analyze. intros H.
  apply bind_Ok in H as [[[args ret] s1] [Hwalk H]].
  apply foreachArgArray_read_only in Hwalk as (-> & -> & _ & Hwalk).
  destruct (fold_observe (subargs_array (Args c) (Ret c)) s)
    as (s1' & Hf & G & _).
  rewrite Hf in Hwalk. inversion Hwalk; subst s1'.
  apply observe_special_gained in H. simpl in H.
  eapply gained_ext; [apply (gained_trans _ _ _ _ _ _ _ _ _ G H)|..];
    simpl; tauto.
Qed.

End analysis_effects.

Section analyze_facts.
Context {ChoiceTable : Type}.
Variable K : sys.Consts.

Lemma analyze_loop_gained (fuel : nat) (mem : loc → Call) (c : loc)
    (calls : list loc) :
  ∀ s s' : @state ChoiceTable,
    analyze_loop K fuel mem calls c s = Ok s' →
    gained s s' (code_resources mem (mkProg calls) c)
      (λ x, ∃ c1 a, c1 ∈ before c calls ∧ a ∈ call_nodes (mem c1)
                    ∧ input_buffer sys.BufferString a x)
      (λ x, ∃ c1 a, c1 ∈ before c calls ∧ a ∈ call_nodes (mem c1)
                    ∧ input_buffer sys.BufferFilename a x).
Proof.
  unfold code_resources. simpl.
  induction calls as [|c1 rest IH]; intros s s' H; simpl in *.
  - inversion H; subst s'.
    eapply gained_ext; [apply gained_nothing|done|..];
      intros x; split; try done; intros (? & ? & Hin & _);
      by apply elem_of_nil in Hin.
  - destruct (decide (c1 = c)) as [->|Hne].
    + inversion H; subst s'.
      eapply gained_ext; [apply gained_nothing|done|..];
        intros x; split; try done; intros (? & ? & Hin & _);
        by apply elem_of_nil in Hin.
    + apply bind_Ok in H as [s1 [H1 H2]].
      apply state_analyze_gained in H1. apply IH in H2.
      eapply gained_ext; [exact (gained_trans _ _ _ _ _ _ _ _ _ H1 H2)|..].
      * done.
      * intros x. split.
        -- intros [(a & Ha & Hb)|(c2 & a & Hc & Ha & Hb)].
           ++ exists c1, a. split; [by left|done].
           ++ exists c2, a. split; [by right|done].
        -- intros (c2 & a & Hc & Ha & Hb).
           apply elem_of_cons in Hc as [->|Hc]; [left|right]; eauto.
      * intros x. split.
        -- intros [(a & Ha & Hb)|(c2 & a & Hc & Ha & Hb)].
           ++ exists c1, a. split; [by left|done].
           ++ exists c2, a. split; [by right|done].
        -- intros (c2 & a & Hc & Ha & Hb).
           apply elem_of_cons in Hc as [->|Hc]; [left|right]; eauto.
Qed.

End analyze_facts.

(** C1, as the code has it: the state [analyze] returns lists under every
    kind the producers of the calls before [c], in program order; under the
    kind "iocbptr" each [io_submit] call adds, after its own producers, the
    pointers to the control blocks it submits.  For every other kind this is
    the list of the specification.  Nothing of [c] or of a later call is
    read. *)
Theorem analyze_resources {ChoiceTable : Type} (K : sys.Consts) (fuel : nat)
    (mem : loc → Call) (ct : ChoiceTable) (p : Prog) (c : loc)
    (s : @state ChoiceTable) :
  analyze K fuel mem ct p c = Ok s →
  ∀ k, resources_at s k = code_resources mem p c k
       ∧ (k ≠ "iocbptr" → resources_at s k = spec_resources mem p c k).
Proof.
  intros H k. unfold analyze in H.
  apply analyze_loop_gained in H as (R & _ & _).
  assert (Hk : resources_at s k = code_resources mem p c k).
  { rewrite R. by destruct p. }
  split; [done|]. intros Hne. rewrite Hk.
  unfold code_resources, spec_resources. clear -Hne.
  induction (before c (Calls p)) as [|c1 l IH]; simpl; [done|].
  rewrite decide_False by done. by rewrite IH, app_nil_r.
Qed.

Lemma analyze_resources_witness :
  resources_at sample_state "fd"
  = code_resources sample_mem sample_prog 2%nat "fd"
  ∧ ("fd" ≠ "iocbptr" →
     resources_at sample_state "fd"
     = spec_resources sample_mem sample_prog 2%nat "fd").
Proof.
  apply (analyze_resources linux 6 sample_mem () sample_prog 2%nat).
  vm_compute. reflexivity.
Defined.

(** C1 as stated fails: after [open; io_submit] the list under "iocbptr"
    holds the pointer to the submitted control block, a pointer-typed node,
    where the specification's list is empty. *)
Lemma analyze_iocbptr_not_spec :
  (s ← analyze linux 6 sample_mem () sample_prog 2%nat;
   Ok (resources_at s "iocbptr")) = Ok [iocb_ptr]
  ∧ spec_resources sample_mem sample_prog 2%nat "iocbptr" = []
  ∧ sys.Case (Typ iocb_ptr) = sys.PtrType.
Proof. split; [|split]; vm_compute; reflexivity. Qed.

(** C5: the strings (files) of the returned state are exactly the non-empty
    data of the string (filename) buffer nodes of the analysed calls that
    are inputs or in-outs; an output buffer accounts for no entry. *)
Theorem analyze_buffers {ChoiceTable : Type} (K : sys.Consts) (fuel : nat)
    (mem : loc → Call) (ct : ChoiceTable) (p : Prog) (c : loc)
    (s : @state ChoiceTable) :
  analyze K fuel mem ct p c = Ok s →
  (∀ x, x ∈ strings s
        ↔ ∃ c1 a, c1 ∈ before c (Calls p) ∧ a ∈ call_nodes (mem c1)
                  ∧ input_buffer sys.BufferString a x)
  ∧ (∀ x, x ∈ files s
          ↔ ∃ c1 a, c1 ∈ before c (Calls p) ∧ a ∈ call_nodes (mem c1)
                    ∧ input_buffer sys.BufferFilename a x).
Proof.
  intros H. unfold analyze in H.
  apply analyze_loop_gained in H as (_ & S & F). simpl in S, F.
  split; intros x; [rewrite S|rewrite F]; set_solver.
Qed.

Lemma analyze_buffers_witness :
  ("./file0" ∈ files sample_state
   ↔ ∃ c1 a, c1 ∈ before 2%nat (Calls sample_prog)
             ∧ a ∈ call_nodes (sample_mem c1)
             ∧ input_buffer sys.BufferFilename a "./file0")
  ∧ ("./file0" ∈ strings sample_state
     ↔ ∃ c1 a, c1 ∈ before 2%nat (Calls sample_prog)
               ∧ a ∈ call_nodes (sample_mem c1)
               ∧ input_buffer sys.BufferString a "./file0").
Proof.
  assert (H : analyze linux 6 sample_mem () sample_prog 2%nat = Ok sample_state)
    by (vm_compute; reflexivity).
  destruct (analyze_buffers linux 6 sample_mem () sample_prog 2%nat
              sample_state H) as [S F].
  split; [apply F|apply S].
Defined.

(** ** Analysis state: pages *)

Lemma maxPages_eq : maxPages = 4096.
Proof. reflexivity. Qed.

Lemma wrap_small (z : Z) : 0 ≤ z < 2 ^ uintptr_bits → wrap z = z.
Proof. intros H. unfold wrap. by apply Z.mod_small. Qed.

Lemma wrap_range (z : Z) : 0 ≤ wrap z < 2 ^ uintptr_bits.
Proof. unfold wrap. apply Z.mod_pos_bound. reflexivity. Qed.

(** Within the table the loop writes [ok] to [cnt] pages from [page + i]
    on and to nothing else. *)
Lemma set_pages_ok (cnt : nat) :
  ∀ (pg : list bool) (page i : Z) (ok : bool),
    0 ≤ page → 0 ≤ i → page + i + Z.of_nat cnt ≤ maxPages →
    ∃ pg', set_pages pg page i cnt ok = Ok pg'
      ∧ length pg' = length pg
      ∧ ∀ j : nat,
          pg' !! j
          = if decide (page + i ≤ Z.of_nat j < page + i + Z.of_nat cnt
                       ∧ (j < length pg)%nat)
            then Some ok else pg !! j.
Proof.
  induction cnt as [|cnt IH]; intros pg page i ok Hp Hi Hb.
  - exists pg. split; [done|]. split; [done|]. intros j.
    rewrite decide_False; [done|lia].
  - simpl. rewrite maxPages_eq in *.
    assert (Hw : wrap (page + i) = page + i).
    { apply wrap_small. change (2 ^ uintptr_bits) with 18446744073709551616.
      lia. }
    rewrite Hw. rewrite decide_True by lia.
    destruct (IH (<[Z.to_nat (page + i) := ok]> pg) page (i + 1) ok)
      as (pg' & Hrun & Hlen & Hget); [lia..|].
    exists pg'. split; [done|]. rewrite length_insert in *.
    split; [done|]. intros j. rewrite Hget.
    destruct (decide (Z.to_nat (page + i) = j)) as [<-|Hne].
    + rewrite decide_False by lia.
      destruct (decide (Z.to_nat (page + i) < length pg)%nat).
      * rewrite list_lookup_insert_eq by done. rewrite decide_True; [done|lia].
      * rewrite list_insert_ge by lia. rewrite decide_False; [done|lia].
    + rewrite list_lookup_insert_ne by done.
      destruct (decide (page + (i + 1) ≤ Z.of_nat j
                        < page + (i + 1) + Z.of_nat cnt
                        ∧ (j < length pg)%nat)).
      * rewrite decide_True; [done|lia].
      * rewrite decide_False; [done|lia].
Qed.

(** An index past the table stops the loop with a runtime panic. *)
Lemma set_pages_panic (cnt : nat) :
  ∀ (pg : list bool) (page i : Z) (ok : bool),
    (∃ j, i ≤ j < i + Z.of_nat cnt ∧ maxPages ≤ wrap (page + j)) →
    is_panic (set_pages pg page i cnt ok).
Proof.
  induction cnt as [|cnt IH]; intros pg page i ok (j & Hj & Hout).
  - lia.
  - simpl. destruct (decide (wrap (page + i) < maxPages)) as [Hin|Hin].
    + apply IH. exists j. split; [|done].
      destruct (decide (j = i)) as [->|]; lia.
    + by eexists.
Qed.


Lemma page_count_span (size : Arg) :
  0 ≤ AddrPage size < 2 ^ uintptr_bits - 1 → page_count size = page_span size.
Proof.
  intros H. unfold page_count, page_span.
  destruct (decide (AddrOffset size ≠ 0)); [|lia].
  apply wrap_small. lia.
Qed.

Section page_facts.
Context {ChoiceTable : Type}.
Variable K : sys.Consts.

Lemma addressable_ok (s : @state ChoiceTable) (addr size : Arg) (ok : bool) :
  page_args addr size →
  AddrPage addr + page_span size ≤ maxPages →
  length (pages s) = Z.to_nat maxPages →
  ∃ s', addressable s addr size ok = Ok s'
    ∧ length (pages s') = Z.to_nat maxPages
    ∧ ∀ i, AddrPage addr ≤ i < AddrPage addr + page_span size →
           page_is s' i ok.
Proof.
  intros (Hka & Hks & Hpa & Hps) Hb Hlen. unfold addressable.
  rewrite decide_False by (intros [?|?]; done).
  rewrite (page_count_span size Hps).
  assert (0 ≤ page_span size) by (unfold page_span; destruct (decide _); lia).
  rewrite maxPages_eq in *.
  rewrite wrap_small
    by (change (2 ^ uintptr_bits) with 18446744073709551616; lia).
  rewrite decide_False by lia.
  destruct (set_pages_ok (Z.to_nat (page_span size)) (pages s) (AddrPage addr)
              0 ok) as (pg & Hrun & Hl & Hget);
    [lia|lia|rewrite maxPages_eq; lia|].
  rewrite Hrun. simpl. eexists. split; [done|]. simpl.
  split; [congruence|]. intros i Hi. unfold page_is. simpl.
  rewrite Hget, decide_True; [done|lia].
Qed.

Lemma addressable_panic (s : @state ChoiceTable) (addr size : Arg) (ok : bool) :
  page_args addr size →
  AddrPage addr + page_span size > maxPages →
  is_panic (addressable s addr size ok).
Proof.
  intros (Hka & Hks & Hpa & Hps) Hb. unfold addressable.
  rewrite decide_False by (intros [?|?]; done).
  rewrite (page_count_span size Hps).
  assert (0 ≤ page_span size ≤ AddrPage size + 1)
    by (unfold page_span; destruct (decide _); lia).
  destruct (decide (wrap (AddrPage addr + page_span size) > maxPages))
    as [|Hfits]; [by eexists|].
  assert (Hwrapped : 2 ^ uintptr_bits ≤ AddrPage addr + page_span size).
  { destruct (decide (AddrPage addr + page_span size < 2 ^ uintptr_bits));
      [|lia].
    rewrite wrap_small in Hfits; lia. }
  rewrite maxPages_eq in *.
  change (2 ^ uintptr_bits) with 18446744073709551616 in *.
  destruct (set_pages_panic (Z.to_nat (page_span size)) (pages s)
              (AddrPage addr) 0 ok) as [f Hf].
  - rewrite maxPages_eq.
    destruct (decide (4096 ≤ AddrPage addr)).
    + exists 0. split; [lia|]. rewrite Z.add_0_r, wrap_small; [done|].
      change (2 ^ uintptr_bits) with 18446744073709551616. lia.
    + exists (4096 - AddrPage addr). split; [lia|].
      replace (AddrPage addr + (4096 - AddrPage addr)) with 4096 by lia.
      by vm_compute.
  - rewrite Hf. by eexists.
Qed.

(** With enough fuel the walk of [state.analyze] returns and leaves the
    pages alone. *)
Lemma state_analyze_walk (fuel : nat) (s : @state ChoiceTable) (c : Call) :
  walkable fuel c →
  ∃ s1, state_analyze K fuel s c = observe_special K c s1
        ∧ pages s1 = pages s.
Proof.
  intros [Hargs Hret]. unfold state_analyze.
  rewrite foreachArgArray_enough_fuel by done.
  destruct (fold_observe (subargs_array (Args c) (Ret c)) s)
    as (s1 & Hf & _ & Hp).
  rewrite Hf. simpl. exists s1. split; [|done]. by destruct c.
Qed.

End page_facts.

(** With enough fuel, a program whose calls before [c] are none of the
    special cases is analysed to the end. *)
Lemma analyze_returns {ChoiceTable : Type} (K : sys.Consts) (fuel : nat)
    (mem : loc → Call) (ct : ChoiceTable) (p : Prog) (c : loc) :
  (∀ c1, c1 ∈ before c (Calls p) →
         walkable fuel (mem c1)
         ∧ Name (Meta (mem c1)) ∉ ["mmap"; "munmap"; "mremap"; "io_submit"]) →
  ∃ s, analyze K fuel mem ct p c = Ok s.
Proof.
  unfold analyze. generalize (newState ct).
  induction (Calls p) as [|c1 rest IH]; intros s H; simpl in *; [by eexists|].
  destruct (decide (c1 = c)); [by eexists|].
  destruct (H c1) as [Hw Hn]; [by left|].
  destruct (state_analyze_walk K fuel s (mem c1) Hw) as (s1 & -> & _).
  rewrite !not_elem_of_cons in Hn. destruct Hn as (?&?&?&?&_).
  unfold observe_special. rewrite !decide_False by done. simpl.
  apply IH. intros c2 Hc2. apply H. by right.
Qed.

Ltac walkable_by_cases :=
  split;
  [ intros a Ha; simpl in Ha;
    repeat (apply elem_of_cons in Ha as [Ha|Ha];
            [rewrite Ha; split; [vm_compute; lia|reflexivity]|]);
    by apply elem_of_nil in Ha
  | intros r Hr; simpl in Hr;
    first [ discriminate Hr
          | injection Hr as <-; split; [vm_compute; lia|reflexivity] ] ].

Ltac page_args_by_cases :=
  unfold page_args, uintptr_bits; simpl; repeat split; (reflexivity || lia).

(** ** Size-field resolution *)

(** *** Pointer chains *)

Lemma InnerArg_not_ptr (a : Arg) :
  ∀ x, InnerArg a = Ok (Some x) → isPtr (Typ x) = false.
Proof.
  induction a as [a _ IHr _] using Arg_tree_ind. intros x H.
  destruct a as [t k v ap ao apn d inner r o]. simpl in *.
  destruct (sys.Case t) eqn:Hc;
    try (inversion H; subst x; unfold isPtr; simpl; by rewrite Hc).
  destruct r as [y|]; [by eapply IHr|].
  by destruct (sys.Optional t).
Qed.

Lemma updInner_end (g : Arg → Arg) (a : Arg) :
  isPtr (Typ a) = false → updInner g a = g a.
Proof.
  destruct a as [t k v ap ao apn d inner r o]. unfold isPtr. simpl.
  by destruct (sys.Case t).
Qed.

Lemma InnerArg_end (a : Arg) : isPtr (Typ a) = false → InnerArg a = Ok (Some a).
Proof.
  destruct a as [t k v ap ao apn d inner r o]. unfold isPtr. simpl.
  by destruct (sys.Case t).
Qed.

(** Writing through the chain: where [InnerArg] finds a node, the updated
    field holds the rewritten node; where it finds none, nothing changes. *)
Lemma InnerArg_updInner (g : Arg → Arg) (a : Arg) :
  (∀ x, InnerArg a = Ok (Some x) → isPtr (Typ (g x)) = false →
        InnerArg (updInner g a) = Ok (Some (g x)))
  ∧ (∀ r, InnerArg a = r → (∀ x, r ≠ Ok (Some x)) →
          updInner g a = a)
  ∧ (∀ x, InnerArg a = Ok (Some x) → Typ (g x) = Typ x →
          Typ (updInner g a) = Typ a).
Proof.
  induction a as [a _ IHr _] using Arg_tree_ind.
  destruct a as [t k v ap ao apn d inner r o]. simpl in *.
  destruct (sys.Case t) eqn:Hc;
    try (split; [intros x H Hg; inversion H; subst x; by apply InnerArg_end|];
         split; [intros r0 <- Hno; by destruct (Hno _ eq_refl)|];
         intros x H Hg; by inversion H; subst x).
  destruct r as [y|].
  - destruct (IHr y eq_refl) as (I1 & I2 & I3). split; [|split].
    + intros x H Hg. simpl. rewrite Hc. by apply I1.
    + intros r0 H Hno. by rewrite (I2 r0 H Hno).
    + done.
  - split; [|split]; try done. intros x H. by destruct (sys.Optional t).
Qed.

Lemma updInner_updInner (g1 g2 : Arg → Arg) (a : Arg) :
  (∀ x, isPtr (Typ x) = false → isPtr (Typ (g1 x)) = false) →
  updInner g2 (updInner g1 a) = updInner (λ x, g2 (g1 x)) a.
Proof.
  intros Hg. induction a as [a _ IHr _] using Arg_tree_ind.
  destruct a as [t k v ap ao apn d inner r o]. simpl in *.
  destruct (sys.Case t) eqn:Hc;
    try (apply updInner_end, Hg; unfold isPtr; simpl; by rewrite Hc).
  destruct r as [y|]; simpl; rewrite Hc; [|done].
  f_equal. f_equal. by apply IHr.
Qed.

Lemma updInner_id (a : Arg) : updInner (λ x, x) a = a.
Proof.
  induction a as [a _ IHr _] using Arg_tree_ind.
  destruct a as [t k v ap ao apn d inner r o]. simpl in *.
  destruct (sys.Case t); try done. destruct r as [y|]; [|done].
  by rewrite (IHr y eq_refl).
Qed.

Lemma updInner_ext (g1 g2 : Arg → Arg) (a : Arg) :
  (∀ x, InnerArg a = Ok (Some x) → g1 x = g2 x) →
  updInner g1 a = updInner g2 a.
Proof.
  induction a as [a _ IHr _] using Arg_tree_ind. intros H.
  destruct a as [t k v ap ao apn d inner r o]. simpl in *.
  destruct (sys.Case t); try (by apply H).
  destruct r as [y|]; [|done]. f_equal. f_equal. by apply IHr.
Qed.

Lemma resized_refl (a : Arg) : resized a a.
Proof. exists (λ x, x). split; [by rewrite updInner_id|done]. Qed.

Lemma InnerArg_no_fuel (a : Arg) : InnerArg a ≠ OutOfFuel.
Proof.
  induction a as [a _ IHr _] using Arg_tree_ind.
  destruct a as [t k v ap ao apn d inner r o]. simpl in *.
  destruct (sys.Case t); try done. destruct r as [y|]; [by apply IHr|].
  by destruct (sys.Optional t).
Qed.

(** *** One step of the second loop *)

Section resolution.
Variable Size : Arg → Z.

Lemma generateSize_Typ (t : option Arg) (lenType : sys.Type_) :
  Typ (generateSize Size t lenType) = lenType.
Proof.
  unfold generateSize. destruct t as [a|]; [|done].
  destruct (sys.Case (Typ a)); try done. by destruct (decide _).
Qed.

Lemma isLen_not_ptr (t : sys.Type_) : isLen t = true → isPtr t = false.
Proof. unfold isLen, isPtr. by destruct (sys.Case t). Qed.

Lemma resized_InnerArg (a a' : Arg) :
  resized a a' →
  match InnerArg a with
  | Ok (Some x) =>
    ∃ x', InnerArg a' = Ok (Some x') ∧ Typ x' = Typ x
          ∧ (isLen (Typ x) = false → x' = x)
  | r => InnerArg a' = r ∧ a' = a
  end.
Proof.
  intros (g & -> & Hg).
  destruct (InnerArg_updInner g a) as (I1 & I2 & _).
  destruct (InnerArg a) as [[x|]| |] eqn:Hin.
  - destruct (Hg x eq_refl) as [Ht Hsame]. exists (g x).
    split; [|done]. apply I1; [done|].
    rewrite Ht. by eapply InnerArg_not_ptr.
  - rewrite (I2 _ eq_refl); done.
  - rewrite (I2 _ eq_refl); done.
  - rewrite (I2 _ eq_refl); done.
Qed.

Lemma resized_Typ (a a' : Arg) : resized a a' → Typ a' = Typ a.
Proof.
  intros (g & -> & Hg).
  destruct (InnerArg_updInner g a) as (_ & I2 & I3).
  destruct (InnerArg a) as [[x|]| |] eqn:Hin.
  - apply (I3 x eq_refl). by apply Hg.
  - by rewrite (I2 _ eq_refl).
  - by rewrite (I2 _ eq_refl).
  - by rewrite (I2 _ eq_refl).
Qed.

(** A step that returns has rewritten at most the field at [i], and that
    one only behind its length node. *)
Lemma fill_shape (ps : Z) (am : gmap string nat) (cur cur' : list Arg)
    (i : nat) (a : Arg) :
  fill Size ps am cur i = Ok cur' → cur !! i = Some a →
  ∃ a', cur' = <[i := a']> cur ∧ resized a a'.
Proof.
  intros H Hi.
  assert (Hsame : cur' = cur → ∃ a', cur' = <[i := a']> cur ∧ resized a a').
  { intros ->. exists a. split; [by rewrite list_insert_id|apply resized_refl]. }
  unfold fill in H. rewrite Hi in H.
  apply bind_Ok in H as [inner [Hin H]].
  destruct inner as [x|]; [|apply Hsame; by inversion H].
  destruct (sys.Case (Typ x)) as [| |Buf bs| | | | | |] eqn:Hc;
    try (apply Hsame; by inversion H).
  assert (Hlen : isLen (Typ x) = true) by (unfold isLen; by rewrite Hc).
  destruct (decide (Buf = "parent")).
  - inversion H; subst cur'. eexists. split; [done|].
    exists (setVal ps). split; [done|].
    intros x0 Hx0. rewrite Hin in Hx0. inversion Hx0; subst x0.
    split; [done|]. intros Hno. congruence.
  - destruct (am !! Buf) as [j|]; [|discriminate].
    destruct (cur !! j) as [buf|]; [|apply Hsame; by inversion H].
    apply bind_Ok in H as [target [Ht H]]. inversion H; subst cur'.
    eexists. split; [done|]. eexists. split; [done|].
    intros x0 Hx0. rewrite Hin in Hx0. inversion Hx0; subst x0.
    rewrite generateSize_Typ. split; [done|]. intros Hno. congruence.
Qed.

Lemma fill_no_fuel (ps : Z) (am : gmap string nat) (cur : list Arg) (i : nat) :
  fill Size ps am cur i ≠ OutOfFuel.
Proof.
  unfold fill. destruct (cur !! i) as [a|]; [|done].
  pose proof (InnerArg_no_fuel a) as Ha.
  destruct (InnerArg a) as [[x|]| |]; simpl; try done.
  destruct (sys.Case (Typ x)); try done.
  destruct (decide _); [done|]. destruct (am !! Buf) as [j|]; [|done].
  destruct (cur !! j) as [b|]; [|done].
  pose proof (InnerArg_no_fuel b) as Hb.
  by destruct (InnerArg b) as [t| |].
Qed.

Lemma mix_lookup (i j : nat) (final orig : list Arg) :
  length final = length orig →
  mix i final orig !! j
  = if decide (j < i)%nat then final !! j else orig !! j.
Proof.
  intros Hlen. unfold mix. destruct (decide (j < i)%nat) as [Hlt|Hge].
  - destruct (decide (j < length final)%nat).
    + rewrite lookup_app_l by (rewrite length_take; lia).
      by rewrite lookup_take_lt.
    + rewrite lookup_app_r by (rewrite length_take; lia).
      rewrite lookup_drop, (lookup_ge_None_2 final) by lia.
      apply lookup_ge_None_2. rewrite length_take. lia.
  - destruct (decide (i ≤ length final)%nat).
    + rewrite lookup_app_r by (rewrite length_take; lia).
      rewrite lookup_drop, length_take. f_equal. lia.
    + rewrite (lookup_ge_None_2 orig) by lia.
      apply lookup_ge_None_2.
      rewrite length_app, length_take, length_drop. lia.
Qed.

(** The run of the second loop, step by step. *)
Lemma fill_trace (ps : Z) (am : gmap string nat) (final : list Arg) (n : nat) :
  ∀ (k : nat) (cur : list Arg),
    (k + n = length cur)%nat →
    foldM (fill Size ps am) (seq k n) cur = Ok final →
    length final = length cur
    ∧ take k final = take k cur
    ∧ ∀ i, (k ≤ i < k + n)%nat →
           fill Size ps am (mix i final cur) i = Ok (mix (S i) final cur).
Proof.
  induction n as [|n IH]; intros k cur Hk H; simpl in H.
  - inversion H; subst. split; [done|]. split; [done|]. intros; lia.
  - apply bind_Ok in H as [cur1 [Hstep H]].
    destruct (cur !! k) as [a|] eqn:Ha;
      [|apply lookup_ge_None in Ha; lia].
    destruct (fill_shape _ _ _ _ _ _ Hstep Ha) as (a' & -> & _).
    destruct (IH (S k) (<[k := a']> cur)) as (Hlen & Htake & Hsteps);
      [rewrite length_insert; lia|done|].
    rewrite length_insert in Hlen.
    assert (Hpre : take k final = take k cur).
    { transitivity (take k (take (S k) final));
        [rewrite take_take; f_equal; lia|].
      rewrite Htake, take_take. replace (k `min` S k)%nat with k by lia.
      apply take_insert_ge. lia. }
    split; [done|]. split; [done|]. intros i Hi.
    destruct (decide (i = k)) as [->|Hne].
    + unfold mix. rewrite Hpre, take_drop, Hstep, Htake.
      rewrite <- (drop_insert_lt cur (S k) k a') by lia.
      by rewrite take_drop.
    + specialize (Hsteps i ltac:(lia)). unfold mix in *.
      by rewrite !drop_insert_lt in Hsteps by lia.
Qed.

End resolution.

(** *** The first loop *)

Section first_loop.
Variable Size : Arg → Z.

Lemma scan_total (args : list Arg) :
  ∀ k z m, (scan Size args k (wrap z, m)).1 = wrap (z + sum_sizes Size args).
Proof.
  induction args as [|a rest IH]; intros k z m; simpl.
  - by rewrite Z.add_0_r.
  - rewrite IH, <- Z.add_assoc. unfold wrap. apply Zplus_mod_idemp_l.
Qed.

(** Fields of other names, and padding, leave the entry of [n] alone. *)
Lemma scan_keep (n : string) (args : list Arg) :
  ∀ k z m,
    (∀ j b, args !! j = Some b → sys.IsPad (Typ b) = false →
            sys.Name (Typ b) ≠ n) →
    (scan Size args k (z, m)).2 !! n = m !! n.
Proof.
  induction args as [|a rest IH]; intros k z m Hno; simpl; [done|].
  rewrite IH by (intros j b Hj; by apply (Hno (S j))).
  destruct (sys.IsPad (Typ a)) eqn:Hpad; [done|].
  rewrite lookup_insert_ne; [done|]. by apply (Hno 0%nat a).
Qed.

(** The entry of a name is the last field of that name that is not
    padding. *)
Lemma scan_named (n : string) (args : list Arg) :
  ∀ k z m j buf,
    named_field args n j buf →
    (scan Size args k (z, m)).2 !! n = Some (k + j)%nat.
Proof.
  induction args as [|a rest IH]; intros k z m j buf (Hj & Hpad & Hn & Hlast);
    [done|].
  destruct j as [|j]; simpl in *.
  - inversion Hj; subst a. rewrite Hpad, Hn.
    rewrite scan_keep
      by (intros j b Hb; apply (Hlast (S j)); [lia|done]).
    rewrite lookup_insert_eq. f_equal. lia.
  - rewrite (IH (S k) _ _ j buf); [f_equal; lia|].
    repeat split; try done. intros j' b Hlt Hb.
    apply (Hlast (S j')); [lia|done].
Qed.

(** The first loop reads types and sizes only. *)
Lemma scan_ext (l1 l2 : list Arg) :
  Forall2 (λ a b, Typ a = Typ b ∧ Size a = Size b) l1 l2 →
  ∀ k acc, scan Size l1 k acc = scan Size l2 k acc.
Proof.
  induction 1 as [|a b l1 l2 [Ht Hs] _ IH]; intros k acc; simpl; [done|].
  by rewrite Ht, Hs, IH.
Qed.

Lemma foldM_no_fuel {A B} (f : B → A → res B) (l : list A) :
  (∀ b x, f b x ≠ OutOfFuel) → ∀ b, foldM f l b ≠ OutOfFuel.
Proof.
  intros Hf. induction l as [|x l IH]; intros b; simpl; [done|].
  specialize (Hf b x). destruct (f b x) as [b'| |]; simpl; [apply IH|done..].
Qed.

(** [assignSizes] step by step: the total and the map come from the fields
    as they were, and step [i] runs on the fields before [i] as they end up
    and the others as they were. *)
Lemma assignSizes_trace (args final : list Arg) :
  assignSizes Size args = Ok final →
  length final = length args
  ∧ ∀ i, (i < length args)%nat →
         fill Size (wrap (sum_sizes Size args))
              (scan Size args 0 (0, ∅)).2 (mix i final args) i
         = Ok (mix (S i) final args).
Proof.
  unfold assignSizes. intros H.
  pose proof (scan_total args 0 0 ∅) as Hps. simpl in Hps.
  change (wrap 0) with 0 in Hps.
  destruct (scan Size args 0 (0, ∅)) as [ps am]. simpl in *. subst ps.
  apply fill_trace in H as (Hlen & _ & Hsteps); [|done].
  split; [done|]. intros i Hi. apply Hsteps. lia.
Qed.

Lemma assignSizes_no_fuel (args : list Arg) :
  assignSizes Size args ≠ OutOfFuel.
Proof.
  unfold assignSizes. destruct (scan Size args 0 (0, ∅)) as [ps am].
  apply foldM_no_fuel. intros. apply fill_no_fuel.
Qed.

(** What the resolution leaves at a position, given what was there. *)
Lemma assignSizes_at (args final : list Arg) (i : nat) (field : Arg) :
  assignSizes Size args = Ok final → args !! i = Some field →
  ∃ field', final !! i = Some field' ∧ resized field field'
    ∧ fill Size (wrap (sum_sizes Size args)) (scan Size args 0 (0, ∅)).2
           (mix i final args) i
      = Ok (<[i := field']> (mix i final args)).
Proof.
  intros H Hi. apply assignSizes_trace in H as [Hlen Hsteps].
  assert (Hlt : (i < length args)%nat) by (by eapply lookup_lt_Some).
  specialize (Hsteps i Hlt).
  assert (Hmix : mix i final args !! i = Some field).
  { rewrite mix_lookup by done. rewrite decide_False by lia. done. }
  destruct (fill_shape _ _ _ _ _ _ _ Hsteps Hmix) as (field' & Heq & Hres).
  exists field'. split; [|split; [done|by rewrite Hsteps, Heq]].
  assert (Hnext : mix (S i) final args !! i = final !! i).
  { rewrite mix_lookup by done. rewrite decide_True by lia. done. }
  rewrite <- Hnext, Heq. apply list_lookup_insert_eq.
  unfold mix. rewrite length_app, length_take, length_drop. lia.
Qed.

End first_loop.

(** *** What the resolution writes *)

Section resolved.
Variable Size : Arg → Z.

(** A step on a field that holds a length node. *)
Lemma fill_len_field (ps : Z) (am : gmap string nat) (cur cur' : list Arg)
    (i : nat) (field x : Arg) (Buf : string) (bs : Z) :
  fill Size ps am cur i = Ok cur' →
  len_field cur i field x Buf bs →
  if decide (Buf = "parent")
  then cur' = <[i := updInner (setVal ps) field]> cur
  else ∃ j, am !! Buf = Some j
         ∧ match cur !! j with
           | None => cur' = cur
           | Some buf =>
             ∃ t, InnerArg buf = Ok t
               ∧ cur' = <[i := updInner (λ _, generateSize Size t (Typ x))
                                       field]> cur
           end.
Proof.
  intros H (Hi & Hin & Hc). unfold fill in H.
  rewrite Hi, Hin in H. simpl in H. rewrite Hc in H.
  destruct (decide (Buf = "parent")); [by inversion H|].
  destruct (am !! Buf) as [j|]; [|discriminate]. exists j. split; [done|].
  destruct (cur !! j) as [buf|]; [|by inversion H].
  apply bind_Ok in H as [t [Ht H]]. exists t. split; [done|]. by inversion H.
Qed.

Lemma insert_same_pos (l : list Arg) (i : nat) (a b : Arg) :
  (i < length l)%nat → <[i := a]> l = <[i := b]> l → a = b.
Proof.
  intros Hi H. apply (f_equal (.!! i)) in H.
  rewrite !list_lookup_insert_eq in H by done. by inversion H.
Qed.

Lemma mix_length (i : nat) (final orig : list Arg) :
  length final = length orig → length (mix i final orig) = length orig.
Proof.
  intros H. unfold mix. rewrite length_app, length_take, length_drop. lia.
Qed.

Lemma mix_len_field (args final : list Arg) (i : nat) (field x : Arg)
    (Buf : string) (bs : Z) :
  length final = length args →
  len_field args i field x Buf bs →
  len_field (mix i final args) i field x Buf bs.
Proof.
  intros Hlen (Hi & Hrest). split; [|done].
  rewrite mix_lookup by done. by rewrite decide_False by lia.
Qed.

Lemma sum_sizes_app (l1 l2 : list Arg) :
  sum_sizes Size (l1 ++ l2) = sum_sizes Size l1 + sum_sizes Size l2.
Proof. induction l1 as [|a l1 IH]; simpl; [done|]. rewrite IH. lia. Qed.

(** C9: a length field of the parent ends up holding the sum of [Size()]
    over all fields of the sequence, in [uintptr] arithmetic; the sum runs
    over the fields before it, the field itself and the fields after it,
    padding or not. *)
Theorem parent_length_total (args args' : list Arg) (i : nat)
    (field x : Arg) (bs : Z) :
  len_field args i field x "parent" bs →
  assignSizes Size args = Ok args' →
  ∃ field' x',
    args' !! i = Some field' ∧ InnerArg field' = Ok (Some x')
    ∧ Val x' = wrap (sum_sizes Size args)
    ∧ sum_sizes Size args
      = sum_sizes Size (take i args) + Size field
        + sum_sizes Size (drop (S i) args).
Proof.
  intros Hf H. pose proof Hf as (Hi & Hin & Hc).
  destruct (assignSizes_at Size _ _ _ _ H Hi) as (field' & Hi' & _ & Hstep).
  pose proof (assignSizes_trace Size _ _ H) as [Hlen _].
  pose proof (fill_len_field _ _ _ _ _ _ _ _ _ Hstep
                (mix_len_field _ _ _ _ _ _ _ Hlen Hf)) as Hw.
  rewrite decide_True in Hw by done.
  apply insert_same_pos in Hw;
    [|rewrite mix_length by done; by eapply lookup_lt_Some].
  subst field'. exists (updInner (setVal (wrap (sum_sizes Size args))) field).
  exists (setVal (wrap (sum_sizes Size args)) x).
  split; [done|]. split; [|split; [reflexivity|]].
  - apply InnerArg_updInner; [done|]. by apply (InnerArg_not_ptr field x).
  - rewrite <- (take_drop_middle args i field Hi) at 1.
    rewrite sum_sizes_app. simpl. lia.
Qed.

(** C6: a length field whose target is not "parent" and names no field of
    the sequence that is not padding makes the resolution panic. *)
Theorem missing_target_panics (args : list Arg) (i : nat) (field x : Arg)
    (Buf : string) (bs : Z) :
  len_field args i field x Buf bs →
  Buf ≠ "parent" →
  (∀ j b, args !! j = Some b → sys.IsPad (Typ b) = false →
          sys.Name (Typ b) ≠ Buf) →
  is_panic (assignSizes Size args).
Proof.
  intros Hf Hnp Hnone. pose proof Hf as (Hi & _).
  destruct (assignSizes Size args) as [final|f|] eqn:H.
  - destruct (assignSizes_at Size _ _ _ _ H Hi) as (field' & _ & _ & Hstep).
    pose proof (assignSizes_trace Size _ _ H) as [Hlen _].
    pose proof (fill_len_field _ _ _ _ _ _ _ _ _ Hstep
                  (mix_len_field _ _ _ _ _ _ _ Hlen Hf)) as Hw.
    rewrite decide_False in Hw by done. destruct Hw as (j & Hj & _).
    rewrite scan_keep in Hj by done. by rewrite lookup_empty in Hj.
  - by eexists.
  - by apply assignSizes_no_fuel in H.
Qed.

End resolved.

Section resolved_named.
Variable Size : Arg → Z.

(** Whenever a step reads a field, that field is as it was, up to the
    length node behind it. *)
Lemma mix_target (args final : list Arg) (i j : nat) (buf : Arg) :
  assignSizes Size args = Ok final → args !! j = Some buf →
  ∃ buf', mix i final args !! j = Some buf' ∧ resized buf buf'.
Proof.
  intros H Hj. pose proof (assignSizes_trace Size _ _ H) as [Hlen _].
  rewrite mix_lookup by done. destruct (decide (j < i)%nat).
  - destruct (assignSizes_at Size _ _ _ _ H Hj) as (buf' & ? & ? & _). eauto.
  - exists buf. split; [done|apply resized_refl].
Qed.

(** The field a named length ends up as: the size generated from the
    target the map points at. *)
Lemma named_length_field (args final : list Arg) (i j : nat)
    (field x buf : Arg) (Buf : string) (bs : Z) :
  assignSizes Size args = Ok final →
  len_field args i field x Buf bs → Buf ≠ "parent" →
  named_field args Buf j buf →
  ∃ buf' t, resized buf buf' ∧ InnerArg buf' = Ok t
    ∧ final !! i
      = Some (updInner (λ _, generateSize Size t (Typ x)) field).
Proof.
  intros H Hf Hnp Hn. pose proof Hf as (Hi & _). pose proof Hn as (Hj & _).
  destruct (assignSizes_at Size _ _ _ _ H Hi) as (field' & Hi' & _ & Hstep).
  pose proof (assignSizes_trace Size _ _ H) as [Hlen _].
  pose proof (fill_len_field _ _ _ _ _ _ _ _ _ _ Hstep
                (mix_len_field _ _ _ _ _ _ _ Hlen Hf)) as Hw.
  rewrite decide_False in Hw by done. destruct Hw as (j' & Hj' & Hw).
  rewrite (scan_named Size Buf args 0 0 ∅ j buf Hn) in Hj'.
  inversion Hj'; subst j'. simpl in Hw.
  destruct (mix_target _ _ i _ _ H Hj) as (buf' & Hb & Hres).
  rewrite Hb in Hw. destruct Hw as (t & Ht & Hw).
  apply insert_same_pos in Hw;
    [|rewrite mix_length by done; by eapply lookup_lt_Some].
  subst field'. eauto.
Qed.

(** C3, as the code has it: a length field that names an array of three
    elements in twelve bytes ends up as the constant 3 with a 4-byte stride
    (12 / 4), and as the constant 3 with no stride (the element count). *)
Theorem array_length_resolution (args args' : list Arg) (i j : nat)
    (field x buf arr : Arg) (Buf : string) (bs : Z) :
  len_field args i field x Buf bs → Buf ≠ "parent" →
  named_field args Buf j buf →
  InnerArg buf = Ok (Some arr) →
  sys.Case (Typ arr) = sys.ArrayType →
  length (Inner arr) = 3%nat → Size arr = 12 →
  bs = 4 ∨ bs = 0 →
  assignSizes Size args = Ok args' →
  ∃ field', args' !! i = Some field'
    ∧ InnerArg field' = Ok (Some (constArg (Typ x) 3)).
Proof.
  intros Hf Hnp Hn Harr Hc Hcount Hsize Hbs H.
  pose proof Hf as (Hi & Hin & Hcx).
  destruct (named_length_field _ _ _ _ _ _ _ _ _ H Hf Hnp Hn)
    as (buf' & t & Hres & Ht & Hfinal).
  apply resized_InnerArg in Hres. rewrite Harr in Hres.
  destruct Hres as (arr' & Harr' & _ & Hsame).
  rewrite Hsame in Harr' by (unfold isLen; by rewrite Hc).
  rewrite Harr' in Ht. inversion Ht; subst t.
  assert (Hgen : generateSize Size (Some arr) (Typ x) = constArg (Typ x) 3).
  { unfold generateSize, ByteSize. rewrite Hc, Hcx, Hsize, Hcount.
    by destruct Hbs as [-> | ->]. }
  rewrite Hgen in Hfinal. eexists. split; [done|].
  apply (proj1 (InnerArg_updInner (λ _, constArg (Typ x) 3) field) x);
    [done|].
  simpl. by apply (InnerArg_not_ptr field x).
Qed.

End resolved_named.

Lemma array_length_resolution_witness :
  ∃ field', [leaf (mkty "n" sys.DirIn (sys.LenType "arr" 4)) ArgConst 3; arr3]
            !! 0%nat = Some field'
    ∧ InnerArg field'
      = Ok (Some (constArg (Typ (len_of "arr" 4)) 3)).
Proof.
  apply (array_length_resolution sample_Size (fields_stride 4) _ 0 1
           (len_of "arr" 4) (len_of "arr" 4) arr3 arr3 "arr" 4);
    try reflexivity; try discriminate.
  - by repeat split.
  - repeat split; try reflexivity.
    intros j' b Hlt Hb. destruct j' as [|[|j']]; try lia. discriminate.
  - by left.
Defined.

(** C3 as stated fails in its second half: with the stride declared as 0
    the length of the three-element, twelve-byte array is set to 3, the
    number of elements, not to 12. *)
Lemma stride_zero_counts_elements :
  (fields ← assignSizes sample_Size (fields_stride 0);
   Ok (Val <$> fields !! 0%nat)) = Ok (Some 3)
  ∧ sample_Size arr3 = 12 ∧ length (Inner arr3) = 3%nat
  ∧ ByteSize (Typ (len_of "arr" 0)) = 0.
Proof. repeat split; vm_compute; reflexivity. Qed.

Lemma parent_length_total_witness :
  ∃ field' x',
    [leaf (int_t "a") ArgConst 1; pointer (ptr_t "b") 0 (Some open_name);
     setVal 16 (len_of "parent" 0)] !! 2%nat = Some field'
    ∧ InnerArg field' = Ok (Some x')
    ∧ Val x' = wrap (sum_sizes sample_Size fields_parent)
    ∧ sum_sizes sample_Size fields_parent
      = sum_sizes sample_Size (take 2 fields_parent)
        + sample_Size (len_of "parent" 0)
        + sum_sizes sample_Size (drop 3 fields_parent).
Proof.
  apply (parent_length_total sample_Size fields_parent _ 2
           (len_of "parent" 0) (len_of "parent" 0) 0).
  - by repeat split.
  - vm_compute. reflexivity.
Defined.

Lemma missing_target_panics_witness :
  is_panic (assignSizes sample_Size fields_missing).
Proof.
  apply (missing_target_panics sample_Size fields_missing 1
           (len_of "b" 0) (len_of "b" 0) "b" 0).
  - by repeat split.
  - discriminate.
  - intros j b Hj _. destruct j as [|[|j]]; inversion Hj; subst b;
      discriminate.
Defined.

(** *** Running the resolution again *)

Section idempotence.
Variable Size : Arg → Z.

(** The size of a length field and of a pointer field follows from its
    type. *)
Hypothesis Size_len :
  ∀ a b, Typ a = Typ b → isLen (Typ a) = true → Size a = Size b.
Hypothesis Size_ptr :
  ∀ a b, Typ a = Typ b → isPtr (Typ a) = true → Size a = Size b.

Lemma resized_Size (a a' : Arg) : resized a a' → Size a' = Size a.
Proof.
  intros Hres. pose proof (resized_Typ _ _ Hres) as Ht.
  destruct (isPtr (Typ a)) eqn:Hp.
  - symmetry. by apply Size_ptr.
  - destruct Hres as (g & -> & Hg). rewrite updInner_end by done.
    destruct (Hg a (InnerArg_end a Hp)) as [Htg Hsame].
    destruct (isLen (Typ a)) eqn:Hl.
    + symmetry. by apply Size_len.
    + by rewrite Hsame.
Qed.

Lemma generateSize_resized (buf buf' : Arg) (t : option Arg)
    (lenType : sys.Type_) :
  resized buf buf' → InnerArg buf = Ok t →
  ∃ t', InnerArg buf' = Ok t'
        ∧ generateSize Size t' lenType = generateSize Size t lenType.
Proof.
  intros Hres Ht. apply resized_InnerArg in Hres. rewrite Ht in Hres.
  destruct t as [x|].
  - destruct Hres as (x' & Hx' & Htyp & Hsame). exists (Some x').
    split; [done|]. destruct (isLen (Typ x)) eqn:Hl.
    + assert (Hsz : Size x' = Size x)
        by (apply Size_len; [done|by rewrite Htyp]).
      unfold generateSize. rewrite Htyp, Hsz. unfold isLen in Hl.
      by destruct (sys.Case (Typ x)).
    + by rewrite Hsame.
  - destruct Hres as [Hn _]. by exists None.
Qed.

Lemma assignSizes_resized (args final : list Arg) :
  assignSizes Size args = Ok final → Forall2 resized args final.
Proof.
  intros H. pose proof (assignSizes_trace Size _ _ H) as [Hlen _].
  apply Forall2_same_length_lookup. split; [done|].
  intros i a a' Ha Ha'.
  destruct (assignSizes_at Size _ _ _ _ H Ha) as (a'' & Hi & Hres & _).
  congruence.
Qed.

Lemma foldM_fixed {A B} (f : B → A → res B) (l : list A) (b : B) :
  (∀ x, f b x = Ok b) → foldM f l b = Ok b.
Proof.
  intros Hf. induction l as [|x l IH]; simpl; [done|]. by rewrite Hf.
Qed.

Lemma updInner_twice (g : Arg → Arg) (a : Arg) :
  (∀ x, Typ (g x) = Typ x) → (∀ x, g (g x) = g x) →
  updInner g (updInner g a) = updInner g a.
Proof.
  intros Ht Hg. rewrite updInner_updInner.
  - apply updInner_ext. intros; apply Hg.
  - intros x Hx. by rewrite Ht.
Qed.

Lemma updInner_const_twice (new : Arg) (a : Arg) :
  isPtr (Typ new) = false →
  updInner (λ _, new) (updInner (λ _, new) a) = updInner (λ _, new) a.
Proof. intros Hn. by rewrite updInner_updInner. Qed.

(** C7: a second run of the resolution over the fields the first run left
    returns them as they are. *)
Theorem assignSizes_idempotent (args args' : list Arg) :
  assignSizes Size args = Ok args' →
  assignSizes Size args' = Ok args'.
Proof.
  intros H.
  pose proof (assignSizes_trace Size _ _ H) as [Hlen _].
  pose proof (assignSizes_resized _ _ H) as Hall.
  assert (Hscan : scan Size args' 0 (0, ∅) = scan Size args 0 (0, ∅)).
  { apply scan_ext. apply Forall2_flip. eapply Forall2_impl; [exact Hall|].
    intros a a' Hres. simpl. split; [by apply resized_Typ|by apply resized_Size]. }
  unfold assignSizes. rewrite Hscan.
  pose proof (scan_total Size args 0 0 ∅) as Hps. simpl in Hps.
  change (wrap 0) with 0 in Hps.
  pose proof (λ i field, assignSizes_at Size args args' i field H) as Hat.
  destruct (scan Size args 0 (0, ∅)) as [ps am]. simpl in Hps, Hat. subst ps.
  set (ps := wrap (sum_sizes Size args)) in *.
  apply foldM_fixed. intros i.
  destruct (args !! i) as [field|] eqn:Hi.
  2:{ unfold fill. rewrite (lookup_ge_None_2 args'); [done|].
      apply lookup_ge_None in Hi. lia. }
  destruct (Hat i field Hi) as (field' & Hi' & Hres & Hstep).
  assert (Hmi : mix i args' args !! i = Some field).
  { rewrite mix_lookup by done. by rewrite decide_False by lia. }
  assert (Hback : ∀ a, a = field' → <[i := a]> args' = args').
  { intros a ->. by apply list_insert_id. }
  assert (Hlt : (i < length (mix i args' args))%nat).
  { rewrite mix_length by done. by eapply lookup_lt_Some. }
  apply resized_InnerArg in Hres.
  destruct (InnerArg field) as [[x|]|f|] eqn:Hin.
  - destruct Hres as (x' & Hin' & Htyp & _).
    destruct (sys.Case (Typ x)) as [| |Buf bs| | | | | |] eqn:Hc;
      try (unfold fill; rewrite Hi', Hin'; simpl; by rewrite Htyp, Hc).
    pose proof (fill_len_field _ _ _ _ _ _ _ _ _ _ Hstep
                  (conj Hmi (conj Hin Hc))) as Hw.
    unfold fill. rewrite Hi', Hin'. simpl. rewrite Htyp, Hc.
    destruct (decide (Buf = "parent")).
    + apply insert_same_pos in Hw; [|done]. f_equal. apply Hback.
      rewrite Hw. by apply updInner_twice.
    + destruct Hw as (j & Hj & Hw). rewrite Hj.
      destruct (args' !! j) as [buf2|] eqn:Hj2; [|done].
      destruct (args !! j) as [buf0|] eqn:Hj0.
      2:{ apply lookup_ge_None in Hj0. apply lookup_lt_Some in Hj2. lia. }
      destruct (Hat j buf0 Hj0) as (buf2' & Hj2' & Hres2 & _).
      assert (buf2' = buf2) as -> by congruence.
      assert (Hread : ∃ t1 t2,
                InnerArg buf2 = Ok t2
                ∧ generateSize Size t2 (Typ x) = generateSize Size t1 (Typ x)
                ∧ field' = updInner (λ _, generateSize Size t1 (Typ x)) field).
      { rewrite mix_lookup in Hw by done.
        destruct (decide (j < i)%nat).
        - rewrite Hj2 in Hw. destruct Hw as (t1 & Ht1 & Hw).
          apply insert_same_pos in Hw; [|done]. by exists t1, t1.
        - rewrite Hj0 in Hw. destruct Hw as (t1 & Ht1 & Hw).
          apply insert_same_pos in Hw; [|done].
          destruct (generateSize_resized _ _ _ (Typ x) Hres2 Ht1)
            as (t2 & Ht2 & Hg).
          by exists t1, t2. }
      destruct Hread as (t1 & t2 & Ht2 & Hg & Hf').
      rewrite Ht2. simpl. rewrite Hg. f_equal. apply Hback.
      rewrite Hf'. apply updInner_const_twice.
      rewrite generateSize_Typ. apply isLen_not_ptr.
      unfold isLen. by rewrite Hc.
  - destruct Hres as [Hin' _]. unfold fill. by rewrite Hi', Hin'.
  - unfold fill in Hstep. rewrite Hmi, Hin in Hstep. discriminate.
  - by apply InnerArg_no_fuel in Hin.
Qed.

End idempotence.

Lemma sample_Size_len (a b : Arg) :
  Typ a = Typ b → isLen (Typ a) = true → sample_Size a = sample_Size b.
Proof.
  destruct a, b. unfold isLen. simpl. intros ->.
  by destruct (sys.Case _).
Qed.

Lemma sample_Size_ptr (a b : Arg) :
  Typ a = Typ b → isPtr (Typ a) = true → sample_Size a = sample_Size b.
Proof.
  destruct a, b. unfold isPtr. simpl. intros ->.
  by destruct (sys.Case _).
Qed.

Example fields_mixed_values :
  Val <$> fields_mixed_resolved = [3; 0; 28; 0]
  ∧ (InnerArg <$> fields_mixed_resolved !! 3%nat)
    = Some (Ok (Some (constArg (Typ (len_of "n" 0)) 4))).
Proof. split; vm_compute; reflexivity. Qed.

Lemma assignSizes_idempotent_witness :
  assignSizes sample_Size fields_mixed_resolved = Ok fields_mixed_resolved.
Proof.
  apply (assignSizes_idempotent sample_Size sample_Size_len sample_Size_ptr
           fields_mixed).
  vm_compute. reflexivity.
Defined.

(** * Further properties *)

(** ** Call sanitizer: what a sanitized call looks like *)

Lemma store_val_lookup_eq (c : Call) (i : nat) (a : Arg) (v : Z) :
  Args c !! i = Some a → Args (store_val c i a v) !! i = Some (setVal v a).
Proof.
  intros H. simpl. apply list_lookup_insert_eq. by eapply lookup_lt_Some.
Qed.

Lemma store_val_lookup_ne (c : Call) (i j : nat) (a : Arg) (v : Z) :
  i ≠ j → Args (store_val c i a v) !! j = Args c !! j.
Proof. intros H. simpl. by apply list_lookup_insert_ne. Qed.

Lemma store_val_again (c : Call) (i : nat) (a : Arg) (v v' : Z) :
  store_val (store_val c i a v) i (setVal v a) v' = store_val c i a v'.
Proof. unfold store_val. simpl. by rewrite list_insert_insert_eq. Qed.

Lemma store_val_same (c : Call) (i : nat) (a : Arg) :
  Args c !! i = Some a → store_val c i a (Val a) = c.
Proof.
  intros H. unfold store_val. rewrite setVal_same, list_insert_id by done.
  by destruct c.
Qed.

(** Case analysis that follows the [switch] of [sanitizeCall]: first on the
    name, then inside the rule that applies. *)
Ltac sanitize_rules H c :=
  unfold sanitizeCall in H;
  repeat match type of H with
  | match decide ?P with left _ => _ | right _ => _ end = _ =>
    destruct (decide P); simpl in H
  end;
  unfold index in H; repeat sanitize_case; simplify_eq.

Ltac sanitize_again :=
  unfold sanitizeCall, index; simpl;
  repeat match goal with
  | H : CallName (Meta _) = _ |- _ => rewrite H; simpl
  | H : ?l !! ?i = Some _ |- context [<[?i := _]> ?l !! ?i] =>
    rewrite (list_lookup_insert_eq l i) by (by eapply lookup_lt_Some); simpl
  | |- context [<[?i := _]> ?l !! ?j] =>
    rewrite (list_lookup_insert_ne l i j) by lia; simpl
  | H : ?l !! ?i = Some _ |- context [?l !! ?i] => rewrite H; simpl
  | |- context [decide ?P] => destruct (decide P); simpl; try done
  end.

(** X1: Sanitizing a sanitized call changes nothing. *)
Theorem sanitize_idempotent (K : sys.Consts) (c c' : Call) :
  sanitizeCall K c = Ok c' → sanitizeCall K c' = Ok c'.
Proof.
  intros H. pose proof H as H'. sanitize_rules H c; try exact H'.
  all: sanitize_again.
  all: rewrite store_val_again; try done.
  all: by rewrite <- Z.lor_assoc, Z.lor_diag.
Qed.

Lemma sanitize_idempotent_witness :
  sanitizeCall linux (store_val (call_mknod S_IFBLK 7) 1 (mode_arg S_IFBLK)
                                (sys.S_IFIFO linux))
  = Ok (store_val (call_mknod S_IFBLK 7) 1 (mode_arg S_IFBLK)
                  (sys.S_IFIFO linux)).
Proof.
  apply (sanitize_idempotent linux (call_mknod S_IFBLK 7)). reflexivity.
Defined.

Lemma lor_land_same (a b : Z) : Z.land (Z.lor a b) b = b.
Proof.
  apply Z.bits_inj'. intros n _. rewrite Z.land_spec, Z.lor_spec.
  by destruct (Z.testbit a n), (Z.testbit b n).
Qed.

Lemma lor_keeps_bits (a b : Z) (n : Z) :
  Z.testbit a n = true → Z.testbit (Z.lor a b) n = true.
Proof. intros H. by rewrite Z.lor_spec, H. Qed.

(** X2: [mmap]: the sanitizer returns exactly when the call has a pointer
    address, a page-size length and constant flags; in the call it returns
    the flags have every bit of [MAP_FIXED] set and keep every bit they
    had, and every other argument is as it was. *)
Theorem sanitize_mmap_fixed (K : sys.Consts) (c : Call) :
  CallName (Meta c) = "mmap" →
  ((∃ c', sanitizeCall K c = Ok c')
   ↔ ∃ addr len flags,
       Args c !! 0%nat = Some addr ∧ Kind addr = ArgPointer
       ∧ Args c !! 1%nat = Some len ∧ Kind len = ArgPageSize
       ∧ Args c !! 3%nat = Some flags ∧ Kind flags = ArgConst)
  ∧ (∀ c', sanitizeCall K c = Ok c' →
       ∃ flags flags',
         Args c !! 3%nat = Some flags ∧ Args c' !! 3%nat = Some flags'
         ∧ Z.land (Val flags') (sys.MAP_FIXED K) = sys.MAP_FIXED K
         ∧ (∀ n, Z.testbit (Val flags) n = true →
                 Z.testbit (Val flags') n = true)
         ∧ ∀ j, j ≠ 3%nat → Args c' !! j = Args c !! j).
Proof.
  intros Hn. split; [split|].
  - intros [c' H]. sanitize_rules H c; try congruence.
    all: eexists _, _, _; repeat split; try done;
      by apply dec_stable.
  - intros (addr & len & flags & H0 & Hk0 & H1 & Hk1 & H3 & Hk3).
    unfold sanitizeCall, index. rewrite Hn, H0, H1, H3. simpl.
    rewrite !decide_False by (by intros []). by eexists.
  - intros c' H. sanitize_rules H c; try congruence.
    all: eexists _, _; split; [done|]; split;
      [by apply store_val_lookup_eq|]; simpl;
      repeat split;
      [apply lor_land_same|intros bit; apply lor_keeps_bits
      |intros j Hj; by apply list_lookup_insert_ne].
Qed.

Lemma sanitize_mmap_fixed_witness :
  ((∃ c', sanitizeCall linux (call_mmap 1 2 34 3) = Ok c')
   ↔ ∃ addr len flags,
       Args (call_mmap 1 2 34 3) !! 0%nat = Some addr
       ∧ Kind addr = ArgPointer
       ∧ Args (call_mmap 1 2 34 3) !! 1%nat = Some len
       ∧ Kind len = ArgPageSize
       ∧ Args (call_mmap 1 2 34 3) !! 3%nat = Some flags
       ∧ Kind flags = ArgConst)
  ∧ (sanitizeCall linux (call_mmap 1 2 34 3) ≫= λ c', Ok (Val <$> Args c' !! 3%nat))
    = Ok (Some 50).
Proof.
  split.
  - apply (sanitize_mmap_fixed linux (call_mmap 1 2 34 3)). reflexivity.
  - reflexivity.
Defined.

Ltac wrong_rule :=
  exfalso;
  repeat match goal with
  | H : CallName _ = _ ∨ _ |- _ => destruct H
  | H : (CallName _ = _ ∧ _) ∨ _ |- _ => destruct H as [[? ?]|?]
  | H : CallName _ = _ ∧ _ |- _ => destruct H
  end;
  solve [congruence | tauto].

Ltac same_call c :=
  eexists _, _; split; [first [reflexivity|eassumption]|];
  split; [first [eassumption|reflexivity]|].

(** X3: [mremap]: in the call the sanitizer returns, flags with a
    [MREMAP_MAYMOVE] bit have every bit of [MREMAP_FIXED]; flags without
    one, and every other argument, are as they were. *)
Theorem sanitize_mremap_fixed (K : sys.Consts) (c c' : Call) :
  CallName (Meta c) = "mremap" →
  sanitizeCall K c = Ok c' →
  ∃ flags flags',
    Args c !! 3%nat = Some flags ∧ Args c' !! 3%nat = Some flags'
    ∧ Kind flags = ArgConst
    ∧ (Z.land (Val flags') (sys.MREMAP_MAYMOVE K) ≠ 0 →
       Z.land (Val flags') (sys.MREMAP_FIXED K) = sys.MREMAP_FIXED K)
    ∧ (Z.land (Val flags) (sys.MREMAP_MAYMOVE K) = 0 → c' = c)
    ∧ (∀ n, Z.testbit (Val flags) n = true → Z.testbit (Val flags') n = true)
    ∧ ∀ j, j ≠ 3%nat → Args c' !! j = Args c !! j.
Proof.
  intros Hn H. sanitize_rules H c; try congruence.
  all: try (eexists _, _; split; [done|]; split;
            [by apply store_val_lookup_eq|]; simpl;
            split; [by apply dec_stable|];
            repeat split;
            [intros _; apply lor_land_same|done
            |intros bit; apply lor_keeps_bits
            |intros j Hj; by apply list_lookup_insert_ne]).
  all: same_call c; split; [by apply dec_stable|];
    repeat split; try done; intros Hm; exfalso;
    apply Hm; by apply dec_stable.
Qed.

Lemma sanitize_mremap_fixed_witness :
  ∃ flags flags',
    Args (mkCall (mkMeta "mremap" "mremap")
            [vma 1; pages_len 1 0; pages_len 2 0;
             leaf (int_t "flags") ArgConst 1; vma 8] None) !! 3%nat
    = Some flags
    ∧ Args (mkCall (mkMeta "mremap" "mremap")
              [vma 1; pages_len 1 0; pages_len 2 0;
               leaf (int_t "flags") ArgConst 3; vma 8] None) !! 3%nat
      = Some flags'
    ∧ Kind flags = ArgConst
    ∧ (Z.land (Val flags') (sys.MREMAP_MAYMOVE linux) ≠ 0 →
       Z.land (Val flags') (sys.MREMAP_FIXED linux) = sys.MREMAP_FIXED linux)
    ∧ (Z.land (Val flags) (sys.MREMAP_MAYMOVE linux) = 0 →
       mkCall (mkMeta "mremap" "mremap")
         [vma 1; pages_len 1 0; pages_len 2 0;
          leaf (int_t "flags") ArgConst 3; vma 8] None
       = mkCall (mkMeta "mremap" "mremap")
           [vma 1; pages_len 1 0; pages_len 2 0;
            leaf (int_t "flags") ArgConst 1; vma 8] None)
    ∧ (∀ n, Z.testbit (Val flags) n = true → Z.testbit (Val flags') n = true)
    ∧ ∀ j, j ≠ 3%nat →
        Args (mkCall (mkMeta "mremap" "mremap")
                [vma 1; pages_len 1 0; pages_len 2 0;
                 leaf (int_t "flags") ArgConst 3; vma 8] None) !! j
        = Args (mkCall (mkMeta "mremap" "mremap")
                  [vma 1; pages_len 1 0; pages_len 2 0;
                   leaf (int_t "flags") ArgConst 1; vma 8] None) !! j.
Proof.
  apply (sanitize_mremap_fixed linux); reflexivity.
Defined.

(** X4: [mknod], [mknodat]: in the call the sanitizer returns the mode is one
    of regular file, fifo and socket; a mode that was one of them, and
    every other argument, are as they were. *)
Theorem sanitize_mknod_mode (K : sys.Consts) (c c' : Call) (pos : nat) :
  (CallName (Meta c) = "mknod" ∧ pos = 1%nat)
  ∨ (CallName (Meta c) = "mknodat" ∧ pos = 2%nat) →
  sanitizeCall K c = Ok c' →
  ∃ mode mode',
    Args c !! pos = Some mode ∧ Args c' !! pos = Some mode'
    ∧ Kind mode = ArgConst
    ∧ (Val mode' = sys.S_IFREG K ∨ Val mode' = sys.S_IFIFO K
       ∨ Val mode' = sys.S_IFSOCK K)
    ∧ (Val mode = sys.S_IFREG K ∨ Val mode = sys.S_IFIFO K
       ∨ Val mode = sys.S_IFSOCK K → c' = c)
    ∧ ∀ j, j ≠ pos → Args c' !! j = Args c !! j.
Proof.
  intros Hn H. sanitize_rules H c; try wrong_rule.
  all: destruct Hn as [[Hn ->]|[Hn ->]]; try congruence.
  all: try (eexists _, _; split; [done|]; split;
            [by apply store_val_lookup_eq|]; simpl;
            split; [by apply dec_stable|];
            repeat split;
            [by right; left|intros Hok; exfalso; naive_solver
            |intros j Hj; by apply list_lookup_insert_ne]).
  all: same_call c; split; [by apply dec_stable|];
    repeat split; try done; lia.
Qed.

Lemma sanitize_mknod_mode_witness :
  let c := call_mknodat (Z.lor S_IFBLK 0x1a4) 0 in
  let c' := store_val c 2 (mode_arg (Z.lor S_IFBLK 0x1a4)) (sys.S_IFIFO linux) in
  ∃ mode mode',
    Args c !! 2%nat = Some mode ∧ Args c' !! 2%nat = Some mode'
    ∧ Kind mode = ArgConst
    ∧ (Val mode' = sys.S_IFREG linux ∨ Val mode' = sys.S_IFIFO linux
       ∨ Val mode' = sys.S_IFSOCK linux)
    ∧ (Val mode = sys.S_IFREG linux ∨ Val mode = sys.S_IFIFO linux
       ∨ Val mode = sys.S_IFSOCK linux → c' = c)
    ∧ ∀ j, j ≠ 2%nat → Args c' !! j = Args c !! j.
Proof.
  intros c c'. apply (sanitize_mknod_mode linux c c' 2);
    [right; by split|reflexivity].
Defined.

(** X5: [exit], [exit_group]: the sanitizer returns whenever the call has an
    argument; in the call it returns the low seven bits of the code are
    neither 67 nor 68; a code that was neither, and every other argument,
    are as they were. *)
Theorem sanitize_exit_code (K : sys.Consts) (c : Call) :
  CallName (Meta c) = "exit" ∨ CallName (Meta c) = "exit_group" →
  (is_Some (Args c !! 0%nat) ↔ ∃ c', sanitizeCall K c = Ok c')
  ∧ ∀ c', sanitizeCall K c = Ok c' →
      ∃ code code',
        Args c !! 0%nat = Some code ∧ Args c' !! 0%nat = Some code'
        ∧ Z.land (Val code') 127 ≠ 67 ∧ Z.land (Val code') 127 ≠ 68
        ∧ (Z.land (Val code) 127 ≠ 67 → Z.land (Val code) 127 ≠ 68 → c' = c)
        ∧ ∀ j, j ≠ 0%nat → Args c' !! j = Args c !! j.
Proof.
  intros Hn.
  assert (Hbits : ∀ v, Z.land v 127 = v `mod` 128).
  { intros v. change 127 with (Z.ones 7). by rewrite Z.land_ones by lia. }
  split; [split|].
  - intros [code Hc]. unfold sanitizeCall, index. rewrite Hc.
    destruct Hn as [-> | ->]; simpl; destruct (decide _); by eexists.
  - intros [c' H]. sanitize_rules H c; try wrong_rule;
      by eexists.
  - intros c' H. sanitize_rules H c; try wrong_rule.
    all: try (eexists _, _; split; [done|]; split;
              [by apply store_val_lookup_eq|]; simpl;
              rewrite !Hbits; repeat split; try done;
              [intros; exfalso; naive_solver
              |intros j Hj; by apply list_lookup_insert_ne]).
    all: same_call c; rewrite !Hbits; repeat split; try done; lia.
Qed.

Lemma sanitize_exit_code_witness :
  let c := call_exit_with 195 in
  (is_Some (Args c !! 0%nat) ↔ ∃ c', sanitizeCall linux c = Ok c')
  ∧ ∃ code code',
      Args c !! 0%nat = Some code
      ∧ Args (store_val c 0 (code_arg 195) 1) !! 0%nat = Some code'
      ∧ Z.land (Val code') 127 ≠ 67 ∧ Z.land (Val code') 127 ≠ 68
      ∧ (Z.land (Val code) 127 ≠ 67 → Z.land (Val code) 127 ≠ 68 →
         store_val c 0 (code_arg 195) 1 = c)
      ∧ ∀ j, j ≠ 0%nat →
          Args (store_val c 0 (code_arg 195) 1) !! j = Args c !! j.
Proof.
  intros c.
  destruct (sanitize_exit_code linux c) as [Hret Hpost]; [by left|].
  split; [done|]. by apply Hpost.
Defined.

(** X6: [syslog]: when the command that returns the size of the unread buffer
    is neither of the two console commands, the call the sanitizer returns
    holds neither of them; any other command, and every other argument,
    are as they were. *)
Theorem sanitize_syslog_console (K : sys.Consts) (c c' : Call) :
  CallName (Meta c) = "syslog" →
  sys.SYSLOG_ACTION_SIZE_UNREAD K ≠ sys.SYSLOG_ACTION_CONSOLE_OFF K →
  sys.SYSLOG_ACTION_SIZE_UNREAD K ≠ sys.SYSLOG_ACTION_CONSOLE_ON K →
  sanitizeCall K c = Ok c' →
  ∃ cmd cmd',
    Args c !! 0%nat = Some cmd ∧ Args c' !! 0%nat = Some cmd'
    ∧ Val cmd' ≠ sys.SYSLOG_ACTION_CONSOLE_OFF K
    ∧ Val cmd' ≠ sys.SYSLOG_ACTION_CONSOLE_ON K
    ∧ (Val cmd ≠ sys.SYSLOG_ACTION_CONSOLE_OFF K →
       Val cmd ≠ sys.SYSLOG_ACTION_CONSOLE_ON K → c' = c)
    ∧ ∀ j, j ≠ 0%nat → Args c' !! j = Args c !! j.
Proof.
  intros Hn Hoff Hon H. sanitize_rules H c; try wrong_rule.
  all: try (eexists _, _; split; [done|]; split;
            [by apply store_val_lookup_eq|]; simpl;
            repeat split; try done;
            [intros; exfalso; naive_solver
            |intros j Hj; by apply list_lookup_insert_ne]).
  all: same_call c; repeat split; try done; lia.
Qed.

Lemma sanitize_syslog_console_witness :
  let c := mkCall (mkMeta "syslog" "syslog")
             [leaf (int_t "cmd") ArgConst 6; leaf (int_t "buf") ArgConst 0]
             None in
  let c' := store_val c 0 (leaf (int_t "cmd") ArgConst 6) 9 in
  ∃ cmd cmd',
    Args c !! 0%nat = Some cmd ∧ Args c' !! 0%nat = Some cmd'
    ∧ Val cmd' ≠ sys.SYSLOG_ACTION_CONSOLE_OFF linux
    ∧ Val cmd' ≠ sys.SYSLOG_ACTION_CONSOLE_ON linux
    ∧ (Val cmd ≠ sys.SYSLOG_ACTION_CONSOLE_OFF linux →
       Val cmd ≠ sys.SYSLOG_ACTION_CONSOLE_ON linux → c' = c)
    ∧ ∀ j, j ≠ 0%nat → Args c' !! j = Args c !! j.
Proof.
  intros c c'. apply (sanitize_syslog_console linux c c');
    (reflexivity || discriminate).
Defined.

(** X7: [ioctl]: when the thaw command is not the freeze command in its low 32
    bits, the command of the call the sanitizer returns is not the freeze
    command in its low 32 bits; any other command, and every other
    argument, are as they were. *)
Theorem sanitize_ioctl_freeze (K : sys.Consts) (c c' : Call) :
  CallName (Meta c) = "ioctl" →
  wrap32 (sys.FITHAW K) ≠ sys.FIFREEZE K →
  sanitizeCall K c = Ok c' →
  ∃ cmd cmd',
    Args c !! 1%nat = Some cmd ∧ Args c' !! 1%nat = Some cmd'
    ∧ wrap32 (Val cmd') ≠ sys.FIFREEZE K
    ∧ (wrap32 (Val cmd) ≠ sys.FIFREEZE K → c' = c)
    ∧ ∀ j, j ≠ 1%nat → Args c' !! j = Args c !! j.
Proof.
  intros Hn Hthaw H. sanitize_rules H c; try wrong_rule.
  all: try (eexists _, _; split; [done|]; split;
            [by apply store_val_lookup_eq|]; simpl;
            repeat split; try done;
            intros j Hj; by apply list_lookup_insert_ne).
  all: by same_call c.
Qed.

Lemma sanitize_ioctl_freeze_witness :
  let c := mkCall (mkMeta "ioctl$FIFREEZE" "ioctl")
             [leaf (int_t "fd") ArgConst 3;
              leaf (int_t "cmd") ArgConst 0xffffffffC0045877] None in
  let c' := store_val c 1 (leaf (int_t "cmd") ArgConst 0xffffffffC0045877)
                      (sys.FITHAW linux) in
  ∃ cmd cmd',
    Args c !! 1%nat = Some cmd ∧ Args c' !! 1%nat = Some cmd'
    ∧ wrap32 (Val cmd') ≠ sys.FIFREEZE linux
    ∧ (wrap32 (Val cmd) ≠ sys.FIFREEZE linux → c' = c)
    ∧ ∀ j, j ≠ 1%nat → Args c' !! j = Args c !! j.
Proof.
  intros c c'. apply (sanitize_ioctl_freeze linux c c');
    (reflexivity || discriminate).
Defined.

(** X8: [ptrace]: when the trace-me request is not the largest [uintptr], the
    request of the call the sanitizer returns is not trace-me; any other
    request, and every other argument, are as they were. *)
Theorem sanitize_ptrace_traceme (K : sys.Consts) (c c' : Call) :
  CallName (Meta c) = "ptrace" →
  sys.PTRACE_TRACEME K ≠ uintptr_max →
  sanitizeCall K c = Ok c' →
  ∃ req req',
    Args c !! 0%nat = Some req ∧ Args c' !! 0%nat = Some req'
    ∧ Val req' ≠ sys.PTRACE_TRACEME K
    ∧ (Val req ≠ sys.PTRACE_TRACEME K → c' = c)
    ∧ ∀ j, j ≠ 0%nat → Args c' !! j = Args c !! j.
Proof.
  intros Hn Hmax H. sanitize_rules H c; try wrong_rule.
  all: try (eexists _, _; split; [done|]; split;
            [by apply store_val_lookup_eq|]; simpl;
            repeat split; try done;
            intros j Hj; by apply list_lookup_insert_ne).
  all: by same_call c.
Qed.

Lemma sanitize_ptrace_traceme_witness :
  let c := mkCall (mkMeta "ptrace" "ptrace")
             [leaf (int_t "req") ArgConst 0; leaf (int_t "pid") ArgConst 1]
             None in
  let c' := store_val c 0 (leaf (int_t "req") ArgConst 0) uintptr_max in
  ∃ req req',
    Args c !! 0%nat = Some req ∧ Args c' !! 0%nat = Some req'
    ∧ Val req' ≠ sys.PTRACE_TRACEME linux
    ∧ (Val req ≠ sys.PTRACE_TRACEME linux → c' = c)
    ∧ ∀ j, j ≠ 0%nat → Args c' !! j = Args c !! j.
Proof.
  intros c c'. apply (sanitize_ptrace_traceme linux c c');
    (reflexivity || discriminate).
Defined.

(** ** Call sanitizer: when it panics *)

(** X9: A call of the rule table without arguments makes the sanitizer panic on
    the first argument it reads; a call outside the table never does. *)
Theorem sanitize_no_args (K : sys.Consts) (c : Call) :
  Args c = [] →
  if decide (CallName (Meta c) ∈
               ["mmap"; "mremap"; "mknod"; "mknodat"; "syslog"; "ioctl";
                "ptrace"; "exit"; "exit_group"])
  then sanitizeCall K c = Panic IndexOutOfRange
  else sanitizeCall K c = Ok c.
Proof.
  intros Hargs. destruct (decide _) as [Hin|Hout].
  - unfold sanitizeCall, index. rewrite Hargs.
    repeat (apply elem_of_cons in Hin as [->|Hin]; [reflexivity|]).
    by apply elem_of_nil in Hin.
  - rewrite !not_elem_of_cons in Hout.
    destruct Hout as (?&?&?&?&?&?&?&?&?&_).
    unfold sanitizeCall.
    repeat (destruct (decide _) as [Heq|]; simpl; [by try destruct Heq|]).
    done.
Qed.

Lemma sanitize_no_args_witness :
  sanitizeCall linux (mkCall (mkMeta "exit_group" "exit_group") [] None)
  = Panic IndexOutOfRange.
Proof.
  apply (sanitize_no_args linux
           (mkCall (mkMeta "exit_group" "exit_group") [] None)).
  reflexivity.
Defined.

(** X10: The kind checks: [mknod] and [mknodat] with a mode that is not a
    constant, and [mremap] with flags that are not a constant, panic with
    the message of the rule. *)
Theorem sanitize_kind_panics (K : sys.Consts) (c : Call) (pos : nat)
    (arg : Arg) :
  Args c !! pos = Some arg → Kind arg ≠ ArgConst →
  ((CallName (Meta c) = "mknod" ∧ pos = 1%nat)
   ∨ (CallName (Meta c) = "mknodat" ∧ pos = 2%nat) →
   sanitizeCall K c = Panic (BadArgKind "mknod mode is not const"))
  ∧ (CallName (Meta c) = "mremap" ∧ pos = 3%nat →
     sanitizeCall K c = Panic (BadArgKind "mremap flag arg is not const")).
Proof.
  intros Hpos Hk. split.
  - intros [[Hn ->]|[Hn ->]]; unfold sanitizeCall, index; rewrite Hn; simpl.
    + rewrite Hpos. simpl. by rewrite decide_True.
    + destruct (Args c) as [|a0 [|a1 [|a2 rest]]]; try done.
      simpl in *. inversion Hpos; subst a2. by rewrite decide_True.
  - intros [Hn ->]. unfold sanitizeCall, index. rewrite Hn. simpl.
    rewrite Hpos. simpl. by rewrite decide_True.
Qed.

Lemma sanitize_kind_panics_witness :
  sanitizeCall linux
    (mkCall (mkMeta "mknod" "mknod") [open_file; open_file] None)
  = Panic (BadArgKind "mknod mode is not const").
Proof.
  apply (proj1 (sanitize_kind_panics linux
                  (mkCall (mkMeta "mknod" "mknod") [open_file; open_file] None)
                  1 open_file eq_refl ltac:(discriminate))).
  left. by split.
Defined.

(** ** Analysis: which calls are read *)

Lemma before_prefix (c : loc) (l1 l2 : list loc) :
  c ∉ l1 → before c (l1 ++ c :: l2) = l1.
Proof.
  induction l1 as [|c1 l1 IH]; intros Hc; simpl.
  - by rewrite decide_True.
  - apply not_elem_of_cons in Hc as [Hne Hc].
    rewrite decide_False by done. by rewrite IH.
Qed.

Lemma before_absent (c : loc) (l : list loc) : c ∉ l → before c l = l.
Proof.
  induction l as [|c1 l IH]; intros Hc; simpl; [done|].
  apply not_elem_of_cons in Hc as [Hne Hc].
  rewrite decide_False by done. by rewrite IH.
Qed.

Section analyze_reads.
Context {ChoiceTable : Type}.
Variable K : sys.Consts.

Lemma analyze_loop_fold (fuel : nat) (mem : loc → Call) (c : loc)
    (calls : list loc) :
  ∀ s : @state ChoiceTable,
    analyze_loop K fuel mem calls c s
    = foldM (λ s c1, state_analyze K fuel s (mem c1)) (before c calls) s.
Proof.
  induction calls as [|c1 rest IH]; intros s; simpl; [done|].
  destruct (decide (c1 = c)); [done|]. simpl.
  destruct (state_analyze K fuel s (mem c1)); simpl; auto.
Qed.

Lemma foldM_ext_in {A B} (f g : B → A → res B) (l : list A) :
  (∀ b x, x ∈ l → f b x = g b x) → ∀ b, foldM f l b = foldM g l b.
Proof.
  induction l as [|x l IH]; intros H b; simpl; [done|].
  rewrite (H b x) by (by left).
  destruct (g b x); simpl; try done. apply IH. intros. apply H. by right.
Qed.

(** X11: [analyze] reads the calls in front of the first occurrence of [c] and
    nothing else: the calls from [c] on, and what is stored at [c] and at
    later calls, do not matter, and the result is the analysis of the
    prefix as a whole program. *)
Theorem analyze_stops_at (fuel : nat) (mem mem' : loc → Call)
    (ct : ChoiceTable) (c : loc) (l1 l2 : list loc) :
  c ∉ l1 →
  (∀ c1, c1 ∈ l1 → mem c1 = mem' c1) →
  analyze K fuel mem ct (mkProg (l1 ++ c :: l2)) c
  = analyze K fuel mem' ct (mkProg l1) c.
Proof.
  intros Hc Hmem. unfold analyze. simpl.
  rewrite !analyze_loop_fold, before_prefix, before_absent by done.
  apply foldM_ext_in. intros s c1 Hc1. by rewrite Hmem.
Qed.

(** X12: On an empty program, and when [c] is the first call, the analysis
    returns the fresh state: no resource of any kind, no string, no file,
    and every page of the table unmapped. *)
Theorem analyze_fresh (fuel : nat) (mem : loc → Call) (ct : ChoiceTable)
    (c : loc) (rest : list loc) :
  analyze K fuel mem ct (mkProg []) c = Ok (newState ct)
  ∧ analyze K fuel mem ct (mkProg (c :: rest)) c = Ok (newState ct)
  ∧ (∀ k, resources_at (newState ct) k = [])
  ∧ strings (newState ct) = ∅ ∧ files (newState ct) = ∅
  ∧ length (pages (newState ct)) = Z.to_nat maxPages
  ∧ ∀ i, 0 ≤ i < maxPages → page_is (newState ct) i false.
Proof.
  split; [done|]. split; [unfold analyze; simpl; by rewrite decide_True|].
  split; [done|]. split; [done|]. split; [done|].
  split; [apply length_replicate|].
  intros i Hi. unfold page_is.
  change (pages (newState ct)) with (replicate (Z.to_nat maxPages) false).
  apply lookup_replicate_2. lia.
Qed.

End analyze_reads.

Lemma analyze_stops_at_witness :
  analyze linux 6 sample_mem () (mkProg ([0; 1] ++ 2 :: [7; 7]))%nat 2%nat
  = analyze linux 6 (λ l, match l with
                          | O => call_open
                          | S O => call_io_submit
                          | _ => call_munmap 5000 5000
                          end) () (mkProg [0; 1]%nat) 2%nat.
Proof.
  apply (analyze_stops_at linux 6 sample_mem).
  - intros H. repeat (apply elem_of_cons in H as [H|H]; [discriminate|]).
    by apply elem_of_nil in H.
  - intros c1 H.
    repeat (apply elem_of_cons in H as [->|H]; [reflexivity|]).
    by apply elem_of_nil in H.
Defined.

(** ** Analysis: what a state keeps *)

Lemma set_pages_length (cnt : nat) :
  ∀ pg page i ok pg',
    set_pages pg page i cnt ok = Ok pg' → length pg' = length pg.
Proof.
  induction cnt as [|cnt IH]; intros pg page i ok pg' H; simpl in H.
  - by inversion H.
  - destruct (decide _); [|discriminate].
    apply IH in H. by rewrite length_insert in H.
Qed.

Section state_keeps.
Context {ChoiceTable : Type}.
Variable K : sys.Consts.

Lemma fold_observe_ct (vs : list visit) :
  ∀ s s' : @state ChoiceTable,
    foldM (visit_with observe_arg) vs s = Ok s' → ct s' = ct s.
Proof.
  induction vs as [|[[a b] p] vs IH]; intros s s' H; simpl in H.
  - by inversion H.
  - apply bind_Ok in H as [s1 [H1 H]]. apply IH in H. rewrite H.
    unfold visit_with, observe_arg in H1. simpl in H1.
    destruct (sys.Case (Typ a)) as [name|kind| | | | | | |];
      try (by inversion H1).
    + destruct (decide _); by inversion H1.
    + destruct (decide _); [|by inversion H1].
      destruct kind; by inversion H1.
Qed.

Lemma observe_iocbs_keeps (arr : Arg) (s : @state ChoiceTable) :
  ct (observe_iocbs arr s) = ct s ∧ pages (observe_iocbs arr s) = pages s.
Proof.
  unfold observe_iocbs. generalize (Inner arr). intros l. revert s.
  induction l as [|x l IH]; intros s; simpl; [done|].
  destruct (IH (if is_iocbptr x then add_resource "iocbptr" x s else s))
    as [-> ->]. by destruct (is_iocbptr x).
Qed.

Lemma addressable_keeps (s s' : @state ChoiceTable) (addr size : Arg)
    (ok : bool) :
  addressable s addr size ok = Ok s' →
  ct s' = ct s ∧ length (pages s') = length (pages s).
Proof.
  unfold addressable. intros H.
  repeat (destruct (decide _); [discriminate|]).
  apply bind_Ok in H as [pg [Hpg H]]. inversion H; subst s'. simpl.
  split; [done|]. by eapply set_pages_length.
Qed.

Lemma observe_special_keeps (c : Call) (s s' : @state ChoiceTable) :
  observe_special K c s = Ok s' →
  ct s' = ct s ∧ length (pages s') = length (pages s).
Proof.
  unfold observe_special. intros H.
  repeat match type of H with
  | context [decide (Name (Meta c) = ?n)] =>
    destruct (decide (Name (Meta c) = n))
  end.
  - apply bind_Ok in H as [len [_ H]].
    destruct (decide _); [by inversion H|].
    apply bind_Ok in H as [flags [_ H]]. apply bind_Ok in H as [fd [_ H]].
    destruct (decide _); [by inversion H|].
    apply bind_Ok in H as [addr [_ H]]. by eapply addressable_keeps.
  - apply bind_Ok in H as [addr [_ H]]. apply bind_Ok in H as [size [_ H]].
    by eapply addressable_keeps.
  - apply bind_Ok in H as [addr [_ H]]. apply bind_Ok in H as [size [_ H]].
    by eapply addressable_keeps.
  - apply bind_Ok in H as [a2 [_ H]].
    destruct (Res a2) as [arr|]; inversion H; subst s'; [|done].
    destruct (observe_iocbs_keeps arr s) as [-> ->]. done.
  - by inversion H.
Qed.

(** X13: Observing a call only adds: the choice table and the size of the page
    table stay, the resources of every kind are extended at the end, and
    no string and no file is dropped. *)
Theorem state_analyze_grows (fuel : nat) (s s' : @state ChoiceTable)
    (c : Call) :
  state_analyze K fuel s c = Ok s' →
  ct s' = ct s
  ∧ length (pages s') = length (pages s)
  ∧ (∀ k, resources_at s k `prefix_of` resources_at s' k)
  ∧ strings s ⊆ strings s'
  ∧ files s ⊆ files s'.
Proof.
  intros H. pose proof (state_analyze_gained K _ _ _ _ H) as (R & S & F).
  unfold state_analyze in H.
  apply bind_Ok in H as [[[args ret] s1] [Hwalk H]].
  apply foreachArgArray_read_only in Hwalk as (-> & -> & _ & Hwalk).
  destruct (fold_observe (subargs_array (Args c) (Ret c)) s)
    as (s1' & Hf & _ & Hp).
  rewrite Hf in Hwalk. inversion Hwalk; subst s1'.
  apply fold_observe_ct in Hf. apply observe_special_keeps in H as [Hct Hlen].
  split; [congruence|]. split; [congruence|].
  split; [intros k; rewrite R; by eexists|].
  split; intros x Hx; [apply S|apply F]; by left.
Qed.

(** X14: The state [analyze] returns carries the choice table it was given and
    a page table of [maxPages] entries. *)
Theorem analyze_state_shape (fuel : nat) (mem : loc → Call)
    (ct0 : ChoiceTable) (p : Prog) (c : loc) (s : @state ChoiceTable) :
  analyze K fuel mem ct0 p c = Ok s →
  ct s = ct0 ∧ length (pages s) = Z.to_nat maxPages.
Proof.
  unfold analyze.
  assert (Hgen : ∀ calls (s0 : @state ChoiceTable),
    analyze_loop K fuel mem calls c s0 = Ok s →
    ct s = ct s0 ∧ length (pages s) = length (pages s0)).
  { induction calls as [|c1 rest IH]; intros s0 H; simpl in H.
    - by inversion H.
    - destruct (decide (c1 = c)); [by inversion H|].
      apply bind_Ok in H as [s1 [H1 H]].
      apply state_analyze_grows in H1 as (Hct & Hlen & _).
      apply IH in H as [-> ->]. done. }
  intros H. apply Hgen in H as [-> ->]. split; [done|].
  apply length_replicate.
Qed.

End state_keeps.

Lemma state_analyze_grows_witness :
  ct sample_state = ct (newState ())
  ∧ length (pages sample_state) = length (pages (newState ()))
  ∧ (∀ k, resources_at (newState ()) k `prefix_of` resources_at sample_state k)
  ∧ strings (newState ()) ⊆ strings sample_state
  ∧ files (newState ()) ⊆ files sample_state.
Proof.
  assert (H : ∃ s1, state_analyze linux 6 (newState ()) call_open = Ok s1
                    ∧ state_analyze linux 6 s1 call_io_submit = Ok sample_state).
  { eexists. split; vm_compute; reflexivity. }
  destruct H as (s1 & H1 & H2).
  apply (state_analyze_grows linux) in H1 as (C1 & L1 & R1 & S1 & F1).
  apply (state_analyze_grows linux) in H2 as (C2 & L2 & R2 & S2 & F2).
  split; [congruence|]. split; [congruence|].
  split; [intros k; etrans; [apply R1|apply R2]|]. split; set_solver.
Defined.

Lemma analyze_state_shape_witness :
  ct sample_state = () ∧ length (pages sample_state) = Z.to_nat maxPages.
Proof.
  apply (analyze_state_shape linux 6 sample_mem () sample_prog 2%nat).
  vm_compute. reflexivity.
Defined.

(** ** Analysis: the page table *)

Section page_updates.
Context {ChoiceTable : Type}.
Variable K : sys.Consts.

(** Within the table [addressable] writes the pages of the range and
    leaves every other page and everything else in the state alone. *)
Lemma addressable_exact (s : @state ChoiceTable) (addr size : Arg) (ok : bool) :
  page_args addr size →
  AddrPage addr + page_span size ≤ maxPages →
  length (pages s) = Z.to_nat maxPages →
  ∃ pg, addressable s addr size ok = Ok (set_pages_of pg s)
    ∧ ∀ i, 0 ≤ i < maxPages →
           pg !! Z.to_nat i
           = if decide (AddrPage addr ≤ i < AddrPage addr + page_span size)
             then Some ok else pages s !! Z.to_nat i.
Proof.
  intros (Hka & Hks & Hpa & Hps) Hb Hlen. unfold addressable.
  rewrite decide_False by (intros [?|?]; done).
  rewrite (page_count_span size Hps).
  assert (0 ≤ page_span size) by (unfold page_span; destruct (decide _); lia).
  rewrite maxPages_eq in *.
  rewrite wrap_small
    by (change (2 ^ uintptr_bits) with 18446744073709551616; lia).
  rewrite decide_False by lia.
  destruct (set_pages_ok (Z.to_nat (page_span size)) (pages s) (AddrPage addr)
              0 ok) as (pg & Hrun & Hl & Hget);
    [lia|lia|rewrite maxPages_eq; lia|].
  rewrite Hrun. simpl. exists pg. split; [done|].
  intros i Hi. rewrite Hget.
  destruct (decide (AddrPage addr ≤ i < AddrPage addr + page_span size)).
  - rewrite decide_True; [done|lia].
  - rewrite decide_False; [done|lia].
Qed.

(** X15: Observing an [mmap] that the filter lets through (argument 4 has a
    [MAP_ANONYMOUS] bit or argument 3 is not the constant [InvalidFD]), or
    an [munmap], within the table: the pages of the range read mapped,
    respectively unmapped, and every other page of the table reads as
    before. *)
Theorem page_update_exact (fuel : nat) (s : @state ChoiceTable) (c : Call)
    (addr size : Arg) (ok : bool) :
  length (pages s) = Z.to_nat maxPages →
  walkable fuel c →
  page_args addr size →
  AddrPage addr + page_span size ≤ maxPages →
  (passing_mmap K c addr size ∧ ok = true)
  ∨ (unmapping_call c addr size ∧ ok = false) →
  ∃ s', state_analyze K fuel s c = Ok s'
    ∧ ∀ i, 0 ≤ i < maxPages →
           pages s' !! Z.to_nat i
           = if decide (AddrPage addr ≤ i < AddrPage addr + page_span size)
             then Some ok else pages s !! Z.to_nat i.
Proof.
  intros Hlen Hwalk Hargs Hb Hcall.
  destruct (state_analyze_walk K fuel s c Hwalk) as (s1 & -> & Hpg).
  destruct (addressable_exact s1 addr size ok Hargs Hb) as (pg & Hrun & Hget);
    [congruence|].
  rewrite Hpg in Hget.
  unfold observe_special.
  destruct Hcall as [[(Hn & H0 & H1 & a3 & a4 & H3 & H4 & Hcode) ->]
                    |[(Hn & H0 & H1) ->]]; rewrite Hn; simpl.
  - rewrite (index_Some _ _ _ H1). simpl.
    destruct (decide (AddrPage size = 0 ∧ AddrOffset size = 0))
      as [[Hz1 Hz2]|_].
    + exists s1. split; [done|]. intros i Hi. rewrite Hpg.
      rewrite decide_False; [done|].
      unfold page_span. rewrite Hz1, Hz2. simpl. lia.
    + rewrite (index_Some _ _ _ H4), (index_Some _ _ _ H3). simpl.
      rewrite decide_False by exact Hcode.
      rewrite (index_Some _ _ _ H0). simpl. rewrite Hrun. by eexists.
  - rewrite (index_Some _ _ _ H0), (index_Some _ _ _ H1). simpl.
    rewrite Hrun. by eexists.
Qed.

(** X16: Observing an [mremap] within the table marks the new range (argument 4
    with the size of argument 2) mapped and leaves every other page as it
    was, the old range included; a new range that passes the end of the
    table panics. *)
Theorem mremap_marks_new_range (fuel : nat) (s : @state ChoiceTable)
    (c : Call) (addr size : Arg) :
  length (pages s) = Z.to_nat maxPages →
  walkable fuel c →
  page_args addr size →
  remapping_call c addr size →
  (AddrPage addr + page_span size ≤ maxPages →
   ∃ s', state_analyze K fuel s c = Ok s'
     ∧ ∀ i, 0 ≤ i < maxPages →
            pages s' !! Z.to_nat i
            = if decide (AddrPage addr ≤ i < AddrPage addr + page_span size)
              then Some true else pages s !! Z.to_nat i)
  ∧ (AddrPage addr + page_span size > maxPages →
     is_panic (state_analyze K fuel s c)).
Proof.
  intros Hlen Hwalk Hargs (Hn & H4 & H2).
  destruct (state_analyze_walk K fuel s c Hwalk) as (s1 & -> & Hpg).
  assert (Hrun : observe_special K c s1 = addressable s1 addr size true).
  { unfold observe_special. rewrite Hn. simpl.
    by rewrite (index_Some _ _ _ H4), (index_Some _ _ _ H2). }
  rewrite Hrun. split.
  - intros Hb.
    destruct (addressable_exact s1 addr size true Hargs Hb)
      as (pg & -> & Hget); [congruence|].
    rewrite Hpg in Hget. by eexists.
  - intros Hb. by apply addressable_panic.
Qed.

(** X17: Every call but [mmap], [munmap] and [mremap], an [mmap] of no page and
    no offset, and an [mmap] that is skipped for its descriptor leave the
    page table as it is. *)
Theorem pages_untouched (fuel : nat) (s s' : @state ChoiceTable) (c : Call) :
  state_analyze K fuel s c = Ok s' →
  Name (Meta c) ∉ ["mmap"; "munmap"; "mremap"]
  ∨ (Name (Meta c) = "mmap"
     ∧ ∃ len, Args c !! 1%nat = Some len
              ∧ AddrPage len = 0 ∧ AddrOffset len = 0)
  ∨ (Name (Meta c) = "mmap"
     ∧ ∃ a3 a4, Args c !! 3%nat = Some a3 ∧ Args c !! 4%nat = Some a4
                ∧ invalid_backing K a4 a3) →
  pages s' = pages s.
Proof.
  intros H Hcase. unfold state_analyze in H.
  apply bind_Ok in H as [[[args ret] s1] [Hwalk H]].
  apply foreachArgArray_read_only in Hwalk as (-> & -> & _ & Hwalk).
  destruct (fold_observe (subargs_array (Args c) (Ret c)) s)
    as (s1' & Hf & _ & Hp).
  rewrite Hf in Hwalk. inversion Hwalk; subst s1'. rewrite <- Hp.
  unfold observe_special in H. simpl in H.
  destruct Hcase as [Hn|[[Hn (len & H1 & Hz)]|[Hn (a3 & a4 & H3 & H4 & Hbad)]]].
  - rewrite !not_elem_of_cons in Hn. destruct Hn as (?&?&?&_).
    rewrite !decide_False in H by done.
    destruct (decide _); [|by inversion H].
    apply bind_Ok in H as [a2 [_ H]].
    destruct (Res a2) as [arr|]; inversion H; [|done].
    apply observe_iocbs_keeps.
  - rewrite Hn in H. simpl in H. rewrite (index_Some _ _ _ H1) in H.
    simpl in H. rewrite decide_True in H by done. by inversion H.
  - rewrite Hn in H. simpl in H.
    apply bind_Ok in H as [len [_ H]].
    destruct (decide _); [by inversion H|].
    rewrite (index_Some _ _ _ H4), (index_Some _ _ _ H3) in H. simpl in H.
    rewrite decide_True in H by exact Hbad. by inversion H.
Qed.

End page_updates.

Lemma page_update_exact_witness :
  ∃ s', state_analyze linux 2 (newState ()) (call_mmap 1 2 1 uintptr_max)
        = Ok s'
    ∧ ∀ i, 0 ≤ i < maxPages →
           pages s' !! Z.to_nat i
           = if decide (AddrPage (vma 1) ≤ i
                        < AddrPage (vma 1) + page_span (pages_len 2 0))
             then Some true else pages (newState ()) !! Z.to_nat i.
Proof.
  apply (page_update_exact linux 2 (newState ())
           (call_mmap 1 2 1 uintptr_max) (vma 1) (pages_len 2 0) true).
  - reflexivity.
  - walkable_by_cases.
  - page_args_by_cases.
  - vm_compute. discriminate.
  - left. split; [|reflexivity].
    unfold passing_mmap. repeat split; try reflexivity.
    eexists _, _. repeat split; try reflexivity.
    intros (Hf & _). vm_compute in Hf. discriminate.
Defined.

Lemma mremap_marks_new_range_witness :
  (AddrPage (vma 8) + page_span (pages_len 2 0) ≤ maxPages →
   ∃ s', state_analyze linux 2 (newState ()) (call_mremap 1 1 2 8) = Ok s'
     ∧ ∀ i, 0 ≤ i < maxPages →
            pages s' !! Z.to_nat i
            = if decide (AddrPage (vma 8) ≤ i
                         < AddrPage (vma 8) + page_span (pages_len 2 0))
              then Some true else pages (newState ()) !! Z.to_nat i)
  ∧ (AddrPage (vma 8) + page_span (pages_len 2 0) > maxPages →
     is_panic (state_analyze linux 2 (newState ()) (call_mremap 1 1 2 8))).
Proof.
  apply (mremap_marks_new_range linux 2 (newState ()) (call_mremap 1 1 2 8)
           (vma 8) (pages_len 2 0)).
  - reflexivity.
  - walkable_by_cases.
  - page_args_by_cases.
  - by repeat split.
Defined.

Lemma pages_untouched_witness :
  pages sample_state = pages (newState ()).
Proof.
  assert (H : ∃ s1, state_analyze linux 6 (newState ()) call_open = Ok s1
                    ∧ state_analyze linux 6 s1 call_io_submit = Ok sample_state).
  { eexists. split; vm_compute; reflexivity. }
  destruct H as (s1 & H1 & H2).
  apply (pages_untouched linux) in H1, H2.
  - congruence.
  - left. intros H.
    repeat (apply elem_of_cons in H as [H|H]; [discriminate|]).
    by apply elem_of_nil in H.
  - left. intros H.
    repeat (apply elem_of_cons in H as [H|H]; [discriminate|]).
    by apply elem_of_nil in H.
Defined.

Section analysis_panics.
Context {ChoiceTable : Type}.
Variable K : sys.Consts.

(** X18: The failures of the special cases, for a call that can be walked:
    [munmap] on arguments that are not a pointer and a page size panics
    with "args are not pages"; [munmap] of a range that ends past the table
    (and below [2^64]) panics with "address is out of bounds"; [mmap],
    [munmap], [mremap] and [io_submit] without arguments panic on the
    first index. *)
Theorem special_case_panics (fuel : nat) (s : @state ChoiceTable) (c : Call) :
  walkable fuel c →
  (∀ addr size,
     unmapping_call c addr size →
     Kind addr ≠ ArgPointer ∨ Kind size ≠ ArgPageSize →
     state_analyze K fuel s c = Panic NotPages)
  ∧ (∀ addr size,
       unmapping_call c addr size → page_args addr size →
       maxPages < AddrPage addr + page_span size < 2 ^ uintptr_bits →
       state_analyze K fuel s c
       = Panic (OutOfBounds (AddrPage addr) (page_span size)))
  ∧ (Name (Meta c) ∈ ["mmap"; "munmap"; "mremap"; "io_submit"] →
     Args c = [] →
     state_analyze K fuel s c = Panic IndexOutOfRange).
Proof.
  intros Hwalk.
  destruct (state_analyze_walk K fuel s c Hwalk) as (s1 & -> & _).
  unfold observe_special. split; [|split].
  - intros addr size (Hn & H0 & H1) Hk. rewrite Hn. simpl.
    rewrite (index_Some _ _ _ H0), (index_Some _ _ _ H1). simpl.
    unfold addressable. by rewrite decide_True.
  - intros addr size (Hn & H0 & H1) (Hka & Hks & Hpa & Hps) Hb.
    rewrite Hn. simpl.
    rewrite (index_Some _ _ _ H0), (index_Some _ _ _ H1). simpl.
    unfold addressable. rewrite decide_False by (intros [?|?]; done).
    rewrite (page_count_span size Hps).
    assert (0 ≤ page_span size)
      by (unfold page_span; destruct (decide _); lia).
    rewrite wrap_small by lia. by rewrite decide_True by lia.
  - intros Hin Hargs. unfold index. rewrite Hargs.
    repeat (apply elem_of_cons in Hin as [->|Hin]; [reflexivity|]).
    by apply elem_of_nil in Hin.
Qed.

End analysis_panics.

Lemma special_case_panics_witness :
  state_analyze linux 2 (newState ())
    (mkCall (mkMeta "munmap" "munmap") [open_flags; pages_len 1 0] None)
  = Panic NotPages
  ∧ state_analyze linux 2 (newState ()) (call_munmap 4095 2)
    = Panic (OutOfBounds 4095 2)
  ∧ state_analyze linux 2 (newState ())
      (mkCall (mkMeta "io_submit" "io_submit") [] None)
    = Panic IndexOutOfRange.
Proof.
  split; [|split].
  - apply (proj1 (special_case_panics linux 2 (newState ())
                    (mkCall (mkMeta "munmap" "munmap")
                       [open_flags; pages_len 1 0] None)
                    ltac:(walkable_by_cases)) open_flags (pages_len 1 0)).
    + by repeat split.
    + left. discriminate.
  - apply (proj1 (proj2 (special_case_panics linux 2 (newState ())
                           (call_munmap 4095 2) ltac:(walkable_by_cases)))
             (vma 4095) (pages_len 2 0)).
    + by repeat split.
    + page_args_by_cases.
    + vm_compute. split; reflexivity.
  - apply (proj2 (proj2 (special_case_panics linux 2 (newState ())
                           (mkCall (mkMeta "io_submit" "io_submit") [] None)
                           ltac:(walkable_by_cases)))).
    + set_solver.
    + reflexivity.
Defined.

(** ** Traversal: a union without its option *)

Section nil_option.
Context {St : Type}.
Variable g : reader (St := St).
Hypothesis g_total : total_reader g.

Lemma foldM_total (l : list visit) :
  ∀ s, ∃ s', foldM (visit_with g) l s = Ok s'.
Proof.
  induction l as [|[[a b] p] l IH]; intros s; simpl; [by eexists|].
  destruct (g_total a b p s) as [s1 H1].
  change (visit_with g s (a, b, p)) with (g a b p s). rewrite H1. simpl.
  apply IH.
Qed.

Lemma each_nil_option (G : list Arg → Arg → St → res (Arg * St))
    (todo : list Arg) :
  ∀ seen s,
    (∀ cur a s, a ∈ todo →
       if options_set a then ∃ s', G cur a s = Ok (a, s')
       else G cur a s = Panic NilDeref) →
    forallb options_set todo = false →
    each G seen todo s = Panic NilDeref.
Proof.
  induction todo as [|a rest IH]; intros seen s HG Hall; [done|].
  simpl in *. pose proof (HG (seen ++ a :: rest) a s ltac:(by left)) as Ha.
  destruct (options_set a).
  - destruct Ha as [s1 ->]. simpl. apply IH; [|done].
    intros cur x s0 Hx. apply HG. by right.
  - by rewrite Ha.
Qed.

Lemma each_all_options (G : list Arg → Arg → St → res (Arg * St))
    (todo : list Arg) :
  ∀ seen s,
    (∀ cur a s, a ∈ todo → ∃ s', G cur a s = Ok (a, s')) →
    ∃ s', each G seen todo s = Ok (seen ++ todo, s').
Proof.
  induction todo as [|a rest IH]; intros seen s HG; simpl.
  - rewrite app_nil_r. by eexists.
  - destruct (HG (seen ++ a :: rest) a s ltac:(by left)) as [s1 ->]. simpl.
    destruct (IH (seen ++ [a]) s1) as [s2 H2];
      [intros; apply HG; by right|].
    rewrite <- app_assoc in H2. by eexists.
Qed.

Lemma rec_total (fuel : nat) (arg : Arg) base parent s :
  (height arg ≤ fuel)%nat → options_set arg = true →
  ∃ s', rec fuel (read_only g) arg base parent s = Ok (arg, s').
Proof.
  intros Hh Ho. rewrite rec_enough_fuel by done.
  destruct (foldM_total (subargs arg base parent) s) as [s' ->]. by eexists.
Qed.

(** With enough fuel, a walk that meets a union node without option panics
    on the nil pointer. *)
Lemma rec_nil_option (fuel : nat) :
  ∀ arg base parent s,
    (height arg ≤ fuel)%nat → options_set arg = false →
    rec fuel (read_only g) arg base parent s = Panic NilDeref.
Proof.
  induction fuel as [|fuel IH]; intros arg base parent s Hh Ho.
  { destruct arg; simpl in Hh; lia. }
  destruct arg as [t k v ap ao apn d inner r o]. simpl in Hh, Ho.
  cbn [rec].
  change (read_only g ?a base parent s)
    with (g a base parent s ≫= λ s', Ok (a, s')).
  destruct (g_total (mkArg t k v ap ao apn d inner r o) base parent s)
    as [s1 ->]. simpl.
  assert (Hchild : ∀ x, x ∈ inner → (height x ≤ fuel)%nat).
  { intros x Hx. apply height_le_foldr in Hx. lia. }
  destruct (forallb options_set inner) eqn:Hall.
  2:{ rewrite each_nil_option; [done| |done].
      intros cur a s0 Ha. destruct (options_set a) eqn:Hoa.
      - apply rec_total; auto.
      - apply IH; auto. }
  destruct (each_all_options
              (λ cur arg1 s0,
                 rec fuel (read_only g) arg1 base
                     (if isStruct t then Some cur else parent) s0)
              inner [] s1) as [s2 ->].
  { intros cur a s0 Ha. apply rec_total; [auto|].
    rewrite forallb_forall in Hall. apply Hall. by apply list_elem_of_In. }
  simpl in *.
  destruct (decide (k = ArgPointer)) as [Hk|Hk]; simpl.
  - destruct (decide (k = ArgUnion)); [congruence|].
    destruct r as [r|]; [|done].
    rewrite andb_true_r in Ho. rewrite IH; [done|lia|done].
  - destruct (decide (k = ArgUnion)) as [Hu|Hu]; [|done].
    destruct o as [o|]; [|done]. simpl.
    rewrite IH; [done|lia|done].
Qed.


End nil_option.

Lemma record_total : total_reader record.
Proof. intros a b p s. by eexists. Qed.


(** ** Traversal: base and scope of a visit *)

Lemma reachable_trans (a b c : Arg) :
  reachable a b → reachable b c → reachable a c.
Proof.
  induction 1 as [|a x y Hc _ IH]; [done|]. intros H.
  eapply reach_step; [done|]. by apply IH.
Qed.

(** ** What the callback is called with *)

Lemma subargs_root (a : Arg) (base : option Arg) (parent : option (list Arg)) :
  ∃ rest, subargs a base parent = (a, base, parent) :: rest.
Proof. destruct a. simpl. by eexists. Qed.

Lemma subargs_root_in (a : Arg) base parent :
  (a, base, parent) ∈ subargs a base parent.
Proof. destruct (subargs_root a base parent) as [rest ->]. by left. Qed.

(** The visits of a tree are closed under the steps of the walk. *)
Lemma subargs_closed (a : Arg) :
  ∀ base parent x b p,
    (x, b, p) ∈ subargs a base parent →
    (∀ y, y ∈ Inner x →
          (y, b, if isStruct (Typ x) then Some (Inner x) else p)
          ∈ subargs a base parent)
    ∧ (∀ r, Kind x = ArgPointer → Res x = Some r →
            (r, Some x, p) ∈ subargs a base parent)
    ∧ (∀ o, Kind x = ArgUnion → Option x = Some o →
            (o, b, p) ∈ subargs a base parent).
Proof.
  induction a as [a IHi IHr IHo] using Arg_tree_ind.
  intros base parent x b p Hx.
  destruct a as [t k v ap ao apn d inner r o]. simpl in *.
  rewrite Forall_forall in IHi.
  assert (Hinner : ∀ y v0, y ∈ inner →
            v0 ∈ subargs y base (if isStruct t then Some inner else parent) →
            v0 ∈ (mkArg t k v ap ao apn d inner r o, base, parent)
                 :: flat_map (λ arg1, subargs arg1 base
                                (if isStruct t then Some inner else parent))
                             inner
                 ++ (if decide (k = ArgPointer) then
                       match r with
                       | Some x0 =>
                         subargs x0 (Some (mkArg t k v ap ao apn d inner r o))
                                 parent
                       | None => []
                       end
                     else [])
                 ++ (if decide (k = ArgUnion) then
                       match o with
                       | Some x0 => subargs x0 base parent
                       | None => []
                       end
                     else [])).
  { intros y v0 Hy Hv. right. rewrite elem_of_app. left.
    apply list_elem_of_In, in_flat_map. exists y.
    split; by apply list_elem_of_In. }
  apply elem_of_cons in Hx as [Hx|Hx].
  { inversion Hx; subst; clear Hx. simpl. split; [|split].
    - intros y Hy. apply (Hinner y _ Hy). apply subargs_root_in.
    - intros r0 Hk ->. right. rewrite !elem_of_app. right. left.
      rewrite decide_True by done. apply subargs_root_in.
    - intros o0 Hk ->. right. rewrite !elem_of_app. right. right.
      rewrite decide_True by done. apply subargs_root_in. }
  rewrite !elem_of_app in Hx. destruct Hx as [Hx|[Hx|Hx]].
  - apply list_elem_of_In, in_flat_map in Hx as [y [Hy Hx]].
    apply list_elem_of_In in Hy, Hx.
    destruct (IHi y Hy _ _ _ _ _ Hx) as (H1 & H2 & H3).
    split; [|split].
    + intros z Hz. apply (Hinner y _ Hy). by apply H1.
    + intros z Hk Hz. apply (Hinner y _ Hy). by apply H2.
    + intros z Hk Hz. apply (Hinner y _ Hy). by apply H3.
  - destruct (decide (k = ArgPointer)) as [Hk|]; [|by apply elem_of_nil in Hx].
    destruct r as [y|]; [|by apply elem_of_nil in Hx].
    destruct (IHr y eq_refl _ _ _ _ _ Hx) as (H1 & H2 & H3).
    split; [|split]; intros; right; rewrite !elem_of_app; right; left; auto.
  - destruct (decide (k = ArgUnion)) as [Hk|]; [|by apply elem_of_nil in Hx].
    destruct o as [y|]; [|by apply elem_of_nil in Hx].
    destruct (IHo y eq_refl _ _ _ _ _ Hx) as (H1 & H2 & H3).
    split; [|split]; intros; right; rewrite !elem_of_app; right; right; auto.
Qed.

(** The base of a visit is the nearest pointer above the node. *)
Lemma subargs_base (a : Arg) :
  ∀ base parent x b p,
    (x, b, p) ∈ subargs a base parent →
    (b = base ∧ inside a x)
    ∨ ∃ ptr r, reachable a ptr ∧ Kind ptr = ArgPointer
               ∧ Res ptr = Some r ∧ b = Some ptr ∧ inside r x.
Proof.
  induction a as [a IHi IHr IHo] using Arg_tree_ind.
  intros base parent x b p Hx.
  destruct a as [t k v ap ao apn d inner r o]. simpl in *.
  apply elem_of_cons in Hx as [Hx|Hx].
  { inversion Hx; subst. left. split; [done|constructor]. }
  rewrite !elem_of_app in Hx. destruct Hx as [Hx|[Hx|Hx]].
  - apply list_elem_of_In, in_flat_map in Hx as [y [Hy Hx]].
    apply list_elem_of_In in Hy, Hx.
    rewrite Forall_forall in IHi.
    destruct (IHi y Hy _ _ _ _ _ Hx)
      as [[-> Hin]|(ptr & r' & Hreach & Hk & Hr & -> & Hin)].
    + left. split; [done|]. by eapply inside_inner.
    + right. exists ptr, r'. repeat split; try done.
      eapply reach_step; [by apply child_inner|done].
  - destruct (decide (k = ArgPointer)) as [Hk|]; [|by apply elem_of_nil in Hx].
    destruct r as [y|]; [|by apply elem_of_nil in Hx].
    destruct (IHr y eq_refl _ _ _ _ _ Hx)
      as [[-> Hin]|(ptr & r' & Hreach & Hk' & Hr & -> & Hin)].
    + right. eexists _, y. repeat split; try done. constructor.
    + right. exists ptr, r'. repeat split; try done.
      eapply reach_step; [by apply child_res|done].
  - destruct (decide (k = ArgUnion)) as [Hk|]; [|by apply elem_of_nil in Hx].
    destruct o as [y|]; [|by apply elem_of_nil in Hx].
    destruct (IHo y eq_refl _ _ _ _ _ Hx)
      as [[-> Hin]|(ptr & r' & Hreach & Hk' & Hr & -> & Hin)].
    + left. split; [done|]. by eapply inside_option.
    + right. exists ptr, r'. repeat split; try done.
      eapply reach_step; [by apply child_option|done].
Qed.

(** The scope of a visit is the one of the nearest struct-typed node the
    path left through [Inner]. *)
Lemma subargs_scope (a : Arg) :
  ∀ base parent x b p,
    (x, b, p) ∈ subargs a base parent →
    (p = parent ∧ same_scope a x)
    ∨ ∃ s y, reachable a s ∧ isStruct (Typ s) = true
             ∧ y ∈ Inner s ∧ same_scope y x ∧ p = Some (Inner s).
Proof.
  induction a as [a IHi IHr IHo] using Arg_tree_ind.
  intros base parent x b p Hx.
  destruct a as [t k v ap ao apn d inner r o]. simpl in *.
  apply elem_of_cons in Hx as [Hx|Hx].
  { inversion Hx; subst. left. split; [done|constructor]. }
  rewrite !elem_of_app in Hx. destruct Hx as [Hx|[Hx|Hx]].
  - apply list_elem_of_In, in_flat_map in Hx as [y [Hy Hx]].
    apply list_elem_of_In in Hy, Hx. rewrite Forall_forall in IHi.
    destruct (IHi y Hy _ _ _ _ _ Hx)
      as [[-> Hyx]|(s & z & Hreach & Hs & Hz & Hzx & ->)].
    + destruct (isStruct t) eqn:Ht.
      * right. eexists (mkArg t k v ap ao apn d inner r o), y.
        repeat split; try done. constructor.
      * left. split; [done|]. by eapply same_scope_inner.
    + right. exists s, z. repeat split; try done.
      eapply reach_step; [by apply child_inner|done].
  - destruct (decide (k = ArgPointer)) as [Hk|]; [|by apply elem_of_nil in Hx].
    destruct r as [y|]; [|by apply elem_of_nil in Hx].
    destruct (IHr y eq_refl _ _ _ _ _ Hx)
      as [[-> Hyx]|(s & z & Hreach & Hs & Hz & Hzx & ->)].
    + left. split; [done|]. by eapply same_scope_res.
    + right. exists s, z. repeat split; try done.
      eapply reach_step; [by apply child_res|done].
  - destruct (decide (k = ArgUnion)) as [Hk|]; [|by apply elem_of_nil in Hx].
    destruct o as [y|]; [|by apply elem_of_nil in Hx].
    destruct (IHo y eq_refl _ _ _ _ _ Hx)
      as [[-> Hyx]|(s & z & Hreach & Hs & Hz & Hzx & ->)].
    + left. split; [done|]. by eapply same_scope_option.
    + right. exists s, z. repeat split; try done.
      eapply reach_step; [by apply child_option|done].
Qed.

(** With enough fuel the recording walk of a tree returns the tree and the
    visits in order. *)
Lemma foreachSubargImpl_record (fuel : nat) (a : Arg)
    (parent : option (list Arg)) :
  (height a ≤ fuel)%nat → options_set a = true →
  foreachSubargImpl fuel a parent (read_only record) []
  = Ok (a, subargs a None parent).
Proof.
  intros Hh Ho. unfold foreachSubargImpl.
  rewrite rec_enough_fuel by done. by rewrite foldM_record.
Qed.

(** X20: In a walk of a tree ([foreachSubargImpl], and [foreachSubarg],
    which starts it without sibling scope) the callback is called first on
    the root with no base; the members and the selected option of a node
    are passed with the base of the node, the pointee of a pointer node
    with that pointer node as base.  So the base is the nearest pointer
    above the node: either the node lies below the root without crossing a
    pointer and there is no base, or the base is a pointer node of the tree
    and the node lies below its pointee without crossing another
    pointer. *)
Theorem visit_base (fuel : nat) (a : Arg) (parent : option (list Arg)) :
  (height a ≤ fuel)%nat → options_set a = true →
  ∃ vs,
    foreachSubargImpl fuel a parent (read_only record) [] = Ok (a, vs)
    ∧ (parent = None →
       foreachSubarg fuel a (read_only record) [] = Ok (a, vs))
    ∧ (∃ rest, vs = (a, None, parent) :: rest)
    ∧ (∀ x b p, (x, b, p) ∈ vs →
         (∀ y, y ∈ Inner x → ∃ q, (y, b, q) ∈ vs)
         ∧ (∀ r, Kind x = ArgPointer → Res x = Some r →
                 ∃ q, (r, Some x, q) ∈ vs)
         ∧ (∀ o, Kind x = ArgUnion → Option x = Some o →
                 ∃ q, (o, b, q) ∈ vs))
    ∧ (∀ x b p, (x, b, p) ∈ vs →
         (b = None ∧ inside a x)
         ∨ ∃ ptr r, reachable a ptr ∧ Kind ptr = ArgPointer
                    ∧ Res ptr = Some r ∧ b = Some ptr ∧ inside r x).
Proof.
  intros Hh Ho. exists (subargs a None parent).
  split; [by apply foreachSubargImpl_record|].
  split; [intros ->; by apply foreachSubargImpl_record|].
  split; [apply subargs_root|]. split.
  - intros x b p Hx.
    destruct (subargs_closed a _ _ _ _ _ Hx) as (H1 & H2 & H3).
    split; [|split]; intros; eexists; eauto.
  - intros x b p Hx. by apply (subargs_base a None parent x b p).
Qed.

Lemma visit_base_witness :
  ∃ vs,
    foreachSubargImpl 3 open_file (Some [open_file]) (read_only record) []
    = Ok (open_file, vs)
    ∧ (Some [open_file] = None →
       foreachSubarg 3 open_file (read_only record) [] = Ok (open_file, vs))
    ∧ (∃ rest, vs = (open_file, None, Some [open_file]) :: rest)
    ∧ (∀ x b p, (x, b, p) ∈ vs →
         (∀ y, y ∈ Inner x → ∃ q, (y, b, q) ∈ vs)
         ∧ (∀ r, Kind x = ArgPointer → Res x = Some r →
                 ∃ q, (r, Some x, q) ∈ vs)
         ∧ (∀ o, Kind x = ArgUnion → Option x = Some o →
                 ∃ q, (o, b, q) ∈ vs))
    ∧ (∀ x b p, (x, b, p) ∈ vs →
         (b = None ∧ inside open_file x)
         ∨ ∃ ptr r, reachable open_file ptr ∧ Kind ptr = ArgPointer
                    ∧ Res ptr = Some r ∧ b = Some ptr ∧ inside r x).
Proof.
  apply (visit_base 3 open_file (Some [open_file])).
  - vm_compute. lia.
  - reflexivity.
Defined.

(** X21: In a walk of a tree the callback is called first on the root with
    the sibling scope the walk was started with; the members of a
    struct-typed node are passed with the [Inner] sequence of that node,
    the members of any other node, the pointee of a pointer node and the
    selected option of a union node with the scope of the node itself.  So
    the scope is the one the walk started with for the nodes reached
    without leaving a struct-typed node through [Inner], and otherwise the
    [Inner] sequence of the nearest struct-typed node so left. *)
Theorem visit_scope (fuel : nat) (a : Arg) (parent : option (list Arg)) :
  (height a ≤ fuel)%nat → options_set a = true →
  ∃ vs,
    foreachSubargImpl fuel a parent (read_only record) [] = Ok (a, vs)
    ∧ (∃ rest, vs = (a, None, parent) :: rest)
    ∧ (∀ x b p, (x, b, p) ∈ vs →
         (∀ y, y ∈ Inner x →
               (y, b, if isStruct (Typ x) then Some (Inner x) else p) ∈ vs)
         ∧ (∀ r, Kind x = ArgPointer → Res x = Some r →
                 (r, Some x, p) ∈ vs)
         ∧ (∀ o, Kind x = ArgUnion → Option x = Some o → (o, b, p) ∈ vs))
    ∧ (∀ x b p, (x, b, p) ∈ vs →
         (p = parent ∧ same_scope a x)
         ∨ ∃ s y, reachable a s ∧ isStruct (Typ s) = true
                  ∧ y ∈ Inner s ∧ same_scope y x ∧ p = Some (Inner s)).
Proof.
  intros Hh Ho. exists (subargs a None parent).
  split; [by apply foreachSubargImpl_record|].
  split; [apply subargs_root|]. split.
  - intros x b p Hx. by apply subargs_closed.
  - intros x b p Hx. by apply (subargs_scope a None parent x b p).
Qed.

Lemma visit_scope_witness :
  let s := struct_of [len_of "parent" 0; leaf (int_t "a") ArgConst 5] in
  let ptr := pointer (ptr_t "arg") 0 (Some s) in
  ∃ vs,
    foreachSubargImpl 3 ptr (Some [ptr]) (read_only record) [] = Ok (ptr, vs)
    ∧ (∃ rest, vs = (ptr, None, Some [ptr]) :: rest)
    ∧ (∀ x b p, (x, b, p) ∈ vs →
         (∀ y, y ∈ Inner x →
               (y, b, if isStruct (Typ x) then Some (Inner x) else p) ∈ vs)
         ∧ (∀ r, Kind x = ArgPointer → Res x = Some r →
                 (r, Some x, p) ∈ vs)
         ∧ (∀ o, Kind x = ArgUnion → Option x = Some o → (o, b, p) ∈ vs))
    ∧ (∀ x b p, (x, b, p) ∈ vs →
         (p = Some [ptr] ∧ same_scope ptr x)
         ∨ ∃ s' y, reachable ptr s' ∧ isStruct (Typ s') = true
                   ∧ y ∈ Inner s' ∧ same_scope y x ∧ p = Some (Inner s')).
Proof.
  intros s ptr. apply (visit_scope 3 ptr (Some [ptr])).
  - vm_compute. lia.
  - reflexivity.
Defined.

(** ** Traversal with a callback that writes *)

Section any_callback.
Context {St : Type}.

Lemma each_pointwise (P : Arg → Arg → Prop)
    (G : list Arg → Arg → St → res (Arg * St)) (todo : list Arg) :
  ∀ seen s l s',
    (∀ cur a s a' s', G cur a s = Ok (a', s') → P a a') →
    each G seen todo s = Ok (l, s') →
    ∃ l', l = seen ++ l' ∧ Forall2 P todo l'.
Proof.
  induction todo as [|a rest IH]; intros seen s l s' HG H; simpl in H.
  - inversion H; subst. exists []. by rewrite app_nil_r.
  - apply bind_Ok in H as [[a' s1] [Ha H]].
    apply IH in H as (l' & -> & Hall); [|done].
    exists (a' :: l'). rewrite <- app_assoc. split; [done|].
    constructor; [by eapply HG|done].
Qed.

(** One level of the walk keeps the type and the kind of the node when the
    callback does. *)
Lemma rec_keeps_type (f : callback (St := St)) (fuel : nat) arg base parent
    s arg' s' :
  (∀ a b p s a' s', f a b p s = Ok (a', s') →
                    Typ a' = Typ a ∧ Kind a' = Kind a) →
  rec fuel f arg base parent s = Ok (arg', s') →
  Typ arg' = Typ arg ∧ Kind arg' = Kind arg.
Proof.
  intros Hf H. destruct fuel as [|fuel]; [discriminate|]. simpl in H.
  apply bind_Ok in H as [[a1 s1] [H1 H]]. apply Hf in H1 as [<- <-].
  apply bind_Ok in H as [[inner s2] [_ H]].
  apply bind_Ok in H as [[a2 s3] [H2 H]].
  assert (Typ a2 = Typ a1 ∧ Kind a2 = Kind a1) as [Ht Hk].
  { destruct (decide (Kind a1 = ArgPointer)); [|by inversion H2; subst].
    destruct (Res a1); [|by inversion H2; subst].
    apply bind_Ok in H2 as [[r' s4] [_ H2]]. by inversion H2; subst. }
  rewrite <- Ht, <- Hk.
  destruct (decide (Kind a2 = ArgUnion)); [|by inversion H; subst].
  destruct (Option a2); [|discriminate].
  apply bind_Ok in H as [[o' s4] [_ H]]. by inversion H; subst.
Qed.

(** A whole-call walk returns as many arguments as it was given, each of
    the type it had, and a return node exactly when it was given one,
    whenever the callback keeps types. *)
Lemma foreachArgArray_keeps_types (f : callback (St := St)) (fuel : nat)
    args ret s args' ret' s' :
  (∀ a b p s a' s', f a b p s = Ok (a', s') →
                    Typ a' = Typ a ∧ Kind a' = Kind a) →
  foreachArgArray fuel args ret f s = Ok (args', ret', s') →
  Forall2 (λ a a', Typ a' = Typ a ∧ Kind a' = Kind a) args args'
  ∧ (ret = None ↔ ret' = None).
Proof.
  intros Hf H. unfold foreachArgArray, foreachSubargImpl in H.
  apply bind_Ok in H as [[l s1] [Hargs H]].
  apply (each_pointwise (λ a a', Typ a' = Typ a ∧ Kind a' = Kind a))
    in Hargs as (l' & -> & Hall);
    [|intros; by eapply rec_keeps_type].
  destruct ret as [r|].
  - apply bind_Ok in H as [[r' s2] [_ H]]. inversion H; subst.
    split; [done|]. split; discriminate.
  - by inversion H; subst.
Qed.

End any_callback.

Section call_resolution.
Variable Size : Arg → Z.

Lemma resize_struct_keeps (a : Arg) b p s a' s' :
  resize_struct Size a b p s = Ok (a', s') →
  Typ a' = Typ a ∧ Kind a' = Kind a.
Proof.
  unfold resize_struct. destruct (isStruct (Typ a)); [|by inversion 1].
  intros H. apply bind_Ok in H as [inner [_ H]]. by inversion H.
Qed.

(** X22: The resolution of a call keeps its descriptor, the number of its
    arguments and the type of each of them. *)
Theorem assignSizesCall_shape (fuel : nat) (c c' : Call) :
  assignSizesCall Size fuel c = Ok c' →
  Meta c' = Meta c
  ∧ Forall2 (λ a a', Typ a' = Typ a) (Args c) (Args c').
Proof.
  unfold assignSizesCall. intros H.
  apply bind_Ok in H as [args [Hargs H]].
  apply bind_Ok in H as [[c1 u] [H1 H2]]. inversion H2; subst c1.
  unfold foreachArg in H1.
  apply bind_Ok in H1 as [[[args' ret'] u'] [Hwalk H1]].
  inversion H1; subst. simpl. split; [done|].
  apply foreachArgArray_keeps_types in Hwalk as [Hall _];
    [|apply resize_struct_keeps].
  simpl in Hall.
  pose proof (assignSizes_trace Size _ _ Hargs) as [Hlen _].
  apply Forall2_same_length_lookup. split.
  - apply Forall2_length in Hall. congruence.
  - intros i a a' Ha Ha'.
    destruct (assignSizes_at Size _ _ _ _ Hargs Ha) as (a1 & Ha1 & Hres & _).
    rewrite Forall2_lookup in Hall. specialize (Hall i).
    rewrite Ha1, Ha' in Hall. inversion Hall as [? ? [Ht _]|]; subst.
    rewrite Ht. by apply resized_Typ.
Qed.

End call_resolution.

Lemma assignSizesCall_shape_witness :
  Meta call_struct_resolved = Meta call_struct
  ∧ Forall2 (λ a a', Typ a' = Typ a) (Args call_struct)
            (Args call_struct_resolved).
Proof.
  apply (assignSizesCall_shape sample_Size 4). vm_compute. reflexivity.
Defined.

(** ** Size resolution: what it leaves alone *)

Lemma resized_not_len (a a' : Arg) :
  resized a a' →
  (∀ x, InnerArg a = Ok (Some x) → isLen (Typ x) = false) →
  a' = a.
Proof.
  intros (g & -> & Hg) Hno.
  rewrite <- (updInner_id a) at 2. apply updInner_ext.
  intros x Hx. apply Hg; [done|]. by apply Hno.
Qed.

Section resolution_frame.
Variable Size : Arg → Z.

(** X23: The resolution returns as many fields as it was given, in the same
    positions and of the same types; a field behind which there is no
    length node comes back as it was.  In particular a sequence without
    length nodes comes back unchanged. *)
Theorem assignSizes_frame (args final : list Arg) :
  assignSizes Size args = Ok final →
  length final = length args
  ∧ (∀ i field,
       args !! i = Some field →
       ∃ field', final !! i = Some field' ∧ Typ field' = Typ field
         ∧ ((∀ x, InnerArg field = Ok (Some x) → isLen (Typ x) = false) →
            field' = field))
  ∧ ((∀ i field x, args !! i = Some field → InnerArg field = Ok (Some x) →
                   isLen (Typ x) = false) →
     final = args).
Proof.
  intros H. pose proof (assignSizes_trace Size _ _ H) as [Hlen _].
  assert (Hat : ∀ i field,
    args !! i = Some field →
    ∃ field', final !! i = Some field' ∧ Typ field' = Typ field
      ∧ ((∀ x, InnerArg field = Ok (Some x) → isLen (Typ x) = false) →
         field' = field)).
  { intros i field Hi.
    destruct (assignSizes_at Size _ _ _ _ H Hi) as (field' & Hi' & Hres & _).
    exists field'. split; [done|]. split; [by apply resized_Typ|].
    by apply resized_not_len. }
  split; [done|]. split; [done|]. intros Hno.
  apply list_eq_same_length with (length args); [done..|].
  intros i x y Hi Hx Hy.
  destruct (Hat i y Hy) as (x' & Hx' & _ & Hsame).
  rewrite Hsame in Hx' by (intros; by eapply Hno). congruence.
Qed.

End resolution_frame.

Lemma assignSizes_frame_witness :
  length fields_mixed_resolved = length fields_mixed
  ∧ (∀ i field,
       fields_mixed !! i = Some field →
       ∃ field', fields_mixed_resolved !! i = Some field'
         ∧ Typ field' = Typ field
         ∧ ((∀ x, InnerArg field = Ok (Some x) → isLen (Typ x) = false) →
            field' = field))
  ∧ ((∀ i field x, fields_mixed !! i = Some field →
                   InnerArg field = Ok (Some x) → isLen (Typ x) = false) →
     fields_mixed_resolved = fields_mixed).
Proof.
  apply (assignSizes_frame sample_Size). vm_compute. reflexivity.
Defined.

(** ** Size resolution: the value of a named length *)

Section named_value.
Variable Size : Arg → Z.

(** X24: A length that names a field whose node is not itself a length ends up
    as the size generated from that node as it was before the resolution:
    the constant 0 when the field is an absent optional pointer, a
    page-size node with the page count of a memory region, for an array
    its byte size divided by the stride or, without stride, its number of
    elements, and the byte size of anything else. *)
Theorem named_length_value (args final : list Arg) (i j : nat)
    (field x buf : Arg) (Buf : string) (bs : Z) (t : option Arg) :
  len_field args i field x Buf bs → Buf ≠ "parent" →
  named_field args Buf j buf →
  InnerArg buf = Ok t →
  (∀ y, t = Some y → isLen (Typ y) = false) →
  assignSizes Size args = Ok final →
  ∃ field' new,
    final !! i = Some field' ∧ InnerArg field' = Ok (Some new)
    ∧ new = generateSize Size t (Typ x)
    ∧ (t = None → new = constArg (Typ x) 0)
    ∧ (∀ y, t = Some y → sys.Case (Typ y) = sys.VmaType →
            new = pageSizeArg (Typ x) (AddrPagesNum y) 0)
    ∧ (∀ y, t = Some y → sys.Case (Typ y) = sys.ArrayType →
            new = if decide (bs ≠ 0) then constArg (Typ x) (Size y / bs)
                  else constArg (Typ x) (Z.of_nat (length (Inner y))))
    ∧ (∀ y, t = Some y → sys.Case (Typ y) ≠ sys.VmaType →
            sys.Case (Typ y) ≠ sys.ArrayType →
            new = constArg (Typ x) (Size y)).
Proof.
  intros Hf Hnp Hn Ht Hnolen H. pose proof Hf as (Hi & Hin & Hcx).
  destruct (named_length_field _ _ _ _ _ _ _ _ _ _ H Hf Hnp Hn)
    as (buf' & t' & Hres & Ht' & Hfinal).
  assert (t' = t) as ->.
  { apply resized_InnerArg in Hres. rewrite Ht in Hres.
    destruct t as [y|].
    - destruct Hres as (y' & Hy' & _ & Hsame).
      rewrite Hsame in Hy' by (by apply Hnolen). congruence.
    - destruct Hres as [Hn' _]. congruence. }
  eexists _, (generateSize Size t (Typ x)). split; [done|].
  split.
  { apply (proj1 (InnerArg_updInner (λ _, generateSize Size t (Typ x)) field) x);
      [done|].
    rewrite generateSize_Typ. by apply (InnerArg_not_ptr field x). }
  split; [done|]. unfold generateSize, ByteSize. rewrite Hcx.
  split; [by intros ->|]. split; [by intros y -> ->|].
  split; [by intros y -> ->|].
  intros y -> Hv Ha. by destruct (sys.Case (Typ y)).
Qed.

End named_value.

Lemma named_length_value_witness :
  ∃ field' new,
    [pageSizeArg (Typ (len_of "addr" 0)) 3 0; region] !! 0%nat = Some field'
    ∧ InnerArg field' = Ok (Some new)
    ∧ new = generateSize sample_Size (Some region) (Typ (len_of "addr" 0))
    ∧ (Some region = None → new = constArg (Typ (len_of "addr" 0)) 0)
    ∧ (∀ y, Some region = Some y → sys.Case (Typ y) = sys.VmaType →
            new = pageSizeArg (Typ (len_of "addr" 0)) (AddrPagesNum y) 0)
    ∧ (∀ y, Some region = Some y → sys.Case (Typ y) = sys.ArrayType →
            new = if decide (0 ≠ 0)
                  then constArg (Typ (len_of "addr" 0)) (sample_Size y / 0)
                  else constArg (Typ (len_of "addr" 0))
                                (Z.of_nat (length (Inner y))))
    ∧ (∀ y, Some region = Some y → sys.Case (Typ y) ≠ sys.VmaType →
            sys.Case (Typ y) ≠ sys.ArrayType →
            new = constArg (Typ (len_of "addr" 0)) (sample_Size y)).
Proof.
  apply (named_length_value sample_Size fields_region _ 0 1
           (len_of "addr" 0) (len_of "addr" 0) region "addr" 0 (Some region));
    try reflexivity; try discriminate.
  - by repeat split.
  - repeat split; try reflexivity.
    intros j' b Hlt Hb. destruct j' as [|[|j']]; try lia. discriminate.
  - intros y Hy. inversion Hy; subst y. reflexivity.
Defined.

(** ** Size resolution: when it returns *)

Lemma keeps_node_refl (a : Arg) : keeps_node a a.
Proof.
  unfold keeps_node. destruct (InnerArg a) as [[x|]| |]; eauto.
Qed.

Lemma keeps_node_trans (a b c : Arg) :
  keeps_node a b → keeps_node b c → keeps_node a c.
Proof.
  unfold keeps_node. intros Hab Hbc.
  destruct (InnerArg a) as [[x|]| |].
  - destruct Hab as (y & Hy & Hty). rewrite Hy in Hbc.
    destruct Hbc as (z & Hz & Htz). exists z. split; [done|]. congruence.
  - by rewrite Hab in Hbc.
  - by rewrite Hab in Hbc.
  - by rewrite Hab in Hbc.
Qed.

Lemma resized_keeps_node (a a' : Arg) : resized a a' → keeps_node a a'.
Proof.
  intros H. apply resized_InnerArg in H. unfold keeps_node.
  destruct (InnerArg a) as [[x|]| |].
  - destruct H as (x' & ? & ? & _). eauto.
  - by destruct H.
  - by destruct H.
  - by destruct H.
Qed.

Section resolution_returns.
Variable Size : Arg → Z.

Lemma scan_defined (n : string) (args : list Arg) :
  ∀ k acc,
    (∃ j, (scan Size args k acc).2 !! n = Some (k + j)%nat
          ∧ (j < length args)%nat)
    ∨ ((scan Size args k acc).2 !! n = acc.2 !! n
       ∧ ∀ j b, args !! j = Some b → sys.IsPad (Typ b) = false →
                sys.Name (Typ b) ≠ n).
Proof.
  induction args as [|a rest IH]; intros k acc; simpl.
  { right. split; [done|]. intros j b Hj. by destruct j. }
  destruct (IH (S k) (wrap (acc.1 + Size a),
                      if sys.IsPad (Typ a) then acc.2
                      else <[sys.Name (Typ a) := k]> acc.2))
    as [(j & Hj & Hlt) | [Heq Hnone]].
  - left. exists (S j). split; [|lia]. rewrite Hj. f_equal. lia.
  - rewrite Heq. simpl. destruct (sys.IsPad (Typ a)) eqn:Hpad.
    + right. split; [done|]. intros [|j] b Hb Hp; simpl in Hb.
      * inversion Hb; subst b. congruence.
      * by eapply Hnone.
    + destruct (decide (sys.Name (Typ a) = n)) as [Hn | Hn].
      * left. exists 0%nat. rewrite Hn, lookup_insert_eq.
        split; [f_equal; lia | lia].
      * rewrite lookup_insert_ne by done.
        right. split; [done|]. intros [|j] b Hb Hp; simpl in Hb.
        -- by inversion Hb; subst b.
        -- by eapply Hnone.
Qed.

Lemma fill_returns (ps : Z) (am : gmap string nat) (args cur : list Arg)
    (i : nat) :
  (∀ j field, args !! j = Some field → ∃ t, InnerArg field = Ok t) →
  (∀ j field x Buf bs, len_field args j field x Buf bs → Buf ≠ "parent" →
     ∃ p, am !! Buf = Some p ∧ (p < length args)%nat) →
  Forall2 keeps_node args cur →
  ∃ cur', fill Size ps am cur i = Ok cur' ∧ Forall2 keeps_node args cur'.
Proof.
  intros Hin Ham Hcur. unfold fill.
  destruct (cur !! i) as [field'|] eqn:Hi'; [|by eexists].
  destruct (Forall2_lookup_r _ _ _ _ _ Hcur Hi') as (field & Hi & Hk).
  assert (Hstep : ∀ a', resized field' a' →
            Forall2 keeps_node args (<[i := a']> cur)).
  { intros a' Hres. rewrite <- (list_insert_id args i field) by done.
    apply Forall2_insert; [done|].
    eapply keeps_node_trans; [done|]. by apply resized_keeps_node. }
  destruct (Hin i field Hi) as [t Ht]. unfold keeps_node in Hk.
  rewrite Ht in Hk. destruct t as [x|]; [|rewrite Hk; by eexists].
  destruct Hk as (x' & Hx' & Hty). rewrite Hx'. simpl.
  destruct (sys.Case (Typ x')) as [| |Buf bs| | | | | |] eqn:Hc;
    try by eexists.
  destruct (decide (Buf = "parent")) as [Hp | Hp].
  { eexists. split; [done|]. apply Hstep.
    exists (setVal ps). split; [done|]. intros y Hy. split; [done|].
    rewrite Hx' in Hy. inversion Hy; subst y. unfold isLen. by rewrite Hc. }
  destruct (Ham i field x Buf bs) as (p & Hp1 & Hp2); [|done|].
  { split; [done|]. split; [done|]. by rewrite <- Hty. }
  rewrite Hp1.
  destruct (cur !! p) as [buf'|] eqn:Hbuf'; [|by eexists].
  destruct (Forall2_lookup_r _ _ _ _ _ Hcur Hbuf') as (buf & Hbuf & Hkb).
  destruct (Hin p buf Hbuf) as [tb Htb]. unfold keeps_node in Hkb.
  rewrite Htb in Hkb.
  assert (∃ tb', InnerArg buf' = Ok tb') as [tb' Htb'].
  { destruct tb as [y|]; [destruct Hkb as (y' & ? & _)|]; eauto. }
  rewrite Htb'. simpl. eexists. split; [done|]. apply Hstep.
  exists (λ _, generateSize Size tb' (Typ x')). split; [done|].
  intros y Hy. rewrite Hx' in Hy. inversion Hy; subst y.
  rewrite generateSize_Typ. split; [done|]. unfold isLen. by rewrite Hc.
Qed.

(** X25: The resolution returns, without failure, when no field is a missing
    pointer that is not optional and every length that does not name the
    parent names a field of the sequence that is not padding. *)
Theorem assignSizes_returns (args : list Arg) :
  (∀ j field, args !! j = Some field → ∃ t, InnerArg field = Ok t) →
  (∀ j field x Buf bs, len_field args j field x Buf bs → Buf ≠ "parent" →
     ∃ p b, args !! p = Some b ∧ sys.IsPad (Typ b) = false
            ∧ sys.Name (Typ b) = Buf) →
  ∃ final, assignSizes Size args = Ok final.
Proof.
  intros Hin Hnamed. unfold assignSizes.
  destruct (scan Size args 0 (0, ∅)) as [ps am] eqn:Hscan.
  assert (Ham : ∀ j field x Buf bs,
            len_field args j field x Buf bs → Buf ≠ "parent" →
            ∃ p, am !! Buf = Some p ∧ (p < length args)%nat).
  { intros j field x Buf bs Hf Hp.
    destruct (Hnamed j field x Buf bs Hf Hp) as (p & b & Hb & Hpad & Hname).
    destruct (scan_defined Buf args 0 (0, ∅)) as [(q & Hq & Hlt) | [_ Hnone]].
    - rewrite Hscan in Hq. simpl in Hq. eauto.
    - by destruct (Hnone p b Hb Hpad). }
  assert (Hloop : ∀ l cur, Forall2 keeps_node args cur →
            ∃ final, foldM (fill Size ps am) l cur = Ok final).
  { induction l as [|i l IH]; intros cur Hcur; simpl; [by eexists|].
    destruct (fill_returns ps am args cur i Hin Ham Hcur) as (cur' & -> & Hcur').
    simpl. by apply IH. }
  apply Hloop. apply Forall2_same_length_lookup. split; [done|].
  intros i a b Ha Hb. assert (a = b) as -> by congruence.
  apply keeps_node_refl.
Qed.

End resolution_returns.

Lemma assignSizes_returns_witness :
  ∃ final, assignSizes sample_Size fields_mixed = Ok final.
Proof.
  apply (assignSizes_returns sample_Size fields_mixed).
  - intros [|[|[|[|j]]]] field Hj; simpl in Hj; inversion Hj; subst field;
      by eexists.
  - intros j field x Buf bs (Hj & Hx & Hc) Hp.
    destruct j as [|[|[|[|j]]]]; simpl in Hj; inversion Hj; subst field;
      vm_compute in Hx; inversion Hx; subst x;
      vm_compute in Hc; inversion Hc; subst Buf bs.
    + exists 1%nat, arr3. by repeat split.
    + by destruct Hp.
    + exists 2%nat. eexists. by repeat split.
Defined.

(** ** Page table: mapping, then unmapping *)

(** X26: An [mmap] that the filter lets through, on a pointer and a
    page-size argument whose range lies within the table, returns a state
    in which every page of the range reads mapped, and an [munmap] of the
    same range observed in that state returns one in which every page of
    the range reads unmapped.  Such an [mmap] of at least one page whose
    range passes the end of the table panics. *)
Theorem map_unmap_round_trip {ChoiceTable : Type} (K : sys.Consts)
    (fuel : nat) (s : @state ChoiceTable) (c : Call) (addr size : Arg) :
  length (pages s) = Z.to_nat maxPages →
  walkable fuel c →
  page_args addr size →
  passing_mmap K c addr size →
  (AddrPage addr + page_span size ≤ maxPages →
   ∃ s', state_analyze K fuel s c = Ok s'
     ∧ (∀ i, AddrPage addr ≤ i < AddrPage addr + page_span size →
             page_is s' i true)
     ∧ ∀ fuel2 c2 addr2 size2,
         walkable fuel2 c2 → page_args addr2 size2 →
         unmapping_call c2 addr2 size2 →
         AddrPage addr2 = AddrPage addr → page_span size2 = page_span size →
         ∃ s'', state_analyze K fuel2 s' c2 = Ok s''
           ∧ ∀ i, AddrPage addr ≤ i < AddrPage addr + page_span size →
                  page_is s'' i false)
  ∧ (0 < page_span size →
     AddrPage addr + page_span size > maxPages →
     is_panic (state_analyze K fuel s c)).
Proof.
  intros Hlen Hwalk Hargs (Hn & H0 & H1 & a3 & a4 & H3 & H4 & Hcode).
  destruct (state_analyze_walk K fuel s c Hwalk) as (s1 & Hrun & Hpg).
  split.
  - intros Hb.
    assert (Hfinal : ∃ s', state_analyze K fuel s c = Ok s'
              ∧ length (pages s') = Z.to_nat maxPages
              ∧ ∀ i, AddrPage addr ≤ i < AddrPage addr + page_span size →
                     page_is s' i true).
    { rewrite Hrun. unfold observe_special. rewrite Hn. simpl.
      rewrite (index_Some _ _ _ H1). simpl.
      destruct (decide (AddrPage size = 0 ∧ AddrOffset size = 0))
        as [[Hz1 Hz2]|_].
      - exists s1. split; [done|]. split; [congruence|].
        unfold page_span. rewrite Hz1, Hz2. simpl. intros i Hi. lia.
      - rewrite (index_Some _ _ _ H4), (index_Some _ _ _ H3). simpl.
        rewrite decide_False by exact Hcode.
        rewrite (index_Some _ _ _ H0). simpl.
        apply addressable_ok; [done..|congruence]. }
    destruct Hfinal as (s' & Hs' & Hlen' & Hmapped).
    exists s'. split; [done|]. split; [done|].
    intros fuel2 c2 addr2 size2 Hw2 Hargs2 (Hn2 & H02 & H12) Hp Hsp.
    destruct (state_analyze_walk K fuel2 s' c2 Hw2) as (s3 & Hr3 & Hp3).
    rewrite Hr3. unfold observe_special. rewrite Hn2. simpl.
    rewrite (index_Some _ _ _ H02), (index_Some _ _ _ H12). simpl.
    rewrite <- Hp, <- Hsp.
    destruct (addressable_ok s3 addr2 size2 false Hargs2) as (s4 & ? & _ & ?);
      [lia|congruence|]. eauto.
  - intros Hpos Hb. rewrite Hrun. unfold observe_special. rewrite Hn. simpl.
    rewrite (index_Some _ _ _ H1). simpl.
    rewrite decide_False.
    2:{ intros [Hz1 Hz2]. unfold page_span in Hpos.
        rewrite Hz1, Hz2 in Hpos. simpl in Hpos. lia. }
    rewrite (index_Some _ _ _ H4), (index_Some _ _ _ H3). simpl.
    rewrite decide_False by exact Hcode.
    rewrite (index_Some _ _ _ H0). simpl.
    by apply addressable_panic.
Qed.

Lemma map_unmap_round_trip_witness :
  (∃ s', state_analyze linux 2 (newState ()) (call_mmap 1 2 1 uintptr_max)
         = Ok s'
     ∧ page_is s' 1 true ∧ page_is s' 2 true
     ∧ ∃ s'', state_analyze linux 2 s' (call_munmap 1 2) = Ok s''
         ∧ page_is s'' 1 false ∧ page_is s'' 2 false)
  ∧ is_panic (state_analyze linux 2 (newState ())
                (call_mmap 4095 2 1 uintptr_max)).
Proof.
  assert (Hlen : length (pages (newState ())) = Z.to_nat maxPages)
    by reflexivity.
  assert (Hargs : ∀ p, 0 ≤ p < 4096 → page_args (vma p) (pages_len 2 0))
    by (intros p Hp; page_args_by_cases).
  assert (Hpass : ∀ p, passing_mmap linux (call_mmap p 2 1 uintptr_max)
                         (vma p) (pages_len 2 0)).
  { intros p. unfold passing_mmap. repeat split; try reflexivity.
    eexists _, _. repeat split; try reflexivity.
    intros (Hf & _). vm_compute in Hf. discriminate. }
  assert (Hrange : ∀ i, 1 ≤ i ≤ 2 →
            AddrPage (vma 1) ≤ i < AddrPage (vma 1) + page_span (pages_len 2 0))
    by (intros i Hi; unfold page_span; simpl; lia).
  split.
  - assert (Hw : walkable 2 (call_mmap 1 2 1 uintptr_max))
      by walkable_by_cases.
    destruct (map_unmap_round_trip linux 2 (newState ())
                (call_mmap 1 2 1 uintptr_max) (vma 1) (pages_len 2 0)
                Hlen Hw (Hargs 1 ltac:(lia)) (Hpass 1)) as [Hmap _].
    destruct Hmap as (s' & Hs' & Hmapped & Hthen);
      [vm_compute; discriminate|].
    exists s'. split; [done|].
    split; [apply Hmapped, Hrange; lia|].
    split; [apply Hmapped, Hrange; lia|].
    assert (Hw2 : walkable 2 (call_munmap 1 2)) by walkable_by_cases.
    destruct (Hthen 2%nat (call_munmap 1 2) (vma 1) (pages_len 2 0) Hw2
                (Hargs 1 ltac:(lia)))
      as (s'' & Hs'' & Hun); [by repeat split|done..|].
    exists s''. split; [done|]. split; apply Hun, Hrange; lia.
  - assert (Hw : walkable 2 (call_mmap 4095 2 1 uintptr_max))
      by walkable_by_cases.
    destruct (map_unmap_round_trip linux 2 (newState ())
                (call_mmap 4095 2 1 uintptr_max) (vma 4095) (pages_len 2 0)
                Hlen Hw (Hargs 4095 ltac:(lia)) (Hpass 4095)) as [_ Hpanic].
    apply Hpanic; [vm_compute|]; reflexivity.
Defined.

(** * The sanitizer: rewritten values and frame *)

(** C8, as the code has it: a device-node creation whose mode is a constant
    node holding none of regular file, fifo, socket comes back with the
    fifo mode, whatever the other arguments are; on a mode that is not a
    constant node the sanitizer panics; an exit whose code has 67 or 68 in
    its low seven bits comes back with code 1. *)
Theorem sanitize_mknod_exit (K : sys.Consts) (c : Call) :
  (∀ pos mode,
     (CallName (Meta c) = "mknod" ∧ pos = 1%nat)
     ∨ (CallName (Meta c) = "mknodat" ∧ pos = 2%nat) →
     Args c !! pos = Some mode →
     (Kind mode = ArgConst →
      Val mode ≠ sys.S_IFREG K → Val mode ≠ sys.S_IFIFO K →
      Val mode ≠ sys.S_IFSOCK K →
      ∃ c' mode',
        sanitizeCall K c = Ok c'
        ∧ Args c' !! pos = Some mode' ∧ Val mode' = sys.S_IFIFO K
        ∧ ∀ j, j ≠ pos → Args c' !! j = Args c !! j)
     ∧ (Kind mode ≠ ArgConst →
        sanitizeCall K c = Panic (BadArgKind "mknod mode is not const")))
  ∧ (∀ code,
       CallName (Meta c) = "exit" ∨ CallName (Meta c) = "exit_group" →
       Args c !! 0%nat = Some code →
       Z.land (Val code) 127 = 67 ∨ Z.land (Val code) 127 = 68 →
       ∃ c' code',
         sanitizeCall K c = Ok c'
         ∧ Args c' !! 0%nat = Some code' ∧ Val code' = 1
         ∧ ∀ j, j ≠ 0%nat → Args c' !! j = Args c !! j).
Proof.
  split.
  - intros pos mode Hname Hpos.
    assert (Hrun : sanitizeCall K c
              = if decide (Kind mode ≠ ArgConst)
                then Panic (BadArgKind "mknod mode is not const")
                else if decide (Val mode ≠ sys.S_IFREG K
                                ∧ Val mode ≠ sys.S_IFIFO K
                                ∧ Val mode ≠ sys.S_IFSOCK K)
                then Ok (store_val c pos mode (sys.S_IFIFO K))
                else Ok c).
    { unfold sanitizeCall.
      destruct Hname as [[Hn ->]|[Hn ->]]; rewrite Hn; simpl.
      - by rewrite (index_Some _ _ _ Hpos).
      - destruct (Args c) as [|a0 [|a1 [|a2 rest]]] eqn:E; try done.
        simpl in Hpos. by inversion Hpos; subst a2. }
    rewrite Hrun. split.
    + intros Hk H1 H2 H3. rewrite decide_False by (by intros []).
      rewrite decide_True by done.
      eexists _, _. split; [done|]. split; [by apply store_val_lookup_eq|].
      split; [done|]. intros j Hj. by apply store_val_lookup_ne.
    + intros Hk. by rewrite decide_True.
  - intros code Hname Hpos Hbits.
    change 127 with (Z.ones 7) in Hbits.
    rewrite Z.land_ones in Hbits by lia. change (2 ^ 7) with 128 in Hbits.
    exists (store_val c 0 code 1), (setVal 1 code).
    split; [|split; [by apply store_val_lookup_eq|split; [done|]]].
    + unfold sanitizeCall.
      destruct Hname as [Hn|Hn]; rewrite Hn; simpl;
        rewrite (index_Some _ _ _ Hpos); simpl;
        (destruct (decide _) as [|Hno]; [done|by destruct Hno]).
    + intros j Hj. by apply store_val_lookup_ne.
Qed.

Lemma sanitize_mknod_exit_witness :
  (∃ c' mode',
     sanitizeCall linux (call_mknod S_IFBLK 7) = Ok c'
     ∧ Args c' !! 1%nat = Some mode' ∧ Val mode' = sys.S_IFIFO linux
     ∧ ∀ j, j ≠ 1%nat → Args c' !! j = Args (call_mknod S_IFBLK 7) !! j)
  ∧ (∃ c' mode',
       sanitizeCall linux (call_mknodat (Z.lor S_IFBLK 0x1a4) 0) = Ok c'
       ∧ Args c' !! 2%nat = Some mode' ∧ Val mode' = sys.S_IFIFO linux
       ∧ ∀ j, j ≠ 2%nat →
              Args c' !! j = Args (call_mknodat (Z.lor S_IFBLK 0x1a4) 0) !! j)
  ∧ sanitizeCall linux call_mknod_result
    = Panic (BadArgKind "mknod mode is not const")
  ∧ ∃ c' code',
      sanitizeCall linux (call_exit_with 195) = Ok c'
      ∧ Args c' !! 0%nat = Some code' ∧ Val code' = 1
      ∧ ∀ j, j ≠ 0%nat → Args c' !! j = Args (call_exit_with 195) !! j.
Proof.
  split; [|split; [|split]].
  - apply (proj1 (sanitize_mknod_exit linux (call_mknod S_IFBLK 7))
             1%nat (mode_arg S_IFBLK));
      [left; by split|reflexivity|reflexivity|discriminate..].
  - apply (proj1 (sanitize_mknod_exit linux
                    (call_mknodat (Z.lor S_IFBLK 0x1a4) 0))
             2%nat (mode_arg (Z.lor S_IFBLK 0x1a4)));
      [right; by split|reflexivity|reflexivity|discriminate..].
  - apply (proj1 (sanitize_mknod_exit linux call_mknod_result)
             1%nat (leaf (int_t "mode") ArgResult S_IFBLK));
      [left; by split|reflexivity|discriminate].
  - apply (proj2 (sanitize_mknod_exit linux (call_exit_with 195))
             (code_arg 195));
      [left; reflexivity|reflexivity|left; reflexivity].
Defined.

(** C8 as stated fails: [mknod] whose mode is a node of kind [ArgResult]
    holding the block-device mode is not rewritten to fifo; the sanitizer
    panics on the kind of the node and returns no call. *)
Lemma mknod_result_mode_panics :
  (∃ mode, Args call_mknod_result !! 1%nat = Some mode
           ∧ Val mode = S_IFBLK
           ∧ Val mode ≠ sys.S_IFREG linux ∧ Val mode ≠ sys.S_IFIFO linux
           ∧ Val mode ≠ sys.S_IFSOCK linux)
  ∧ sanitizeCall linux call_mknod_result
    = Panic (BadArgKind "mknod mode is not const")
  ∧ ¬ ∃ c', sanitizeCall linux call_mknod_result = Ok c'.
Proof.
  split; [|split].
  - eexists. split; [reflexivity|]. by repeat split.
  - reflexivity.
  - by intros [c' H].
Qed.

Lemma same_but_Val_setVal (a : Arg) (v : Z) : same_but_Val a (setVal v a).
Proof. by repeat split. Qed.

Lemma same_but_Val_refl (a : Arg) : same_but_Val a a.
Proof. by repeat split. Qed.

Lemma store_val_frame (c : Call) (pos : nat) (arg : Arg) (v : Z) :
  Args c !! pos = Some arg →
  Meta (store_val c pos arg v) = Meta c
  ∧ Ret (store_val c pos arg v) = Ret c
  ∧ length (Args (store_val c pos arg v)) = length (Args c)
  ∧ (∀ j, j ≠ pos → Args (store_val c pos arg v) !! j = Args c !! j)
  ∧ ∃ arg', Args (store_val c pos arg v) !! pos = Some arg'
            ∧ same_but_Val arg arg'.
Proof.
  intros H. split; [done|]. split; [done|].
  split; [simpl; by rewrite length_insert|].
  split; [intros j Hj; by apply store_val_lookup_ne|].
  exists (setVal v arg). split; [by apply store_val_lookup_eq|].
  apply same_but_Val_setVal.
Qed.




(** * The page table: the filter of [mmap] *)

(** C2 fails on the code at an anonymous mapping.  [mmap] of one page at
    page 0 with all flag bits set at argument 3, where [sanitizeCall] takes
    the flags, and descriptor 0 at argument 4 is an anonymous mapping with
    a descriptor that is not [InvalidFD]; [state.analyze] reads the flags
    from argument 4 and the descriptor from argument 3, skips the call and
    leaves page 0 unmapped.  With the two arguments exchanged the same
    call is observed and page 0 reads mapped. *)
Lemma mmap_anonymous_skipped :
  let c := call_mmap 0 1 uintptr_max 0 in
  (∃ flags fd,
     Args c !! 3%nat = Some flags ∧ Args c !! 4%nat = Some fd
     ∧ Z.land (Val flags) (sys.MAP_ANONYMOUS linux) ≠ 0
     ∧ Val fd ≠ sys.InvalidFD linux)
  ∧ (AddrPage (vma 0) = 0 ∧ page_span (pages_len 1 0) = 1)
  ∧ (∃ s', state_analyze linux 2 (newState ()) c = Ok s'
           ∧ page_is s' 0 false)
  ∧ ∃ s', state_analyze linux 2 (newState ()) (call_mmap 0 1 0 uintptr_max)
          = Ok s'
          ∧ page_is s' 0 true.
Proof.
  intros c. split; [|split; [|split]].
  - eexists _, _. split; [reflexivity|]. split; [reflexivity|].
    split; vm_compute; discriminate.
  - split; reflexivity.
  - eexists. split; [vm_compute; reflexivity|]. reflexivity.
  - eexists. split; [vm_compute; reflexivity|]. reflexivity.
Qed.
(** * The traversal under the size resolution *)

Lemma flat_map_fmap {A B C} (h : B → C) (F : A → list B) (l : list A) :
  h <$> flat_map F l = flat_map (λ y, h <$> F y) l.
Proof.
  induction l as [|y l IH]; simpl; [done|]. by rewrite fmap_app, IH.
Qed.

Lemma flat_map_ext_Forall {A B} (F G : A → list B) (l : list A) :
  Forall (λ y, F y = G y) l → flat_map F l = flat_map G l.
Proof. induction 1 as [|y l Hy _ IH]; simpl; [done|]. by rewrite Hy, IH. Qed.

(** The nodes a walk visits do not depend on the base and the scope it is
    started with. *)
Lemma subargs_nodes_eq (a : Arg) :
  ∀ b p b' p', node <$> subargs a b p = node <$> subargs a b' p'.
Proof.
  induction a as [a IHi IHr IHo] using Arg_tree_ind.
  intros b p b' p'. destruct a as [t k v ap ao apn d inner r o].
  simpl in *. rewrite !fmap_app, !flat_map_fmap. f_equal. f_equal; [|f_equal].
  - apply flat_map_ext_Forall.
    eapply Forall_impl; [exact IHi|]. intros y Hy. apply Hy.
  - destruct (decide (k = ArgPointer)); [|done].
    destruct r as [x|]; [|done]. by apply IHr.
  - destruct (decide (k = ArgUnion)); [|done].
    destruct o as [x|]; [|done]. by apply IHo.
Qed.

Lemma subargs_nodes_unfold (a : Arg) (b : option Arg) (p : option (list Arg)) :
  node <$> subargs a b p
  = a :: flat_map (λ y, node <$> subargs y None None) (Inner a)
      ++ (if decide (Kind a = ArgPointer) then
            match Res a with
            | Some r => node <$> subargs r None None
            | None => []
            end
          else [])
      ++ (if decide (Kind a = ArgUnion) then
            match Option a with
            | Some o => node <$> subargs o None None
            | None => []
            end
          else []).
Proof.
  destruct a as [t k v ap ao apn d inner r o]. simpl.
  rewrite !fmap_app, !flat_map_fmap. f_equal. f_equal; [|f_equal].
  - apply flat_map_ext_Forall, Forall_forall. intros y _.
    apply subargs_nodes_eq.
  - destruct (decide (k = ArgPointer)); [|done].
    destruct r as [x|]; [|done]. apply subargs_nodes_eq.
  - destruct (decide (k = ArgUnion)); [|done].
    destruct o as [x|]; [|done]. apply subargs_nodes_eq.
Qed.

Section logged_walk.
Context {St : Type}.
Variable f : callback (St := St).
Variable P : Arg → Arg → Prop.

Hypothesis f_keeps :
  ∀ a b p s a' s', f a b p s = Ok (a', s') →
                   Typ a' = Typ a ∧ Kind a' = Kind a.
Hypothesis f_P :
  ∀ x b p s x1 s1 x',
    f x b p s = Ok (x1, s1) →
    Typ x' = Typ x1 → Kind x' = Kind x1 →
    Forall2 (λ y y', Typ y' = Typ y ∧ Kind y' = Kind y) (Inner x1) (Inner x') →
    P x x'.

Lemma logged_run (a : Arg) b p (s : St) (l : list Arg) a1 s1 :
  f a b p s = Ok (a1, s1) →
  logged f a b p (s, l) = Ok (a1, (s1, l ++ [a])).
Proof. intros H. unfold logged. simpl. by rewrite H. Qed.

Lemma each_logged (G : list Arg → Arg → St → res (Arg * St))
    (G' : list Arg → Arg → St * list Arg → res (Arg * (St * list Arg)))
    (todo : list Arg) :
  (∀ cur y s l y' s', y ∈ todo → G cur y s = Ok (y', s') →
     ∃ vs, G' cur y (s, l) = Ok (y', (s', l ++ vs))
           ∧ Forall2 P vs (node <$> subargs y' None None)) →
  ∀ seen s l out s',
    each G seen todo s = Ok (out, s') →
    ∃ vs out',
      out = seen ++ out'
      ∧ each G' seen todo (s, l) = Ok (out, (s', l ++ vs))
      ∧ Forall2 P vs (flat_map (λ y, node <$> subargs y None None) out').
Proof.
  induction todo as [|y rest IH]; intros HG seen s l out s' H; simpl in *.
  - inversion H; subst. exists [], []. by rewrite !app_nil_r.
  - apply bind_Ok in H as [[y' s1] [Hy H]].
    assert (Hyin : y ∈ y :: rest) by (by left).
    destruct (HG _ _ _ l _ _ Hyin Hy) as (vs1 & Hy' & HP1).
    rewrite Hy'. simpl.
    assert (HG' : ∀ cur y0 s l y' s', y0 ∈ rest → G cur y0 s = Ok (y', s') →
              ∃ vs, G' cur y0 (s, l) = Ok (y', (s', l ++ vs))
                    ∧ Forall2 P vs (node <$> subargs y' None None)).
    { intros cur y0 s0 l0 y0' s0' Hin. apply HG. by right. }
    destruct (IH HG' _ _ (l ++ vs1) _ _ H) as (vs2 & out' & -> & Hrun & HP2).
    exists (vs1 ++ vs2), (y' :: out').
    split; [by rewrite <- app_assoc|].
    split; [by rewrite app_assoc|]. simpl. by apply Forall2_app.
Qed.

Lemma rec_logged (fuel : nat) :
  ∀ a b p s l a' s',
    rec fuel f a b p s = Ok (a', s') →
    ∃ vs, rec fuel (logged f) a b p (s, l) = Ok (a', (s', l ++ vs))
          ∧ Forall2 P vs (node <$> subargs a' None None).
Proof.
  induction fuel as [|fuel IH]; intros a b p s l a' s' H; [discriminate|].
  simpl in H. apply bind_Ok in H as [[a1 s1] [Hf H]].
  apply bind_Ok in H as [[inner s2] [Hin H]].
  apply bind_Ok in H as [[a3 s3] [Hres H]].
  pose proof Hin as Htk.
  apply (each_pointwise (λ y y', Typ y' = Typ y ∧ Kind y' = Kind y))
    in Htk as (inner0 & Hi0 & Htk);
    [|intros; by eapply rec_keeps_type].
  simpl in Hi0. subst inner0.
  eapply (each_logged _
            (λ cur arg1 sl,
               rec fuel (logged f) arg1 b
                   (if isStruct (Typ a1) then Some cur else p) sl))
    with (l := l ++ [a]) in Hin as (vsi & inner0 & Hi0 & Hin' & HPi);
    [|intros; by apply IH].
  simpl in Hi0. subst inner0.
  assert (Hroot : ∀ x', Typ x' = Typ a1 → Kind x' = Kind a1 →
            Inner x' = inner → P a x').
  { intros x' Ht Hk Hi. eapply f_P; [exact Hf|done|done|]. by rewrite Hi. }
  cbn [rec]. rewrite (logged_run _ _ _ _ l _ _ Hf). simpl.
  rewrite Hin'. simpl. simpl in Hres.
  (* the pointee *)
  assert (Hres' : ∃ vsr,
    (if decide (Kind a1 = ArgPointer) then
       match Res a1 with
       | Some r =>
         rec fuel (logged f) r (Some (setInner inner a1)) p
             (s2, (l ++ [a]) ++ vsi)
         ≫= λ '(r', s'), Ok (setRes (Some r') (setInner inner a1), s')
       | None => Ok (setInner inner a1, (s2, (l ++ [a]) ++ vsi))
       end
     else Ok (setInner inner a1, (s2, (l ++ [a]) ++ vsi)))
    = Ok (a3, (s3, ((l ++ [a]) ++ vsi) ++ vsr))
    ∧ Typ a3 = Typ a1 ∧ Kind a3 = Kind a1 ∧ Inner a3 = inner
    ∧ Option a3 = Option a1
    ∧ Forall2 P vsr
        (if decide (Kind a3 = ArgPointer) then
           match Res a3 with
           | Some r => node <$> subargs r None None
           | None => []
           end
         else [])).
  { destruct (decide (Kind a1 = ArgPointer)) as [Hk|Hk].
    - destruct (Res a1) as [r|] eqn:Hr.
      + apply bind_Ok in Hres as [[r' s4] [Hr' Hres]].
        inversion Hres; subst a3 s4; clear Hres.
        destruct (IH _ _ _ _ ((l ++ [a]) ++ vsi) _ _ Hr') as (vsr & -> & HPr).
        exists vsr. simpl. rewrite decide_True by done. by repeat split.
      + inversion Hres; subst a3 s3; clear Hres. exists [].
        rewrite app_nil_r. simpl. rewrite decide_True by done.
        rewrite Hr. by repeat split.
    - inversion Hres; subst a3 s3; clear Hres. exists [].
      rewrite app_nil_r. simpl. rewrite decide_False by done.
      by repeat split. }
  destruct Hres' as (vsr & Hres' & Ht3 & Hk3 & Hi3 & Ho3 & HPr).
  rewrite Hres'. simpl.
  (* the selected option *)
  assert (Hopt : ∃ vso,
    (if decide (Kind a3 = ArgUnion) then
       match Option a3 with
       | Some o =>
         rec fuel (logged f) o b p (s3, ((l ++ [a]) ++ vsi) ++ vsr)
         ≫= λ '(o', s'), Ok (setOption (Some o') a3, s')
       | None => Panic NilDeref
       end
     else Ok (a3, (s3, ((l ++ [a]) ++ vsi) ++ vsr)))
    = Ok (a', (s', (((l ++ [a]) ++ vsi) ++ vsr) ++ vso))
    ∧ Typ a' = Typ a3 ∧ Kind a' = Kind a3 ∧ Inner a' = Inner a3
    ∧ Res a' = Res a3
    ∧ Forall2 P vso
        (if decide (Kind a' = ArgUnion) then
           match Option a' with
           | Some o => node <$> subargs o None None
           | None => []
           end
         else [])).
  { destruct (decide (Kind a3 = ArgUnion)) as [Hk|Hk].
    - destruct (Option a3) as [o|] eqn:Ho; [|discriminate].
      apply bind_Ok in H as [[o' s4] [Ho' H]].
      inversion H; subst a' s4; clear H.
      destruct (IH _ _ _ _ (((l ++ [a]) ++ vsi) ++ vsr) _ _ Ho')
        as (vso & -> & HPo).
      exists vso. simpl. rewrite decide_True by done. by repeat split.
    - inversion H; subst a' s'; clear H. exists [].
      rewrite app_nil_r. rewrite decide_False by done. by repeat split. }
  destruct Hopt as (vso & Hopt & Ht' & Hk' & Hi' & Hr' & HPo).
  exists ([a] ++ vsi ++ vsr ++ vso). split.
  - rewrite Hopt. by rewrite <- !app_assoc.
  - rewrite subargs_nodes_unfold. simpl.
    constructor.
    + apply Hroot; congruence.
    + rewrite Hi', Hi3, Hr'.
      apply Forall2_app; [done|]. apply Forall2_app; [|done].
      destruct (decide (Kind a' = ArgPointer)) as [E|E],
               (decide (Kind a3 = ArgPointer)) as [E3|E3];
        try done; congruence.
Qed.

Lemma foreachArgArray_logged (fuel : nat) (args : list Arg) (s : St)
    (args' : list Arg) (ret' : option Arg) (s' : St) :
  foreachArgArray fuel args None f s = Ok (args', ret', s') →
  ∃ log,
    foreachArgArray fuel args None (logged f) (s, []) = Ok (args', ret', (s', log))
    ∧ Forall2 P log (node <$> subargs_array args' None).
Proof.
  unfold foreachArgArray, foreachSubargImpl. intros H.
  apply bind_Ok in H as [[out s1] [Hargs H]]. inversion H; subst; clear H.
  eapply (each_logged _
            (λ cur arg sl, rec fuel (logged f) arg None (Some cur) sl))
    with (l := []) in Hargs as (log & out' & Ho & Hrun & HP);
    [|intros; by apply rec_logged].
  simpl in Ho. subst out'. exists log. rewrite Hrun. simpl.
  split; [done|]. unfold subargs_array. rewrite app_nil_r, flat_map_fmap.
  erewrite flat_map_ext_Forall; [exact HP|].
  apply Forall_forall. intros y _. apply subargs_nodes_eq.
Qed.

End logged_walk.

(** ** Fuel of the resolution of a call *)

Lemma height_pos (a : Arg) : (0 < height a)%nat.
Proof. destruct a; simpl; lia. Qed.

Lemma height_member (a y : Arg) : y ∈ Inner a → (height y < height a)%nat.
Proof.
  destruct a as [t k v ap ao apn d inner r o]. simpl. intros Hy.
  apply height_le_foldr in Hy. lia.
Qed.

Lemma height_res (a r : Arg) : Res a = Some r → (height r < height a)%nat.
Proof.
  destruct a as [t k v ap ao apn d inner r0 o]. simpl. intros ->. lia.
Qed.

Lemma height_option (a o : Arg) : Option a = Some o → (height o < height a)%nat.
Proof.
  destruct a as [t k v ap ao apn d inner r o0]. simpl. intros ->. lia.
Qed.

Lemma updInner_height (g : Arg → Arg) (a : Arg) :
  (∀ x, (height (g x) ≤ height x)%nat) →
  (height (updInner g a) ≤ height a)%nat.
Proof.
  intros Hg. induction a as [a _ IHr _] using Arg_tree_ind.
  destruct a as [t k v ap ao apn d inner r o]. simpl in *.
  destruct (sys.Case t) eqn:Hc;
    try (specialize (Hg (mkArg t k v ap ao apn d inner r o)); simpl in Hg;
         exact Hg).
  destruct r as [y|]; simpl; [|lia]. specialize (IHr y eq_refl). lia.
Qed.

Lemma Forall2_insert_refl {A} (R : A → A → Prop) (l : list A) (i : nat)
    (x y : A) :
  (∀ z, R z z) → l !! i = Some x → R x y → Forall2 R l (<[i := y]> l).
Proof.
  intros Hrefl Hi Hxy. apply Forall2_same_length_lookup.
  split; [by rewrite length_insert|]. intros j a b Ha Hb.
  destruct (decide (i = j)) as [<-|Hne].
  - rewrite list_lookup_insert_eq in Hb by (by eapply lookup_lt_Some).
    by simplify_eq.
  - rewrite list_lookup_insert_ne in Hb by done. by simplify_eq.
Qed.

Section resolution_fuel.
Variable Size : Arg → Z.

Lemma generateSize_height (t : option Arg) (lenType : sys.Type_) :
  height (generateSize Size t lenType) = 1%nat.
Proof.
  unfold generateSize. destruct t as [x|]; [|done].
  destruct (sys.Case (Typ x)); try done. by destruct (decide _).
Qed.

Lemma fill_height (ps : Z) (am : gmap string nat) (cur cur' : list Arg)
    (i : nat) :
  fill Size ps am cur i = Ok cur' →
  Forall2 (λ a a', (height a' ≤ height a)%nat) cur cur'.
Proof.
  intros H.
  assert (Hsame : cur' = cur →
            Forall2 (λ a a', (height a' ≤ height a)%nat) cur cur').
  { intros ->. apply Forall2_same_length_lookup. split; [done|].
    intros j a b Ha Hb. by simplify_eq. }
  unfold fill in H. destruct (cur !! i) as [field|] eqn:Hi;
    [|apply Hsame; by inversion H].
  apply bind_Ok in H as [inner [Hin H]].
  destruct inner as [x|]; [|apply Hsame; by inversion H].
  destruct (sys.Case (Typ x)) as [| |Buf bs| | | | | |] eqn:Hc;
    try (apply Hsame; by inversion H).
  destruct (decide (Buf = "parent")).
  - inversion H; subst cur'.
    apply Forall2_insert_refl with field; [done..|].
    apply updInner_height. intros y. by destruct y.
  - destruct (am !! Buf) as [j|]; [|discriminate].
    destruct (cur !! j) as [buf|]; [|apply Hsame; by inversion H].
    apply bind_Ok in H as [target [Ht H]]. inversion H; subst cur'.
    apply Forall2_insert_refl with field; [done..|].
    apply updInner_height. intros y. rewrite generateSize_height.
    apply height_pos.
Qed.

Lemma assignSizes_height (args final : list Arg) :
  assignSizes Size args = Ok final →
  Forall2 (λ a a', (height a' ≤ height a)%nat) args final.
Proof.
  unfold assignSizes. destruct (scan Size args 0 (0, ∅)) as [ps am].
  generalize (seq 0 (length args)). intros l. revert args.
  induction l as [|i l IH]; intros args H; simpl in H.
  - inversion H; subst. apply Forall2_same_length_lookup. split; [done|].
    intros j a b Ha Hb. by simplify_eq.
  - apply bind_Ok in H as [cur [Hfill H]].
    apply fill_height in Hfill. apply IH in H.
    eapply Forall2_trans; [|exact Hfill|exact H].
    simpl. intros; lia.
Qed.

Lemma each_no_fuel {St : Type} (G : list Arg → Arg → St → res (Arg * St))
    (todo : list Arg) :
  (∀ cur y s, y ∈ todo → G cur y s ≠ OutOfFuel) →
  ∀ seen s, each G seen todo s ≠ OutOfFuel.
Proof.
  induction todo as [|y rest IH]; intros HG seen s; simpl; [done|].
  pose proof (HG (seen ++ y :: rest) y s ltac:(by left)) as Hy.
  destruct (G (seen ++ y :: rest) y s) as [[y' s1]| |]; simpl; try done.
  apply IH. intros. apply HG. by right.
Qed.

Lemma rec_resize_fuel (fuel : nat) :
  ∀ a b p, (height a ≤ fuel)%nat →
           rec fuel (resize_struct Size) a b p () ≠ OutOfFuel.
Proof.
  induction fuel as [|fuel IH]; intros a b p Hh.
  { pose proof (height_pos a). lia. }
  cbn [rec].
  assert (Hcb : ∃ r, resize_struct Size a b p () = r
            ∧ match r with
              | Ok (a1, _) =>
                Kind a1 = Kind a ∧ Res a1 = Res a ∧ Option a1 = Option a
                ∧ ∀ y, y ∈ Inner a1 → (height y ≤ fuel)%nat
              | Panic _ => True
              | OutOfFuel => False
              end).
  { eexists. split; [done|]. unfold resize_struct.
    assert (Hmem : ∀ y, y ∈ Inner a → (height y ≤ fuel)%nat).
    { intros y Hy. apply height_member in Hy. lia. }
    destruct (isStruct (Typ a)); [|done].
    pose proof (assignSizes_no_fuel Size (Inner a)) as Hnf.
    destruct (assignSizes Size (Inner a)) as [inner1| |] eqn:Has;
      simpl; try done.
    repeat split. intros y Hy. apply assignSizes_height in Has.
    apply list_elem_of_lookup in Hy as [i Hi].
    destruct (Forall2_lookup_r _ _ _ _ _ Has Hi) as (y0 & Hy0 & Hle).
    apply list_elem_of_lookup_2 in Hy0. specialize (Hmem y0 Hy0). lia. }
  destruct Hcb as (r & -> & Hr).
  destruct r as [[a1 []]| |]; simpl; try done.
  destruct Hr as (Hk & Hres & Hopt & Hmem).
  pose proof (each_no_fuel
                (λ cur arg1 s,
                   rec fuel (resize_struct Size) arg1 b
                       (if isStruct (Typ a1) then Some cur else p) s)
                (Inner a1)) as Heach.
  specialize (Heach ltac:(intros cur y [] Hy; apply IH; by apply Hmem) [] ()).
  destruct (each _ [] (Inner a1) ()) as [[inner []]| |]; simpl; try done.
  assert (Hr : ∀ r, Res a = Some r → (height r ≤ fuel)%nat).
  { intros r Hr. apply height_res in Hr. lia. }
  assert (Ho : ∀ o, Option a = Some o → (height o ≤ fuel)%nat).
  { intros o Ho. apply height_option in Ho. lia. }
  rewrite Hk, Hres.
  assert (Hptr : ∃ r,
    (if decide (Kind a = ArgPointer) then
       match Res a with
       | Some r =>
         rec fuel (resize_struct Size) r (Some (setInner inner a1)) p ()
         ≫= λ '(r', s'), Ok (setRes (Some r') (setInner inner a1), s')
       | None => Ok (setInner inner a1, ())
       end
     else Ok (setInner inner a1, ())) = r
    ∧ match r with
      | Ok (a3, _) => Kind a3 = Kind a ∧ Option a3 = Option a
      | Panic _ => True
      | OutOfFuel => False
      end).
  { eexists. split; [done|].
    destruct (decide (Kind a = ArgPointer)); [|done].
    destruct (Res a) as [r|] eqn:Hra; [|done].
    pose proof (IH r (Some (setInner inner a1)) p (Hr r eq_refl)) as Hnf.
    destruct (rec fuel _ r _ p ()) as [[r' []]| |]; simpl; done. }
  destruct Hptr as (r & -> & Hr3).
  destruct r as [[a3 []]| |]; simpl; try done.
  destruct Hr3 as [Hk3 Ho3]. rewrite Hk3, Ho3.
  destruct (decide (Kind a = ArgUnion)); [|done].
  destruct (Option a) as [o|] eqn:Hoa; [|done].
  pose proof (IH o b p (Ho o eq_refl)) as Hnf.
  destruct (rec fuel _ o b p ()) as [[o' []]| |]; simpl; done.
Qed.

Lemma assignSizesCall_fuel (fuel : nat) (c : Call) :
  (∀ a, a ∈ Args c → (height a ≤ fuel)%nat) →
  assignSizesCall Size fuel c ≠ OutOfFuel.
Proof.
  intros Hh. unfold assignSizesCall.
  pose proof (assignSizes_no_fuel Size (Args c)) as Hnf.
  destruct (assignSizes Size (Args c)) as [args1| |] eqn:Has; simpl; try done.
  apply assignSizes_height in Has.
  unfold foreachArg, foreachArgArray, foreachSubargImpl. simpl.
  pose proof (each_no_fuel
                (λ cur arg s, rec fuel (resize_struct Size) arg None
                                  (Some cur) s) args1) as Heach.
  assert (Hargs1 : ∀ y, y ∈ args1 → (height y ≤ fuel)%nat).
  { intros y Hy. apply list_elem_of_lookup in Hy as [i Hi].
    destruct (Forall2_lookup_r _ _ _ _ _ Has Hi) as (y0 & Hy0 & Hle).
    apply list_elem_of_lookup_2 in Hy0. specialize (Hh y0 Hy0). lia. }
  specialize (Heach ltac:(intros cur y [] Hy; apply rec_resize_fuel;
                          by apply Hargs1) [] ()).
  destruct (each _ [] args1 ()) as [[out []]| |]; simpl; done.
Qed.

End resolution_fuel.

Lemma resize_struct_resolved (Size : Arg → Z) (x : Arg) b p (s : unit) x1 s1
    (x' : Arg) :
  resize_struct Size x b p s = Ok (x1, s1) →
  Typ x' = Typ x1 → Kind x' = Kind x1 →
  Forall2 (λ y y', Typ y' = Typ y ∧ Kind y' = Kind y) (Inner x1) (Inner x') →
  resolved_at Size x x'.
Proof.
  unfold resize_struct, resolved_at. intros H Ht Hk Hin.
  destruct (isStruct (Typ x)) eqn:Hs.
  - apply bind_Ok in H as [inner [Has H]]. inversion H; subst x1 s1; clear H.
    simpl in *. repeat split; try done. by exists inner.
  - inversion H; subst x1 s1; clear H.
    repeat split; try done. by exists (Inner x).
Qed.

(** C4, as the code has it.  With the recording callback,
    [foreachArgArray] calls the callback on every node reachable from the
    argument list and from the return node it is given, and on nothing
    else; [foreachArg] passes no return node and so covers the argument
    list only; with enough fuel on a call whose union nodes have their
    option both return, with the visits in order.  The size resolution of
    a call resolves the argument list and then walks it with [foreachArg]:
    its callback is called once, in the order of the walk, for every node
    reachable from the argument list of the call it returns, on the node
    as the walk finds it, and resolves the members of each struct-typed
    node before they are walked; the return node is left as it was.  With
    enough fuel the resolution returns or panics. *)
Theorem traversal_coverage (fuel : nat) :
  (∀ args ret args' ret' vs,
     foreachArgArray fuel args ret (read_only record) [] = Ok (args', ret', vs) →
     ∀ x, x ∈ node <$> vs
          ↔ (∃ a, a ∈ args ∧ reachable a x)
            ∨ (∃ r, ret = Some r ∧ reachable r x))
  ∧ (∀ c c' vs,
       foreachArg fuel c (read_only record) [] = Ok (c', vs) →
       ∀ x, x ∈ node <$> vs ↔ ∃ a, a ∈ Args c ∧ reachable a x)
  ∧ (∀ c,
       (∀ a, a ∈ Args c → (height a ≤ fuel)%nat ∧ options_set a = true) →
       (∀ r, Ret c = Some r → (height r ≤ fuel)%nat ∧ options_set r = true) →
       foreachArgArray fuel (Args c) (Ret c) (read_only record) []
       = Ok (Args c, Ret c, subargs_array (Args c) (Ret c))
       ∧ foreachArg fuel c (read_only record) []
         = Ok (c, subargs_array (Args c) None))
  ∧ (∀ Size c c',
       assignSizesCall Size fuel c = Ok c' →
       ∃ args1 log,
         assignSizes Size (Args c) = Ok args1
         ∧ foreachArg fuel (mkCall (Meta c) args1 (Ret c))
                      (logged (resize_struct Size)) ((), [])
           = Ok (c', ((), log))
         ∧ Forall2 (resolved_at Size) log
                   (node <$> subargs_array (Args c') None)
         ∧ (∀ x', (∃ a', a' ∈ Args c' ∧ reachable a' x') →
                  ∃ x, x ∈ log ∧ resolved_at Size x x')
         ∧ Ret c' = Ret c)
  ∧ (∀ Size c,
       (∀ a, a ∈ Args c → (height a ≤ fuel)%nat) →
       assignSizesCall Size fuel c ≠ OutOfFuel).
Proof.
  split; [|split; [|split; [|split]]].
  - intros args ret args' ret' vs H x.
    apply foreachArgArray_read_only in H as (_ & _ & _ & H).
    rewrite foldM_record in H. inversion H; subst vs. simpl.
    apply subargs_array_nodes.
  - intros c c' vs H x. unfold foreachArg in H.
    apply bind_Ok in H as [[[args' ret'] vs'] [H1 H2]].
    inversion H2; subst; clear H2.
    apply foreachArgArray_read_only in H1 as (_ & _ & _ & H).
    rewrite foldM_record in H. inversion H; subst vs. simpl.
    rewrite subargs_array_nodes. naive_solver.
  - intros c Hargs Hret. split.
    + rewrite foreachArgArray_enough_fuel by done.
      by rewrite foldM_record.
    + unfold foreachArg. rewrite foreachArgArray_enough_fuel by done.
      rewrite foldM_record. simpl. by destruct c.
  - intros Size c c' H. unfold assignSizesCall in H.
    apply bind_Ok in H as [args1 [Has H]].
    apply bind_Ok in H as [[c1 u] [Hw H]]. inversion H; subst c1; clear H.
    unfold foreachArg in Hw. simpl in Hw.
    apply bind_Ok in Hw as [[[args' ret'] u'] [Hw H]].
    inversion H; subst c' u'; clear H.
    apply (foreachArgArray_logged (resize_struct Size) (resolved_at Size))
      in Hw as (log & Hrun & Hcov).
    2:{ intros. by eapply resize_struct_keeps. }
    2:{ intros. by eapply resize_struct_resolved. }
    exists args1, log. split; [done|]. destruct u. split.
    { unfold foreachArg. simpl. by rewrite Hrun. }
    simpl. split; [done|]. split; [|done].
    intros x' Hx'.
    assert (Hin : x' ∈ node <$> subargs_array args' None).
    { apply subargs_array_nodes. by left. }
    apply list_elem_of_lookup in Hin as [i Hi].
    destruct (Forall2_lookup_r _ _ _ _ _ Hcov Hi) as (x & Hx & HP).
    exists x. split; [by eapply list_elem_of_lookup_2|done].
  - intros Size c Hh. by apply assignSizesCall_fuel.
Qed.

Lemma traversal_coverage_witness :
  (open_ret ∈ node <$> [(open_mode, None, Some [open_mode]);
                         (open_ret, None, None)]
   ↔ (∃ a, a ∈ [open_mode] ∧ reachable a open_ret)
     ∨ (∃ r, Some open_ret = Some r ∧ reachable r open_ret))
  ∧ (open_name ∈ node <$> [(open_file, None, Some [open_file]);
                            (open_name, Some open_file, Some [open_file])]
     ↔ ∃ a, a ∈ Args (mkCall (mkMeta "x" "x") [open_file] (Some open_ret))
            ∧ reachable a open_name)
  ∧ (foreachArgArray 4 (Args call_open) (Ret call_open) (read_only record) []
     = Ok (Args call_open, Ret call_open,
           subargs_array (Args call_open) (Ret call_open))
     ∧ foreachArg 4 call_open (read_only record) []
       = Ok (call_open, subargs_array (Args call_open) None))
  ∧ (∃ args1 log,
       assignSizes sample_Size (Args call_struct) = Ok args1
       ∧ foreachArg 4 (mkCall (Meta call_struct) args1 (Ret call_struct))
                    (logged (resize_struct sample_Size)) ((), [])
         = Ok (call_struct_resolved, ((), log))
       ∧ Forall2 (resolved_at sample_Size) log
                 (node <$> subargs_array (Args call_struct_resolved) None)
       ∧ (∀ x', (∃ a', a' ∈ Args call_struct_resolved ∧ reachable a' x') →
                ∃ x, x ∈ log ∧ resolved_at sample_Size x x')
       ∧ Ret call_struct_resolved = Ret call_struct)
  ∧ assignSizesCall sample_Size 4 call_struct ≠ OutOfFuel.
Proof.
  destruct (traversal_coverage 4) as (H1 & H2 & H3 & H4 & H5).
  split; [|split; [|split; [|split]]].
  - apply (H1 [open_mode] (Some open_ret) [open_mode] (Some open_ret)).
    reflexivity.
  - apply (H2 (mkCall (mkMeta "x" "x") [open_file] (Some open_ret))
              (mkCall (mkMeta "x" "x") [open_file] (Some open_ret))).
    reflexivity.
  - apply (H3 call_open).
    + intros a Ha. simpl in Ha.
      repeat (apply elem_of_cons in Ha as [->|Ha];
              [split; [vm_compute; lia|reflexivity]|]).
      by apply elem_of_nil in Ha.
    + intros r Hr. injection Hr as <-. split; [vm_compute; lia|reflexivity].
  - apply (H4 sample_Size call_struct call_struct_resolved).
    vm_compute. reflexivity.
  - apply (H5 sample_Size call_struct).
    intros a Ha. simpl in Ha.
    repeat (apply elem_of_cons in Ha as [->|Ha]; [vm_compute; lia|]).
    by apply elem_of_nil in Ha.
Defined.
